(** * fabric8-analytics LSP server: the diagnostics orchestration of [src/server.ts]

    A shallow embedding of the server module: the summary message builder
    [getCAmsg], the payload slicer [slicePayload], the version filter
    [regexVersion], the code-action handler, the debounce handlers around the
    global timer [checkDelay], the analysis cycle [sendDiagnostics] with
    its batched calls of [fetchVulnerabilities], the file handlers of
    [AnalysisFiles] and [AnalysisLSPServer], and the request URL.

    JavaScript values are modelled as follows.  A [number] that only ever
    holds a count is a [Z] (or a [nat] for an array length); a string is a
    [string] whose characters are code units below 256; an array is a [list];
    an object used as a dictionary is a [gmap] over strings; a value that may
    be [undefined] is an [option]. *)

From Stdlib Require Import ZArith List String Ascii Lia Bool DecimalString
  DecimalPos DecimalZ.
From stdpp Require Import gmap strings.
Import ListNotations.

Local Open Scope Z_scope.

(** ** JavaScript string helpers *)

Module Js.

(** [`${n}`] for an integral number. *)
Definition num (z : Z) : string := NilZero.string_of_int (Z.to_int z).

(** [`${a.length}`]. *)
Definition len_str {A} (l : list A) : string := num (Z.of_nat (length l)).

(** Truthiness of a string: only the empty string is falsy. *)
Definition truthy (s : string) : bool :=
  match s with EmptyString => false | String _ _ => true end.

(** [s.includes(t)]. *)
Fixpoint includes (t s : string) : bool :=
  String.prefix t s ||
  match s with
  | EmptyString => false
  | String _ s' => includes t s'
  end.

(** Every character of [s] satisfies [p]. *)
Fixpoint all_chars (p : ascii -> bool) (s : string) : bool :=
  match s with
  | EmptyString => true
  | String c s' => p c && all_chars p s'
  end.

Lemma append_cons (c : ascii) (a b : string) :
  String c a +:+ b = String c (a +:+ b).
Proof. reflexivity. Qed.

Lemma append_empty_r (s : string) : s +:+ "" = s.
Proof. induction s as [|c s IH]; [reflexivity | rewrite append_cons; now f_equal]. Qed.

Lemma append_assoc (a b c : string) : (a +:+ b) +:+ c = a +:+ (b +:+ c).
Proof. induction a as [|x a IH]; [reflexivity | rewrite !append_cons; now f_equal]. Qed.

Lemma all_chars_app p a b :
  all_chars p a = true -> all_chars p b = true -> all_chars p (a +:+ b) = true.
Proof.
  induction a as [|c a IH]; intros Ha Hb; [exact Hb|].
  rewrite append_cons. simpl in *. apply andb_true_iff in Ha as [Hc Ha].
  now rewrite Hc, IH.
Qed.

End Js.

(** ** The summary notification builder, [getCAmsg] *)

Module Summary.

(** [class TotalCount]: three counters, all starting at 0. *)
Record TotalCount := mkTotalCount {
  vulnerabilityCount : Z;
  advisoryCount : Z;
  exploitCount : Z
}.

Definition TotalCount_new : TotalCount := mkTotalCount 0 0 0.

(** The value of [!count || `...`]: the boolean [true] when the count is 0,
    the template string otherwise. *)
Inductive BoolOrString :=
| JsTrue
| JsString (s : string).

Definition vulStr (count : Z) : string :=
  if count =? 1 then "Vulnerability" else "Vulnerabilities".

Definition advStr (count : Z) : string :=
  if count =? 1 then "Advisory" else "Advisories".

Definition knownVulnMsg (totalCount : TotalCount) : BoolOrString :=
  let c := vulnerabilityCount totalCount in
  if c =? 0 then JsTrue
  else JsString (Js.num c +:+ " Known Security " +:+ vulStr c).

Definition advisoryMsg (totalCount : TotalCount) : BoolOrString :=
  let c := advisoryCount totalCount in
  if c =? 0 then JsTrue
  else JsString (Js.num c +:+ " Security " +:+ advStr c).

(** [.filter(x => x !== true)], keeping the strings. *)
Fixpoint filter_not_true (l : list BoolOrString) : list string :=
  match l with
  | [] => []
  | JsTrue :: l' => filter_not_true l'
  | JsString s :: l' => s :: filter_not_true l'
  end.

Definition noFindings : string := "No potential security vulnerabilities found".

Definition scanned {D} (deps : list D) : string :=
  "Scanned " +:+ Js.len_str deps +:+ " " +:+
  (if Nat.eqb (length deps) 1 then "dependency" else "dependencies") +:+ ", ".

Definition summaryMsg (totalCount : TotalCount) : string :=
  let s0 := String.concat " and "
              (filter_not_true [knownVulnMsg totalCount; advisoryMsg totalCount]) in
  let s1 := s0 +:+
              (if 0 <? exploitCount totalCount
               then " with " +:+ Js.num (exploitCount totalCount) +:+ " Exploitable "
                      +:+ vulStr (exploitCount totalCount)
               else "") in
  s1 +:+
    (if 0 <? vulnerabilityCount totalCount + advisoryCount totalCount
     then " along with quick fixes" else "").

Definition getCAmsg {D G} (deps : list D) (diagnostics : list G)
    (totalCount : TotalCount) : string :=
  let msg := scanned deps in
  if Nat.ltb 0 (length diagnostics) then
    let s := summaryMsg totalCount in
    msg +:+ (if Js.truthy s then "flagged " +:+ s else noFindings)
  else
    msg +:+ noFindings.

(** The clauses of the message, as the specification words them. *)

Definition known_clause (v : Z) : string :=
  Js.num v +:+ " Known Security " +:+ vulStr v.

Definition advisory_clause (a : Z) : string :=
  Js.num a +:+ " Security " +:+ advStr a.

Definition exploit_clause (e : Z) : string :=
  " with " +:+ Js.num e +:+ " Exploitable " +:+ vulStr e.

Definition quick_fix_clause : string := " along with quick fixes".

(** The phrase made of the non-zero counts, joined with "and". *)
Definition findings_phrase (v a : Z) : string :=
  match Z.eqb v 0, Z.eqb a 0 with
  | true, true => ""
  | false, true => known_clause v
  | true, false => advisory_clause a
  | false, false => known_clause v +:+ " and " +:+ advisory_clause a
  end.

(** ** Properties of [getCAmsg] *)

Lemma nonempty_ltb {G} (diagnostics : list G) :
  diagnostics <> [] -> Nat.ltb 0 (length diagnostics) = true.
Proof. destruct diagnostics; [congruence | reflexivity]. Qed.

Lemma summaryMsg_phrase (tc : TotalCount) :
  summaryMsg tc =
  findings_phrase (vulnerabilityCount tc) (advisoryCount tc)
  +:+ (if 0 <? exploitCount tc then exploit_clause (exploitCount tc) else "")
  +:+ (if 0 <? vulnerabilityCount tc + advisoryCount tc then quick_fix_clause else "").
Proof.
  unfold summaryMsg, knownVulnMsg, advisoryMsg, findings_phrase,
    known_clause, advisory_clause, exploit_clause, quick_fix_clause.
  destruct (vulnerabilityCount tc =? 0), (advisoryCount tc =? 0); simpl;
    rewrite ?Js.append_assoc; reflexivity.
Qed.

Lemma getCAmsg_nonempty {D G} (deps : list D) (diagnostics : list G) tc :
  diagnostics <> [] ->
  getCAmsg deps diagnostics tc =
  scanned deps +:+
    (if Js.truthy (summaryMsg tc) then "flagged " +:+ summaryMsg tc else noFindings).
Proof.
  intros Hne. unfold getCAmsg. now rewrite (nonempty_ltb _ Hne).
Qed.

Lemma scanned_length {D E} (d1 : list D) (d2 : list E) :
  length d1 = length d2 -> scanned d1 = scanned d2.
Proof. unfold scanned, Js.len_str. now intros ->. Qed.

(** Characters of a printed array length are decimal digits, so none of them
    is the letter f. *)

Definition not_f (c : ascii) : bool := negb (Ascii.eqb c "f").

Lemma uint_not_f (u : Decimal.uint) :
  Js.all_chars not_f (NilEmpty.string_of_uint u) = true.
Proof. induction u; simpl; auto. Qed.

Lemma len_str_not_f {D} (deps : list D) : Js.all_chars not_f (Js.len_str deps) = true.
Proof.
  unfold Js.len_str, Js.num.
  destruct (Z.of_nat (length deps)) as [|p|p] eqn:E; [reflexivity| |lia].
  simpl. unfold NilZero.string_of_uint.
  pose proof (uint_not_f (Pos.to_uint p)) as H.
  destruct (Pos.to_uint p); try exact H; reflexivity.
Qed.

Lemma includes_skip (c : ascii) (t p s : string) :
  Js.all_chars (fun x => negb (Ascii.eqb x c)) p = true ->
  Js.includes (String c t) (p +:+ s) = Js.includes (String c t) s.
Proof.
  induction p as [|x p IH]; intros Hp; [reflexivity|].
  rewrite Js.append_cons. simpl in Hp. apply andb_true_iff in Hp as [Hx Hp].
  simpl. rewrite (IH Hp).
  destruct (ascii_dec c x) as [->|Hne]; [|reflexivity].
  now rewrite Ascii.eqb_refl in Hx.
Qed.

Lemma scanned_noFindings_not_flagged {D} (deps : list D) :
  Js.includes "flagged" (scanned deps +:+ noFindings) = false.
Proof.
  unfold scanned. rewrite !Js.append_assoc.
  change ("Scanned " +:+ ?x) with ("Scanned " +:+ x).
  rewrite (includes_skip "f" "lagged" "Scanned ") by reflexivity.
  rewrite (includes_skip "f" "lagged" (Js.len_str deps)) by apply len_str_not_f.
  destruct (Nat.eqb (length deps) 1); reflexivity.
Qed.

(** C7. With a non-empty diagnostics list the message is the scanned-count
    prefix followed by "flagged" and a phrase made of whichever of the
    known-vulnerability and advisory counts are non-zero, joined with "and";
    the exploitable clause is appended exactly when [exploitCount > 0] and
    the quick-fixes clause exactly when
    [vulnerabilityCount + advisoryCount > 0].  Counts {1,1,1} give both
    clauses joined with "and" followed by "with 1 Exploitable Vulnerability";
    counts {2,0,0} on three dependencies give a message that contains
    "2 Known Security Vulnerabilities" and "quick fixes" and no advisory
    clause. *)
Theorem getCAmsg_clauses {D G} (deps : list D) (diagnostics : list G)
    (tc : TotalCount) :
  diagnostics <> [] ->
  let v := vulnerabilityCount tc in
  let a := advisoryCount tc in
  let e := exploitCount tc in
  let body :=
    findings_phrase v a
    +:+ (if 0 <? e then exploit_clause e else "")
    +:+ (if 0 <? v + a then quick_fix_clause else "") in
  getCAmsg deps diagnostics tc =
    scanned deps +:+ (if Js.truthy body then "flagged " +:+ body else noFindings)
  /\ (v = 1 -> a = 1 -> e = 1 ->
      getCAmsg deps diagnostics tc =
        scanned deps +:+
        "flagged 1 Known Security Vulnerability and 1 Security Advisory with 1 Exploitable Vulnerability along with quick fixes")
  /\ (v = 2 -> a = 0 -> e = 0 ->
      getCAmsg deps diagnostics tc =
        scanned deps +:+ "flagged 2 Known Security Vulnerabilities along with quick fixes"
      /\ (length deps = 3%nat ->
          Js.includes "2 Known Security Vulnerabilities" (getCAmsg deps diagnostics tc) = true
          /\ Js.includes "quick fixes" (getCAmsg deps diagnostics tc) = true
          /\ Js.includes "Advisor" (getCAmsg deps diagnostics tc) = false)).
Proof.
  intros Hne v a e body.
  assert (Hmsg : getCAmsg deps diagnostics tc =
    scanned deps +:+ (if Js.truthy body then "flagged " +:+ body else noFindings)).
  { rewrite (getCAmsg_nonempty _ _ _ Hne), summaryMsg_phrase. reflexivity. }
  split; [exact Hmsg|].
  split.
  - intros Hv Ha He. rewrite Hmsg. subst body. rewrite Hv, Ha, He. reflexivity.
  - intros Hv Ha He.
    assert (Hm2 : getCAmsg deps diagnostics tc =
      scanned deps +:+ "flagged 2 Known Security Vulnerabilities along with quick fixes").
    { rewrite Hmsg. subst body. rewrite Hv, Ha, He. reflexivity. }
    split; [exact Hm2|].
    intros Hlen. rewrite Hm2.
    rewrite (scanned_length deps [tt; tt; tt] Hlen).
    repeat split; vm_compute; reflexivity.
Qed.

Lemma getCAmsg_clauses_witness :
  getCAmsg [tt; tt; tt] [tt] (mkTotalCount 2 0 0) =
  "Scanned 3 dependencies, flagged 2 Known Security Vulnerabilities along with quick fixes".
Proof.
  destruct (getCAmsg_clauses [tt; tt; tt] [tt] (mkTotalCount 2 0 0)) as (_ & _ & H).
  - discriminate.
  - destruct (H eq_refl eq_refl eq_refl) as [H2 _]. exact H2.
Defined.

(** C8. One dependency and no diagnostics: the message is exactly
    "Scanned 1 dependency, No potential security vulnerabilities found". *)
Theorem getCAmsg_one_dependency_clean {D G} (deps : list D) (tc : TotalCount) :
  length deps = 1%nat ->
  getCAmsg deps (@nil G) tc =
    "Scanned 1 dependency, No potential security vulnerabilities found".
Proof.
  intros Hlen. unfold getCAmsg. simpl.
  rewrite (scanned_length deps [tt] Hlen). reflexivity.
Qed.

Lemma getCAmsg_one_dependency_clean_witness :
  getCAmsg ["lodash"%string] (@nil unit) (mkTotalCount 0 0 0) =
    "Scanned 1 dependency, No potential security vulnerabilities found".
Proof. apply (getCAmsg_one_dependency_clean (G:=unit)). reflexivity. Defined.

(** C9. A non-empty diagnostics list whose three counts are all zero still
    yields the no-findings wording: the message equals the one built for an
    empty diagnostics list and has no "flagged" phrase. *)
Theorem getCAmsg_zero_counts_no_findings {D G} (deps : list D)
    (diagnostics : list G) (tc : TotalCount) :
  diagnostics <> [] ->
  vulnerabilityCount tc = 0 -> advisoryCount tc = 0 -> exploitCount tc = 0 ->
  getCAmsg deps diagnostics tc = scanned deps +:+ noFindings
  /\ getCAmsg deps diagnostics tc = getCAmsg deps (@nil G) tc
  /\ Js.includes "flagged" (getCAmsg deps diagnostics tc) = false.
Proof.
  intros Hne Hv Ha He.
  assert (H : getCAmsg deps diagnostics tc = scanned deps +:+ noFindings).
  { rewrite (getCAmsg_nonempty _ _ _ Hne). unfold summaryMsg, knownVulnMsg, advisoryMsg.
    rewrite Hv, Ha, He. reflexivity. }
  repeat split; [exact H | rewrite H; reflexivity |].
  rewrite H. apply scanned_noFindings_not_flagged.
Qed.

Lemma getCAmsg_zero_counts_no_findings_witness :
  getCAmsg [tt; tt] [tt] (mkTotalCount 0 0 0) =
    "Scanned 2 dependencies, No potential security vulnerabilities found".
Proof.
  refine (proj1 (getCAmsg_zero_counts_no_findings [tt; tt] [tt] (mkTotalCount 0 0 0)
                   _ eq_refl eq_refl eq_refl)).
  discriminate.
Defined.

(** ** More on [getCAmsg] *)

(** X13. The message reads the dependencies for their number only and the
    diagnostics for being empty or not: lists of the same length, and
    diagnostics lists that are both empty or both not, give the same
    message; with no diagnostics the counts are not read at all. *)
Theorem getCAmsg_reads_lengths {D D' G G'} (deps : list D) (deps' : list D')
    (diagnostics : list G) (diagnostics' : list G') (tc tc' : TotalCount) :
  length deps = length deps' ->
  (diagnostics = [] <-> diagnostics' = []) ->
  getCAmsg deps diagnostics tc = getCAmsg deps' diagnostics' tc
  /\ (diagnostics = [] ->
      getCAmsg deps diagnostics tc = getCAmsg deps diagnostics tc').
Proof.
  intros Hlen Hiff. unfold getCAmsg. rewrite (scanned_length deps deps' Hlen).
  split.
  - destruct diagnostics as [|g gs], diagnostics' as [|g' gs']; try reflexivity.
    + destruct Hiff as [H _]. discriminate (H eq_refl).
    + destruct Hiff as [_ H]. discriminate (H eq_refl).
  - now intros ->.
Qed.

Lemma getCAmsg_reads_lengths_witness :
  getCAmsg ["a"; "b"]%string [true] (mkTotalCount 1 0 0)
  = getCAmsg [1; 2] ["x"; "y"; "z"]%string (mkTotalCount 1 0 0).
Proof.
  refine (proj1 (getCAmsg_reads_lengths ["a"; "b"]%string [1; 2] [true]
                   ["x"; "y"; "z"]%string (mkTotalCount 1 0 0) (mkTotalCount 1 0 0)
                   eq_refl _)).
  split; discriminate.
Defined.

(** X14. With diagnostics present, no known vulnerability and no advisory
    but a positive exploit count, the findings phrase is empty and the
    message still says "flagged": it reads "flagged  with N Exploitable ..."
    with nothing between "flagged" and "with", and has no quick-fixes
    clause. *)
Theorem getCAmsg_exploit_only {D G} (deps : list D) (diagnostics : list G)
    (tc : TotalCount) :
  diagnostics <> [] ->
  vulnerabilityCount tc = 0 -> advisoryCount tc = 0 -> 0 < exploitCount tc ->
  getCAmsg deps diagnostics tc =
  scanned deps +:+ "flagged  with " +:+ Js.num (exploitCount tc) +:+ " Exploitable "
    +:+ vulStr (exploitCount tc).
Proof.
  intros Hne Hv Ha He. rewrite (getCAmsg_nonempty _ _ _ Hne).
  unfold summaryMsg, knownVulnMsg, advisoryMsg. rewrite Hv, Ha.
  apply Z.ltb_lt in He. rewrite He. simpl. rewrite Js.append_empty_r.
  reflexivity.
Qed.

Lemma getCAmsg_exploit_only_witness :
  getCAmsg [tt; tt] [tt] (mkTotalCount 0 0 2)
  = "Scanned 2 dependencies, flagged  with 2 Exploitable Vulnerabilities".
Proof.
  refine (getCAmsg_exploit_only [tt; tt] [tt] (mkTotalCount 0 0 2) _ eq_refl eq_refl _).
  - discriminate.
  - reflexivity.
Defined.

End Summary.

(** ** Batch slicing, [slicePayload] *)

Module Slice.

(** One request body: [{ecosystem, package_versions}]. *)
Record Request (A : Type) := mkRequest {
  ecosystem : string;
  package_versions : list A
}.
Arguments mkRequest {A} _ _.
Arguments ecosystem {A} _.
Arguments package_versions {A} _.

(** [a.slice(i, j)] for indices [0 <= i <= j]: the end is clamped to the
    length, and a start past the end gives the empty array. *)
Definition slice {A} (a : list A) (i j : nat) : list A :=
  firstn (j - i) (skipn i a).

(** The [for] loop of [slicePayload], from index [i] with [reqData] pushed so
    far.  Each unit of fuel pays for one iteration; [None] is the loop that
    has not exited when the fuel is spent. *)
Fixpoint slice_loop {A} (fuel : nat) (payload : list A) (batchSize : nat)
    (eco : string) (i : nat) (reqData : list (Request A))
    : option (list (Request A)) :=
  if Nat.ltb i (length payload) then
    match fuel with
    | O => None
    | S fuel' =>
        slice_loop fuel' payload batchSize eco (i + batchSize)
          (reqData ++ [mkRequest eco (slice payload i (i + batchSize))])
    end
  else Some reqData.

(** A positive step reaches the end within [payload.length] iterations. *)
Definition slicePayload {A} (payload : list A) (batchSize : nat) (eco : string)
    : option (list (Request A)) :=
  slice_loop (length payload) payload batchSize eco 0%nat [].

(** The batch size fixed in [sendDiagnostics]. *)
Definition batchSize : nat := 10.

(** Sizes of the batches, in order. *)
Definition sizes {A} (reqData : list (Request A)) : list nat :=
  map (fun r => length (package_versions r)) reqData.

(** A batch is well formed for tag [eco] and bound [n]: it carries the tag
    and holds between 1 and [n] items. *)
Definition batch_ok {A} (eco : string) (n : nat) (r : Request A) : Prop :=
  ecosystem r = eco /\ (1 <= length (package_versions r) <= n)%nat.

(** ** Properties of [slicePayload] *)

Lemma slice_step {A} (payload : list A) (i n : nat) :
  slice payload i (i + n) ++ skipn (i + n) payload = skipn i payload.
Proof.
  unfold slice. replace (i + n - i)%nat with n by lia.
  rewrite Nat.add_comm, <- skipn_skipn. apply firstn_skipn.
Qed.

Lemma slice_length {A} (payload : list A) (i n : nat) :
  (i < length payload)%nat -> (0 < n)%nat ->
  (1 <= length (slice payload i (i + n)) <= n)%nat.
Proof.
  intros Hi Hn. unfold slice. replace (i + n - i)%nat with n by lia.
  rewrite length_firstn, length_skipn. lia.
Qed.

Lemma slice_loop_spec {A} (payload : list A) (n : nat) (eco : string) :
  (0 < n)%nat ->
  forall fuel i reqData,
    (length payload - i <= fuel)%nat ->
    exists out,
      slice_loop fuel payload n eco i reqData = Some (reqData ++ out)
      /\ concat (map package_versions out) = skipn i payload
      /\ Forall (batch_ok eco n) out.
Proof.
  intros Hn. induction fuel as [|fuel IH]; intros i reqData Hfuel; simpl.
  - destruct (Nat.ltb_spec i (length payload)) as [Hlt|Hge]; [lia|].
    exists []. rewrite app_nil_r, skipn_all2 by lia. auto.
  - destruct (Nat.ltb_spec i (length payload)) as [Hlt|Hge].
    + destruct (IH (i + n)%nat
                  (reqData ++ [mkRequest eco (slice payload i (i + n))]))
        as (out & Hrun & Hcat & Hok); [lia|].
      exists (mkRequest eco (slice payload i (i + n)) :: out).
      rewrite Hrun, <- app_assoc. simpl. rewrite Hcat, slice_step.
      repeat split; auto.
      constructor; [|exact Hok]. split; [reflexivity|].
      now apply slice_length.
    + exists []. rewrite app_nil_r, skipn_all2 by lia. auto.
Qed.

Lemma slicePayload_spec {A} (payload : list A) (n : nat) (eco : string) :
  (0 < n)%nat ->
  exists reqData,
    slicePayload payload n eco = Some reqData
    /\ concat (map package_versions reqData) = payload
    /\ Forall (batch_ok eco n) reqData.
Proof.
  intros Hn. unfold slicePayload.
  destruct (slice_loop_spec payload n eco Hn (length payload) 0%nat [])
    as (out & Hrun & Hcat & Hok); [lia|].
  exists out. auto.
Qed.

(** A zero step never leaves the loop on a non-empty payload. *)
Lemma slice_loop_zero_step {A} (payload : list A) (eco : string) :
  payload <> [] ->
  forall fuel reqData, slice_loop fuel payload 0 eco 0%nat reqData = None.
Proof.
  intros Hne. induction fuel as [|fuel IH]; intros reqData; simpl;
    destruct payload; try congruence; simpl; auto.
Qed.

(** C4. Slicing with batch size 10 always returns; the batches, concatenated
    in order, are the payload itself; each carries the ecosystem tag and
    holds at most 10 (and at least one) items; 23 items give batches of
    sizes 10, 10 and 3. *)
Theorem slicePayload_batches {A} (payload : list A) (eco : string) :
  exists reqData,
    slicePayload payload batchSize eco = Some reqData
    /\ concat (map package_versions reqData) = payload
    /\ Forall (batch_ok eco 10) reqData
    /\ (length payload = 23%nat -> sizes reqData = [10; 10; 3]%nat).
Proof.
  destruct (slicePayload_spec payload batchSize eco) as (reqData & Hrun & Hcat & Hok);
    [unfold batchSize; lia|].
  exists reqData. repeat split; auto.
  intros Hlen.
  do 24 (destruct payload as [|? payload]; try discriminate Hlen).
  vm_compute in Hrun. injection Hrun as <-. reflexivity.
Qed.

Example slicePayload_23 :
  option_map sizes (slicePayload (seq 1 23) batchSize "npm") = Some [10; 10; 3]%nat.
Proof. reflexivity. Qed.

(** ** More on [slicePayload]: the batches as windows *)

Lemma slice_loop_windows {A} (payload : list A) (n : nat) (eco : string) :
  (0 < n)%nat ->
  forall fuel k reqData,
    (length payload - k * n <= fuel)%nat ->
    exists out,
      slice_loop fuel payload n eco (k * n) reqData = Some (reqData ++ out)
      /\ length out = ((length payload - k * n + n - 1) / n)%nat
      /\ forall j r, out !! j = Some r ->
           package_versions r = firstn n (skipn ((k + j) * n) payload).
Proof.
  intros Hn. induction fuel as [|fuel IH]; intros k reqData Hfuel; simpl.
  - destruct (Nat.ltb_spec (k * n) (length payload)) as [Hlt|Hge]; [lia|].
    exists []. rewrite app_nil_r. split; [reflexivity|]. split.
    + simpl. replace (length payload - k * n + n - 1)%nat with (n - 1)%nat by lia.
      symmetry. apply Nat.div_small. lia.
    + intros j r Hj. discriminate Hj.
  - destruct (Nat.ltb_spec (k * n) (length payload)) as [Hlt|Hge].
    + replace (k * n + n)%nat with (S k * n)%nat by lia.
      destruct (IH (S k) (reqData ++ [mkRequest eco (slice payload (k * n) (S k * n))]))
        as (out & Hrun & Hlen & Hwin); [lia|].
      exists (mkRequest eco (slice payload (k * n) (S k * n)) :: out).
      rewrite Hrun, <- app_assoc. split; [reflexivity|]. split.
      * simpl. rewrite Hlen.
        destruct (Nat.le_gt_cases n (length payload - k * n)) as [Hbig|Hsmall].
        -- replace (length payload - k * n + n - 1)%nat
             with ((length payload - S k * n + n - 1) + 1 * n)%nat by lia.
           rewrite Nat.div_add by lia. lia.
        -- replace (length payload - S k * n + n - 1)%nat with (n - 1)%nat by lia.
           rewrite (Nat.div_small (n - 1) n) by lia.
           apply (Nat.div_unique _ n 1 (length payload - k * n - 1)); lia.
      * intros [|j] r Hj; simpl in Hj.
        -- injection Hj as <-. simpl. unfold slice.
           replace (n + k * n - k * n)%nat with n by lia.
           now replace ((k + 0) * n)%nat with (k * n)%nat by lia.
        -- rewrite (Hwin j r Hj). now replace (S k + j)%nat with (k + S j)%nat by lia.
    + exists []. rewrite app_nil_r. split; [reflexivity|]. split.
      * simpl. replace (length payload - k * n + n - 1)%nat with (n - 1)%nat by lia.
        symmetry. apply Nat.div_small. lia.
      * intros j r Hj. discriminate Hj.
Qed.

(** X1. For every positive batch size [n], [slicePayload] returns
    [ceil(length / n)] batches and batch number [j] is exactly the window
    of the payload from index [j * n] up to [j * n + n], cut at the end of
    the payload: every batch but the last is full. *)
Theorem slicePayload_windows {A} (payload : list A) (n : nat) (eco : string) :
  (0 < n)%nat ->
  exists reqData,
    slicePayload payload n eco = Some reqData
    /\ length reqData = ((length payload + n - 1) / n)%nat
    /\ (forall j r, reqData !! j = Some r ->
          ecosystem r = eco
          /\ package_versions r = firstn n (skipn (j * n) payload))
    /\ (forall j r, reqData !! j = Some r -> (S j < length reqData)%nat ->
          length (package_versions r) = n).
Proof.
  intros Hn.
  destruct (slice_loop_windows payload n eco Hn (length payload) 0%nat [])
    as (out & Hrun & Hlen & Hwin); [simpl; lia|].
  destruct (slicePayload_spec payload n eco Hn) as (reqData & Hrun' & _ & Hok).
  unfold slicePayload in *. simpl in Hrun. rewrite Hrun in Hrun'.
  injection Hrun' as <-.
  exists out. split; [exact Hrun|].
  assert (Hcount : length out = ((length payload + n - 1) / n)%nat).
  { rewrite Hlen. simpl. now rewrite Nat.sub_0_r. }
  split; [exact Hcount|]. split.
  - intros j r Hj. split; [|exact (Hwin j r Hj)].
    rewrite List.Forall_forall in Hok.
    apply (Hok r). apply list_elem_of_In. now apply list_elem_of_lookup_2 in Hj.
  - intros j r Hj Hlast. rewrite (Hwin j r Hj). simpl.
    rewrite length_firstn, length_skipn.
    assert (S j * n <= length payload)%nat; [|lia].
    rewrite Hcount in Hlast.
    assert (H2 : (S j <= (length payload + n - 1) / n - 1)%nat) by lia.
    pose proof (Nat.Div0.mul_div_le (length payload + n - 1) n) as Hd.
    assert (((length payload + n - 1) / n - 1) * n <= length payload)%nat by nia.
    nia.
Qed.

Lemma slicePayload_windows_witness :
  option_map sizes (slicePayload (seq 0 7) 3 "maven") = Some [3; 3; 1]%nat.
Proof.
  destruct (slicePayload_windows (seq 0 7) 3 "maven") as (reqData & Hrun & _);
    [lia|].
  rewrite Hrun. vm_compute in Hrun. injection Hrun as <-. reflexivity.
Defined.

(** X2. With batch size 0 the loop of [slicePayload] never leaves a
    non-empty payload: whatever the number of iterations allowed, it has not
    returned; an empty payload gives no batch for any batch size. *)
Theorem slicePayload_zero_step {A} (payload : list A) (eco : string) :
  payload <> [] ->
  (forall fuel reqData, slice_loop fuel payload 0 eco 0%nat reqData = None)
  /\ forall n, slicePayload (@nil A) n eco = Some [].
Proof.
  intros Hne. split; [|reflexivity].
  now apply slice_loop_zero_step.
Qed.

Lemma slicePayload_zero_step_witness :
  slice_loop 1000 ["a"; "b"]%string 0 "npm" 0%nat [] = None.
Proof.
  refine (proj1 (slicePayload_zero_step ["a"; "b"]%string "npm" _) 1000%nat []).
  discriminate.
Defined.

End Slice.

(** ** The code-action handler, [connection.onCodeAction] *)

Module CodeActions.

Record Position := mkPosition { line : nat; character : nat }.

Record Range := mkRange { start : Position; end_ : Position }.

(** The fields of an LSP diagnostic the handler reads; [source] is optional. *)
Record Diagnostic := mkDiagnostic {
  range : Range;
  source : option string;
  message : string
}.

Record Command := mkCommand { command_id : string; command_title : string }.

Record CodeAction := mkCodeAction {
  title : string;
  kind : string;
  command : option Command
}.

(** [CodeActionKind.QuickFix]. *)
Definition QuickFix : string := "quickfix".

Definition fullStackReportAction : CodeAction :=
  {| title := "Detailed Vulnerability Report";
     kind := QuickFix;
     command := Some {| command_id := "extension.fabric8AnalyticsWidgetFullStack";
                        command_title := "Analytics Report" |} |}.

(** [diagnostic.range.start.line + "|" + diagnostic.range.start.character]. *)
Definition action_key (d : Diagnostic) : string :=
  Js.num (Z.of_nat (line (start (range d)))) +:+ "|" +:+
  Js.num (Z.of_nat (character (start (range d)))).

Section Handler.

(** The index filled by the pipeline ([codeActionsMap] of [./consumers]), the
    constant [AnalyticsSource] of [./vulnerability] and the truthiness of
    [config.provide_fullstack_action]. *)
Variable codeActionsMap : gmap string CodeAction.
Variable AnalyticsSource : string.
Variable provide_fullstack_action : bool.

(** [diagnostic.source === AnalyticsSource]. *)
Definition is_analytics (d : Diagnostic) : bool :=
  match source d with
  | Some s => String.eqb s AnalyticsSource
  | None => false
  end.

(** One turn of the [for] loop over [params.context.diagnostics], on the pair
    [(codeActions, hasAnalyticsDiagonostic)]. *)
Definition loop_body (st : list CodeAction * bool) (diagnostic : Diagnostic)
    : list CodeAction * bool :=
  let '(codeActions, hasAnalyticsDiagonostic) := st in
  let codeActions :=
    match codeActionsMap !! action_key diagnostic with
    | Some codeAction => codeActions ++ [codeAction]
    | None => codeActions
    end in
  let hasAnalyticsDiagonostic :=
    if negb hasAnalyticsDiagonostic then is_analytics diagnostic
    else hasAnalyticsDiagonostic in
  (codeActions, hasAnalyticsDiagonostic).

Definition onCodeAction (diagnostics : list Diagnostic) : list CodeAction :=
  let '(codeActions, hasAnalyticsDiagonostic) :=
    fold_left loop_body diagnostics ([], false) in
  if provide_fullstack_action && hasAnalyticsDiagonostic
  then codeActions ++ [fullStackReportAction]
  else codeActions.

(** The indexed quick fixes of a diagnostics list, in its order. *)
Definition indexed_actions (diagnostics : list Diagnostic) : list CodeAction :=
  omap (fun d => codeActionsMap !! action_key d) diagnostics.

Lemma loop_body_fold (diagnostics : list Diagnostic) :
  forall acc has,
    fold_left loop_body diagnostics (acc, has) =
    (acc ++ indexed_actions diagnostics, has || existsb is_analytics diagnostics).
Proof.
  induction diagnostics as [|d ds IH]; intros acc has; simpl.
  - now rewrite app_nil_r, orb_false_r.
  - rewrite IH. unfold indexed_actions. simpl.
    destruct (codeActionsMap !! action_key d), has; simpl;
      rewrite <- ?app_assoc; reflexivity.
Qed.

(** C10. The handler returns, in the order of the request's diagnostics,
    the quick fix the index holds under the key made of the diagnostic's
    start line, a bar and its start character, both in decimal (a diagnostic
    whose key has no entry gives nothing), followed by the full-stack report
    action exactly when the option is enabled and the [source] of some
    diagnostic of the request is the analytics source. *)
Theorem onCodeAction_result (diagnostics : list Diagnostic) :
  let key (d : Diagnostic) : string :=
    Js.num (Z.of_nat (line (start (range d)))) +:+ "|" +:+
    Js.num (Z.of_nat (character (start (range d)))) in
  let analytics (d : Diagnostic) : bool :=
    match source d with
    | Some s => String.eqb s AnalyticsSource
    | None => false
    end in
  onCodeAction diagnostics =
  omap (fun d => codeActionsMap !! key d) diagnostics ++
  (if provide_fullstack_action && existsb analytics diagnostics
   then [fullStackReportAction] else []).
Proof.
  intros key analytics. unfold onCodeAction. rewrite loop_body_fold.
  change (omap (fun d => codeActionsMap !! key d) diagnostics)
    with (indexed_actions diagnostics).
  change (existsb analytics diagnostics) with (existsb is_analytics diagnostics).
  simpl.
  destruct (provide_fullstack_action && existsb is_analytics diagnostics);
    [reflexivity | now rewrite app_nil_r].
Qed.

End Handler.

Example onCodeAction_two_hits :
  let fix1 := mkCodeAction "Switch to 4.17.21" QuickFix None in
  let d l c s := mkDiagnostic (mkRange (mkPosition l c) (mkPosition l (c + 5)%nat)) s "m" in
  onCodeAction (<["3|12" := fix1]> ∅) "analytics" true
    [d 7%nat 2%nat None; d 3%nat 12%nat (Some "analytics")]
  = [fix1; fullStackReportAction].
Proof. vm_compute. reflexivity. Qed.

(** ** More on the code-action index *)

Definition is_bar (c : ascii) : bool := Ascii.eqb c "|".

Lemma uint_no_bar (u : Decimal.uint) :
  Js.all_chars (fun c => negb (is_bar c)) (NilEmpty.string_of_uint u) = true.
Proof. induction u; simpl; auto. Qed.

Lemma num_nat_no_bar (n : nat) :
  Js.all_chars (fun c => negb (is_bar c)) (Js.num (Z.of_nat n)) = true.
Proof.
  unfold Js.num. destruct (Z.of_nat n) as [|p|p] eqn:E; [reflexivity| |lia].
  simpl. unfold NilZero.string_of_uint.
  pose proof (uint_no_bar (Pos.to_uint p)) as H.
  destruct (Pos.to_uint p); try exact H; reflexivity.
Qed.

Lemma num_inj (z1 z2 : Z) : Js.num z1 = Js.num z2 -> z1 = z2.
Proof.
  unfold Js.num. intros H. apply DecimalZ.to_int_inj.
  assert (Hnn : forall z, Z.to_int z <> Decimal.Pos Decimal.Nil
                          /\ Z.to_int z <> Decimal.Neg Decimal.Nil).
  { intros [|p|p]; simpl; split; try discriminate;
      intros [= E]; now apply DecimalPos.Unsigned.to_uint_nonnil in E. }
  destruct (Hnn z1) as [A1 B1]. destruct (Hnn z2) as [A2 B2].
  pose proof (NilZero.isi _ A1 B1) as E1. pose proof (NilZero.isi _ A2 B2) as E2.
  rewrite H in E1. rewrite E1 in E2. now injection E2.
Qed.

Lemma split_at_bar (a a' b b' : string) :
  Js.all_chars (fun c => negb (is_bar c)) a = true ->
  Js.all_chars (fun c => negb (is_bar c)) a' = true ->
  a +:+ "|" +:+ b = a' +:+ "|" +:+ b' -> a = a' /\ b = b'.
Proof.
  revert a'. induction a as [|c a IH]; intros [|c' a'] Ha Ha' E.
  - now injection E.
  - rewrite Js.append_cons in E. injection E as <- _. simpl in Ha'. discriminate.
  - rewrite Js.append_cons in E. injection E as -> _. simpl in Ha. discriminate.
  - rewrite !Js.append_cons in E. injection E as <- E.
    simpl in Ha, Ha'. apply andb_true_iff in Ha as [_ Ha].
    apply andb_true_iff in Ha' as [_ Ha'].
    destruct (IH a' Ha Ha' E) as [-> ->]. auto.
Qed.

(** X10. The index key of a diagnostic names its start position and nothing
    else: two diagnostics have the same key exactly when they start at the
    same line and character, so quick fixes of different positions never
    share an entry. *)
Theorem action_key_position (d1 d2 : Diagnostic) :
  action_key d1 = action_key d2 <-> start (range d1) = start (range d2).
Proof.
  unfold action_key. split.
  - intros E. apply split_at_bar in E as [E1 E2]; try apply num_nat_no_bar.
    apply num_inj, Nat2Z.inj in E1. apply num_inj, Nat2Z.inj in E2.
    destruct (start (range d1)), (start (range d2)). simpl in *. congruence.
  - now intros ->.
Qed.

(** X11. The handler returns nothing of its own making: every action of the
    result is the full-stack report action or the index entry of one of the
    request's diagnostics, there is at most one action per diagnostic and
    one more, and with the option off or without a diagnostic of the
    analytics source the result holds index entries only. *)
Theorem onCodeAction_bounds (codeActionsMap : gmap string CodeAction)
    (AnalyticsSource : string) (provide_fullstack_action : bool)
    (diagnostics : list Diagnostic) :
  let result :=
    onCodeAction codeActionsMap AnalyticsSource provide_fullstack_action diagnostics in
  (forall a, In a result ->
     a = fullStackReportAction
     \/ exists d, In d diagnostics /\ codeActionsMap !! action_key d = Some a)
  /\ (length result <= length diagnostics + 1)%nat
  /\ (provide_fullstack_action
      && existsb (is_analytics AnalyticsSource) diagnostics = false ->
      result = indexed_actions codeActionsMap diagnostics).
Proof.
  intros result.
  assert (Hres : result =
            indexed_actions codeActionsMap diagnostics ++
            (if provide_fullstack_action
                && existsb (is_analytics AnalyticsSource) diagnostics
             then [fullStackReportAction] else [])).
  { unfold result, onCodeAction. rewrite loop_body_fold. simpl.
    destruct (provide_fullstack_action && existsb _ diagnostics);
      [reflexivity | now rewrite app_nil_r]. }
  assert (Hidx : forall a, In a (indexed_actions codeActionsMap diagnostics) ->
            exists d, In d diagnostics /\ codeActionsMap !! action_key d = Some a).
  { unfold indexed_actions. clear. induction diagnostics as [|d ds IH]; simpl; [tauto|].
    intros a. destruct (codeActionsMap !! action_key d) as [a'|] eqn:E; simpl.
    - intros [<-|H]; [eauto|]. destruct (IH a H) as (d' & Hd & Ha). eauto.
    - intros H. destruct (IH a H) as (d' & Hd & Ha). eauto. }
  assert (Hlen : (length (indexed_actions codeActionsMap diagnostics)
                  <= length diagnostics)%nat).
  { unfold indexed_actions. clear. induction diagnostics as [|d ds IH]; [simpl; lia|].
    cbn [omap list_omap]. destruct (codeActionsMap !! action_key d); simpl in *; lia. }
  rewrite Hres. split; [|split].
  - intros a Ha. apply in_app_iff in Ha as [Ha|Ha]; [right; now apply Hidx|].
    destruct (provide_fullstack_action && _); [|destruct Ha].
    destruct Ha as [<-|[]]. now left.
  - rewrite length_app. destruct (provide_fullstack_action && _); simpl; lia.
  - intros ->. now rewrite app_nil_r.
Qed.

End CodeActions.

(** ** The version filter: [regexVersion] and the valid packages *)

Module Versions.

Import Js.

(** *** A regular-expression matcher

    [RegExp.prototype.test] on a pattern anchored by [^] and [$], without
    flags, succeeds exactly when the whole string belongs to the language of
    the pattern between the anchors.  Capturing groups do not change that
    language.  The matcher below decides membership by derivatives. *)

(** Patterns: no string, the empty string, one character of a class,
    concatenation, alternation and repetition. *)
Inductive Regex :=
| Empty
| Eps
| Class (p : ascii -> bool)
| Seq (r1 r2 : Regex)
| Alt (r1 r2 : Regex)
| Star (r : Regex).

(** [r?], [r+] and a literal character. *)
Definition Opt (r : Regex) : Regex := Alt r Eps.

Definition Plus (r : Regex) : Regex := Seq r (Star r).

Definition Chr (c : ascii) : Regex := Class (Ascii.eqb c).

(** Does the pattern match the empty string? *)

Fixpoint nullable (r : Regex) : bool :=
  match r with
  | Empty => false
  | Eps => true
  | Class _ => false
  | Seq r1 r2 => nullable r1 && nullable r2
  | Alt r1 r2 => nullable r1 || nullable r2
  | Star _ => true
  end.

(** The pattern of what may follow a first character [c]. *)
Fixpoint deriv (c : ascii) (r : Regex) : Regex :=
  match r with
  | Empty => Empty
  | Eps => Empty
  | Class p => if p c then Eps else Empty
  | Seq r1 r2 =>
      if nullable r1 then Alt (Seq (deriv c r1) r2) (deriv c r2)
      else Seq (deriv c r1) r2
  | Alt r1 r2 => Alt (deriv c r1) (deriv c r2)
  | Star r1 => Seq (deriv c r1) (Star r1)
  end.

(** The whole of [s] matches [r]. *)
Fixpoint matches (r : Regex) (s : string) : bool :=
  match s with
  | EmptyString => nullable r
  | String c s' => matches (deriv c r) s'
  end.

(** The language of a pattern. *)
Inductive Lang : Regex -> string -> Prop :=
| LEps : Lang Eps ""
| LClass p c : p c = true -> Lang (Class p) (String c "")
| LSeq r1 r2 s1 s2 : Lang r1 s1 -> Lang r2 s2 -> Lang (Seq r1 r2) (s1 +:+ s2)
| LAltL r1 r2 s : Lang r1 s -> Lang (Alt r1 r2) s
| LAltR r1 r2 s : Lang r2 s -> Lang (Alt r1 r2) s
| LStarNil r : Lang (Star r) ""
| LStarApp r s1 s2 : Lang r s1 -> Lang (Star r) s2 -> Lang (Star r) (s1 +:+ s2).

(** [lo <= c <= hi] on character codes. *)
Definition in_range (lo hi c : ascii) : bool :=
  (nat_of_ascii lo <=? nat_of_ascii c)%nat && (nat_of_ascii c <=? nat_of_ascii hi)%nat.

(** The class [[a-zA-Z0-9]]. *)
Definition alnum (c : ascii) : bool :=
  in_range "a" "z" c || in_range "A" "Z" c || in_range "0" "9" c.

(** The group [([a-zA-Z0-9]+\.)]. *)
Definition segment_dot : Regex := Seq (Plus (Class alnum)) (Chr ".").

(** [/^([a-zA-Z0-9]+\.)?([a-zA-Z0-9]+\.)?([a-zA-Z0-9]+\.)?([a-zA-Z0-9]+)$/];
    the anchors make [test] a match of the whole string. *)
Definition regexVersion : Regex :=
  Seq (Opt segment_dot) (Seq (Opt segment_dot) (Seq (Opt segment_dot)
    (Plus (Class alnum)))).

(** [regexVersion.test(s)]. *)
Definition regexVersion_test (s : string) : bool := matches regexVersion s.

(** [s.split(".")]. *)
Fixpoint split_dots (s : string) : list string :=
  match s with
  | EmptyString => [EmptyString]
  | String c s' =>
      if Ascii.eqb c "." then EmptyString :: split_dots s'
      else match split_dots s' with
           | seg :: segs => String c seg :: segs
           | [] => [String c EmptyString]
           end
  end.

(** A segment: one or more characters, all alphanumeric. *)
Definition alnum_segment (seg : string) : bool := truthy seg && all_chars alnum seg.

(** The structural pattern in the specification's words: up to four
    dot-separated alphanumeric segments. *)
Definition well_formed_version (s : string) : bool :=
  let segs := split_dots s in
  (length segs <=? 4)%nat && forallb alnum_segment segs.

(** At most [n] segments, each non-empty and alphanumeric. *)
Definition segments_ok (n : nat) (s : string) : bool :=
  (length (split_dots s) <=? n)%nat && forallb alnum_segment (split_dots s).

(** [k] optional [segment.] groups before the last segment. *)
Fixpoint optional_segments (k : nat) : Regex :=
  match k with
  | O => Plus (Class alnum)
  | S k' => Seq (Opt segment_dot) (optional_segments k')
  end.

(** [String.prototype.trim]: white space and line terminators among the code
    units below 256 (TAB, LF, VT, FF, CR, SP and NBSP). *)
Definition is_white_space (c : ascii) : bool :=
  match nat_of_ascii c with
  | 9%nat | 10%nat | 11%nat | 12%nat | 13%nat | 32%nat | 160%nat => true
  | _ => false
  end.

Fixpoint trimStart (s : string) : string :=
  match s with
  | EmptyString => EmptyString
  | String c s' => if is_white_space c then trimStart s' else s
  end.

Definition trimEnd (s : string) : string := String.rev (trimStart (String.rev s)).

Definition trim (s : string) : string := trimEnd (trimStart s).

(** One entry of a collected dependency: the text and where it stands. *)
Record Entry := mkEntry {
  value : string;
  position_line : nat;
  position_column : nat
}.

(** What a collector yields per declaration: [{name, version}]. *)
Record Dependency := mkDependency {
  name : Entry;
  version : Entry
}.

(** [d => regexVersion.test(d.version.value.trim())]. *)
Definition version_matches (d : Dependency) : bool :=
  regexVersion_test (trim (value (version d))).

(** [validPackages] of [sendDiagnostics]: filtered unless the ecosystem is
    golang. *)
Definition validPackages (ecosystem : string) (deps : list Dependency)
    : list Dependency :=
  if negb (String.eqb ecosystem "golang")
  then List.filter version_matches deps
  else deps.

(** *** Correctness of the matcher *)

Lemma append_nil_inv (a b : string) : a +:+ b = "" -> a = "" /\ b = "".
Proof. destruct a; [simpl; auto | discriminate]. Qed.

Lemma append_cons_inv (a b : string) (c : ascii) (s : string) :
  a +:+ b = String c s ->
  (a = "" /\ b = String c s) \/ (exists a', a = String c a' /\ s = a' +:+ b).
Proof.
  destruct a as [|x a]; [auto|].
  rewrite append_cons. intros E. injection E as -> <-. eauto.
Qed.

Lemma Lang_empty_inv s : Lang Empty s -> False.
Proof. inversion 1. Qed.

Lemma Lang_eps_inv s : Lang Eps s -> s = "".
Proof. now inversion 1. Qed.

Lemma Lang_class_inv p s : Lang (Class p) s -> exists c, s = String c "" /\ p c = true.
Proof. inversion 1; subst; eauto. Qed.

Lemma Lang_seq_inv r1 r2 s :
  Lang (Seq r1 r2) s -> exists s1 s2, s = s1 +:+ s2 /\ Lang r1 s1 /\ Lang r2 s2.
Proof. inversion 1; subst; eauto. Qed.

Lemma Lang_alt_inv r1 r2 s : Lang (Alt r1 r2) s -> Lang r1 s \/ Lang r2 s.
Proof. inversion 1; subst; auto. Qed.

Lemma Lang_seq_nil r1 r2 : Lang r1 "" -> Lang r2 "" -> Lang (Seq r1 r2) "".
Proof. intros H1 H2. change ""%string with ("" +:+ "")%string. now constructor. Qed.

Lemma Lang_seq_cons r1 r2 c s1 s2 :
  Lang r1 (String c s1) -> Lang r2 s2 -> Lang (Seq r1 r2) (String c (s1 +:+ s2)).
Proof. intros H1 H2. rewrite <- append_cons. now constructor. Qed.

Lemma Lang_seq_skip r1 r2 s : Lang r1 "" -> Lang r2 s -> Lang (Seq r1 r2) s.
Proof. intros H1 H2. change s with ("" +:+ s)%string. now constructor. Qed.

Lemma nullable_Lang r : nullable r = true <-> Lang r "".
Proof.
  induction r as [| |p|r1 IH1 r2 IH2|r1 IH1 r2 IH2|r IH]; simpl.
  - split; [discriminate | intros H; destruct (Lang_empty_inv _ H)].
  - split; [constructor | reflexivity].
  - split; [discriminate|]. intros H.
    apply Lang_class_inv in H as (c & E & _). discriminate.
  - rewrite andb_true_iff, IH1, IH2. split.
    + intros [H1 H2]. now apply Lang_seq_nil.
    + intros H. apply Lang_seq_inv in H as (s1 & s2 & E & H1 & H2).
      symmetry in E. apply append_nil_inv in E as [-> ->]. auto.
  - rewrite orb_true_iff, IH1, IH2. split.
    + intros [H|H]; [now apply LAltL | now apply LAltR].
    + apply Lang_alt_inv.
  - split; [constructor | reflexivity].
Qed.

Lemma Lang_star_cons r c s :
  Lang (Star r) (String c s) ->
  exists s1 s2, s = (s1 +:+ s2)%string /\ Lang r (String c s1) /\ Lang (Star r) s2.
Proof.
  intros H. remember (Star r) as r' eqn:Er. remember (String c s) as t eqn:Et.
  induction H as [| | | | | |r0 s1 s2 H1 _ H2 IH2]; try discriminate.
  injection Er as ->.
  apply append_cons_inv in Et as [[-> ->]|(a' & -> & ->)].
  - now apply IH2.
  - eauto.
Qed.

Lemma deriv_Lang r : forall c s, Lang (deriv c r) s <-> Lang r (String c s).
Proof.
  induction r as [| |p|r1 IH1 r2 IH2|r1 IH1 r2 IH2|r IH]; intros c s; simpl.
  - split; intros H; destruct (Lang_empty_inv _ H).
  - split; intros H; [destruct (Lang_empty_inv _ H)|].
    apply Lang_eps_inv in H. discriminate.
  - destruct (p c) eqn:Hp; split; intros H.
    + apply Lang_eps_inv in H as ->. now constructor.
    + apply Lang_class_inv in H as (c' & E & _). injection E as <- ->. constructor.
    + destruct (Lang_empty_inv _ H).
    + apply Lang_class_inv in H as (c' & E & Hc). injection E as <- ->. congruence.
  - assert (Hseq : Lang (Seq (deriv c r1) r2) s ->  Lang (Seq r1 r2) (String c s)).
    { intros H. apply Lang_seq_inv in H as (s1 & s2 & -> & H1 & H2).
      apply Lang_seq_cons; [now apply IH1 | assumption]. }
    assert (Hinv : Lang (Seq r1 r2) (String c s) ->
              Lang (Seq (deriv c r1) r2) s \/ (Lang r1 "" /\ Lang r2 (String c s))).
    { intros H. apply Lang_seq_inv in H as (s1 & s2 & E & H1 & H2).
      symmetry in E. apply append_cons_inv in E as [[-> ->]|(a' & -> & ->)];
        [right; auto | left]. constructor; [now apply IH1 | assumption]. }
    destruct (nullable r1) eqn:Hn; split; intros H.
    + apply Lang_alt_inv in H as [H|H]; [now apply Hseq|].
      apply Lang_seq_skip; [now apply nullable_Lang | now apply IH2].
    + destruct (Hinv H) as [H'|[_ H']]; [now apply LAltL | apply LAltR; now apply IH2].
    + now apply Hseq.
    + destruct (Hinv H) as [H'|[H' _]]; [assumption|].
      apply nullable_Lang in H'. congruence.
  - split; intros H.
    + apply Lang_alt_inv in H as [H|H]; [apply LAltL; now apply IH1 | apply LAltR; now apply IH2].
    + apply Lang_alt_inv in H as [H|H]; [apply LAltL; now apply IH1 | apply LAltR; now apply IH2].
  - split; intros H.
    + apply Lang_seq_inv in H as (s1 & s2 & -> & H1 & H2).
      rewrite <- append_cons. constructor; [now apply IH | assumption].
    + apply Lang_star_cons in H as (s1 & s2 & -> & H1 & H2).
      constructor; [now apply IH | assumption].
Qed.

Lemma matches_Lang r s : matches r s = true <-> Lang r s.
Proof.
  revert r. induction s as [|c s IH]; intros r; simpl.
  - apply nullable_Lang.
  - rewrite IH. apply deriv_Lang.
Qed.

Lemma Lang_star_class p s : Lang (Star (Class p)) s <-> all_chars p s = true.
Proof.
  induction s as [|c s IH]; simpl.
  - split; [reflexivity | constructor].
  - rewrite andb_true_iff, <- IH. split.
    + intros H. apply Lang_star_cons in H as (s1 & s2 & -> & H1 & H2).
      apply Lang_class_inv in H1 as (c' & E & Hc). injection E as E1 E2. subst. auto.
    + intros [Hc H]. change (String c s) with (String c "" +:+ s).
      constructor; [now constructor | assumption].
Qed.

Lemma Lang_plus_class p s : Lang (Plus (Class p)) s <-> truthy s && all_chars p s = true.
Proof.
  unfold Plus. split.
  - intros H. apply Lang_seq_inv in H as (s1 & s2 & -> & H1 & H2).
    apply Lang_class_inv in H1 as (c & -> & Hc). apply Lang_star_class in H2.
    change (String c "" +:+ s2) with (String c s2). simpl. now rewrite Hc, H2.
  - destruct s as [|c s]; [discriminate|]. simpl. intros H.
    apply andb_true_iff in H as [Hc H].
    change (String c s) with (String c "" +:+ s).
    constructor; [now constructor | now apply Lang_star_class].
Qed.

Lemma Lang_segment_dot s :
  Lang segment_dot s <-> exists seg, alnum_segment seg = true /\ s = seg +:+ ".".
Proof.
  unfold segment_dot, Chr. split.
  - intros H. apply Lang_seq_inv in H as (s1 & s2 & -> & H1 & H2).
    apply Lang_plus_class in H1. apply Lang_class_inv in H2 as (c & -> & Hc).
    apply Ascii.eqb_eq in Hc as <-. eauto.
  - intros (seg & Hseg & ->). constructor; [now apply Lang_plus_class|].
    constructor. apply Ascii.eqb_refl.
Qed.

Lemma split_dots_cons s : exists seg segs, split_dots s = seg :: segs.
Proof.
  induction s as [|c s (seg & segs & E)]; simpl; [eauto|].
  destruct (Ascii.eqb c "."); [eauto|]. rewrite E. eauto.
Qed.

Lemma alnum_not_dot c : alnum c = true -> Ascii.eqb c "." = false.
Proof.
  intros H. destruct (Ascii.eqb_spec c ".") as [->|]; [discriminate H | reflexivity].
Qed.

Lemma split_dots_segment seg rest :
  all_chars alnum seg = true ->
  split_dots (seg +:+ String "." rest) = seg :: split_dots rest.
Proof.
  induction seg as [|c seg IH]; intros H; [reflexivity|].
  simpl in H. apply andb_true_iff in H as [Hc H].
  rewrite append_cons. simpl. now rewrite (alnum_not_dot _ Hc), (IH H).
Qed.

Lemma split_dots_last seg :
  all_chars alnum seg = true -> split_dots seg = [seg].
Proof.
  induction seg as [|c seg IH]; intros H; [reflexivity|].
  simpl in H. apply andb_true_iff in H as [Hc H].
  simpl. now rewrite (alnum_not_dot _ Hc), (IH H).
Qed.

Lemma join_split_dots s : String.concat "." (split_dots s) = s.
Proof.
  induction s as [|c s IH]; [reflexivity|]. simpl.
  destruct (Ascii.eqb_spec c ".") as [->|Hne].
  - destruct (split_dots_cons s) as (seg & segs & E). rewrite E in *.
    change (String.concat "." ("" :: seg :: segs))
      with ("" +:+ "." +:+ String.concat "." (seg :: segs)).
    now rewrite IH.
  - destruct (split_dots_cons s) as (seg & segs & E). rewrite E in *.
    destruct segs as [|seg2 segs]; simpl in *; [now subst|].
    rewrite append_cons, IH. reflexivity.
Qed.

Lemma alnum_segment_chars seg : alnum_segment seg = true -> all_chars alnum seg = true.
Proof. unfold alnum_segment. now intros [_ H]%andb_true_iff. Qed.

Lemma segments_ok_one s : segments_ok 1 s = alnum_segment s.
Proof.
  unfold segments_ok. destruct (alnum_segment s) eqn:Hs.
  - now rewrite (split_dots_last s (alnum_segment_chars _ Hs)); simpl; rewrite Hs.
  - destruct (split_dots s) as [|seg [|seg2 segs]] eqn:E; try reflexivity.
    + destruct (split_dots_cons s) as (? & ? & E'). congruence.
    + pose proof (join_split_dots s) as J. rewrite E in J. simpl in J. subst seg.
      simpl. now rewrite Hs.
Qed.

Lemma segments_ok_mono n s : segments_ok n s = true -> segments_ok (S n) s = true.
Proof.
  unfold segments_ok. intros [Hl Hf]%andb_true_iff. rewrite Hf, andb_true_r.
  apply Nat.leb_le in Hl. apply Nat.leb_le. lia.
Qed.

Lemma segments_ok_step n seg rest :
  alnum_segment seg = true ->
  segments_ok (S n) ((seg +:+ ".") +:+ rest) = segments_ok n rest.
Proof.
  intros Hseg. unfold segments_ok. rewrite append_assoc.
  change ("." +:+ rest) with (String "." rest).
  rewrite (split_dots_segment seg rest (alnum_segment_chars _ Hseg)).
  simpl. now rewrite Hseg.
Qed.

Lemma split_dots_two s seg seg2 segs :
  split_dots s = seg :: seg2 :: segs ->
  exists rest, s = (seg +:+ ".") +:+ rest /\ split_dots rest = seg2 :: segs.
Proof.
  revert seg. induction s as [|c s IH]; intros seg E; simpl in E; [discriminate|].
  destruct (Ascii.eqb_spec c ".") as [->|Hne].
  - injection E as <- E. exists s. auto.
  - destruct (split_dots s) as [|sg sgs] eqn:Es; [discriminate|].
    injection E as <- ->. destruct (IH sg eq_refl) as (rest & -> & Hrest).
    exists rest. auto.
Qed.

Lemma Lang_optional_segments k s :
  Lang (optional_segments k) s <-> segments_ok (S k) s = true.
Proof.
  revert s. induction k as [|k IH]; intros s; simpl optional_segments.
  - now rewrite Lang_plus_class, segments_ok_one.
  - split.
    + intros H. apply Lang_seq_inv in H as (o & rest & -> & Ho & Hrest).
      apply IH in Hrest. apply Lang_alt_inv in Ho as [Ho|Ho].
      * apply Lang_segment_dot in Ho as (seg & Hseg & ->).
        now rewrite (segments_ok_step _ _ _ Hseg).
      * apply Lang_eps_inv in Ho. subst o. now apply segments_ok_mono.
    + intros H. destruct (split_dots s) as [|seg [|seg2 segs]] eqn:E.
      * destruct (split_dots_cons s) as (? & ? & E'). congruence.
      * apply Lang_seq_skip; [apply LAltR; constructor|]. apply IH.
        unfold segments_ok in H |- *. rewrite E in H |- *.
        apply andb_true_iff in H as [_ Hf]. now rewrite Hf.
      * destruct (split_dots_two _ _ _ _ E) as (rest & -> & Hrest).
        assert (Hseg : alnum_segment seg = true).
        { unfold segments_ok in H. rewrite E in H.
          apply andb_true_iff in H as [_ Hf]. simpl in Hf.
          now apply andb_true_iff in Hf as [-> _]. }
        rewrite (segments_ok_step _ _ _ Hseg) in H.
        constructor; [apply LAltL; apply Lang_segment_dot; eauto | now apply IH].
Qed.

Lemma regexVersion_test_spec s : regexVersion_test s = well_formed_version s.
Proof.
  apply eq_true_iff_eq. unfold regexVersion_test. rewrite matches_Lang.
  exact (Lang_optional_segments 3 s).
Qed.

(** *** The filter *)

Lemma validPackages_other (ecosystem : string) (deps : list Dependency) :
  ecosystem <> "golang"%string ->
  validPackages ecosystem deps =
  List.filter (fun d => well_formed_version (trim (value (version d)))) deps.
Proof.
  intros Hne. unfold validPackages.
  destruct (String.eqb_spec ecosystem "golang") as [E|_]; [contradiction|].
  simpl. apply filter_ext. intros d. apply regexVersion_test_spec.
Qed.

Lemma validPackages_golang (deps : list Dependency) :
  validPackages "golang" deps = deps.
Proof. reflexivity. Qed.

Lemma validPackages_incl (ecosystem : string) (deps : list Dependency) :
  incl (validPackages ecosystem deps) deps.
Proof.
  unfold validPackages. destruct (negb _); [|apply incl_refl].
  intros d Hd. now apply filter_In in Hd.
Qed.

Example regexVersion_samples :
  map (fun v => regexVersion_test (trim v))
    ["1.2.3"; " 4.17.21 "; "1.0.0.1"; "1.2.3.4.5"; "^1.2.3"; "1.0.0-beta"; "";
     "latest"; "1..2"; "2.0.x"]%string
  = [true; true; true; false; false; false; false; true; false; true].
Proof. reflexivity. Qed.

(** *** What the filter never lets through *)

Definition version_char (c : ascii) : bool := alnum c || Ascii.eqb c ".".

Fixpoint count_dots (s : string) : nat :=
  match s with
  | EmptyString => 0
  | String c s' => (if Ascii.eqb c "." then 1 else 0) + count_dots s'
  end.

Lemma split_dots_length s : length (split_dots s) = S (count_dots s).
Proof.
  induction s as [|c s IH]; simpl; [reflexivity|].
  destruct (Ascii.eqb c "."); simpl; [now rewrite IH|].
  destruct (split_dots s); simpl in *; lia.
Qed.

Lemma split_dots_chars s :
  forallb (all_chars alnum) (split_dots s) = true ->
  all_chars version_char s = true.
Proof.
  induction s as [|c s IH]; simpl; [reflexivity|].
  unfold version_char at 1.
  destruct (Ascii.eqb c ".") eqn:Ec.
  - simpl. rewrite orb_true_r. exact IH.
  - destruct (split_dots s) as [|seg segs]; simpl in *.
    + intros H. apply andb_true_iff in H as [H _]. apply andb_true_iff in H as [-> _].
      simpl. now apply IH.
    + intros H. apply andb_true_iff in H as [H1 H2].
      apply andb_true_iff in H1 as [-> H1]. simpl. apply IH. now rewrite H1, H2.
Qed.

Lemma alnum_segments_chars (segs : list string) :
  forallb alnum_segment segs = true -> forallb (all_chars alnum) segs = true.
Proof.
  induction segs as [|seg segs IH]; simpl; [reflexivity|].
  intros H. apply andb_true_iff in H as [H1 H2].
  now rewrite (alnum_segment_chars _ H1), IH.
Qed.

(** X12. A version that passes [regexVersion] is not empty, is made of
    ASCII letters, digits and dots only, and has at most three dots: range
    operators, pre-release tags with a hyphen, spaces inside the text and
    versions of five or more segments are all turned away. *)
Theorem regexVersion_alphabet (s : string) :
  regexVersion_test s = true ->
  truthy s = true
  /\ all_chars version_char s = true
  /\ (count_dots s <= 3)%nat.
Proof.
  rewrite regexVersion_test_spec. unfold well_formed_version.
  intros H. apply andb_true_iff in H as [Hlen Hsegs].
  split; [|split].
  - destruct s; [discriminate Hsegs | reflexivity].
  - now apply split_dots_chars, alnum_segments_chars.
  - apply Nat.leb_le in Hlen. rewrite split_dots_length in Hlen. lia.
Qed.

Lemma regexVersion_alphabet_witness :
  all_chars version_char "1.10.0.Final" = true.
Proof.
  refine (proj1 (proj2 (regexVersion_alphabet "1.10.0.Final" _))). reflexivity.
Defined.

End Versions.

(** ** The analysis cycle, [sendDiagnostics]

    One call of [sendDiagnostics] runs synchronously up to its
    [await Promise.allSettled(allRequests)]: it clears the diagnostics,
    announces the cycle, collects and filters the dependencies, runs the
    pipeline on the cache hits and issues one [fetch] per batch of misses.
    From there the batches advance one resumption at a time, in whatever
    order the event loop resumes them; a schedule is the list of batch
    indices in that order.  When every batch promise is settled the call
    resumes and sends the summary notification.

    What the editor and the network see of a cycle is its trace of events.
    Clock readings are left out of the log lines. *)

Module Cycle.

Import Summary.

Abbreviation Dependency := Versions.Dependency.
Abbreviation Diagnostic := CodeActions.Diagnostic.
Abbreviation Request := Slice.Request.

(** An item of [package_versions]: [{package, version}]. *)
Record PackageVersion := mkPackageVersion {
  package : string;
  version : string
}.

(** [packageAggregator]: which aggregator class the cycle instantiates. *)
Inductive AggregatorKind :=
| NoopVulnerabilityAggregator
| GolangVulnerabilityAggregator.

(** The payload of [caNotification].  The opening notification carries
    [data], [done] and [uri] only. *)
Record CaNotification := mkCaNotification {
  data : string;
  diagCount : option nat;
  vulnCount : option TotalCount;
  depCount : option nat;
  done : bool;
  uri : string
}.

Definition caDefaultMsg : string := "Checking for security vulnerabilities ...".

Inductive LogLine :=
| ManifestParseTook (found : nat)
| CacheHitMiss (hit miss : nat)
| SendDiagnosticsCount (n : nat)
| FetchingVulnFor (packages : nat)
| FetchVulnsTook.

Section Collaborators.

(** What a collector rejects with, the payload of a vulnerability record
    beyond its package and version, the state the engines share besides the
    diagnostics array (the aggregator and the code-action index), and the
    cache store. *)
Context {Err VulnData PipeState Cache : Type}.

(** One element of the response array of the component-analyses call. *)
Record VulnRecord := mkVulnRecord {
  r_package : string;
  r_version : string;
  r_data : VulnData
}.

Inductive WarnLine :=
| ErrorWarn (error : Err)
| FetchErrorStatus (status : Z)
| ExceptionWhileFetch.

Inductive Event :=
| SendDiagnostics (file : string) (diagnostics : list Diagnostic)
| SendCaNotification (n : CaNotification)
| SendCaError (error : Err) (file : string)
| ConsoleLog (l : LogLine)
| ConsoleWarn (w : WarnLine)
| Fetch (reqData : Request PackageVersion).

(** What [collector.collect(contents)] settles with. *)
Inductive Collected :=
| Deps (deps : list Dependency)
| Rejected (error : Err).

(** What the network does with one request: [fetch] rejects, or resolves to
    a response that is not [ok], or to an [ok] response whose [json()]
    resolves to an array of records ([Some]) or rejects ([None]). *)
Inductive Outcome :=
| NetworkError
| HttpError (status : Z)
| HttpOk (body : option (list VulnRecord)).

(** The value [fetchVulnerabilities] resolves with: the response array, the
    status number of a response that is not [ok], or [undefined] after the
    [catch]. *)
Inductive FetchResult :=
| RespData (respData : list VulnRecord)
| Status (status : Z)
| Undefined.

(** Where one element of [allRequests] stands: awaiting [fetch], awaiting
    [response.json()], resolved with its [then] callback pending, or
    settled (fulfilled or rejected). *)
Inductive Phase :=
| InFlight
| ReadingBody
| Returned (v : FetchResult)
| Settled (fulfilled : bool).

(** What one run of a [DiagnosticsPipeline] leaves behind: the diagnostics
    array, the shared state, and the counters of [pipeline.items]. *)
Record PipelineRun := mkPipelineRun {
  run_diagnostics : list Diagnostic;
  run_state : PipeState;
  items : list TotalCount
}.

(** The collaborators of [./collector], [./consumers] and [./cache], whose
    sources are not at hand.  [DependencyMap_get valid pkg ver] is
    [new DependencyMap(valid).get(new SimpleDependency(pkg, ver))].
    [pipeline_run] is what building a [DiagnosticsPipeline] on the engines,
    running it on a record and reading its [items] does to the diagnostics
    array and to the shared state; it is a function, so an engine that throws
    is outside the model.  [cache_lookup] reads one key of the store,
    [cache_add] is [cache.add] on an array of records, and
    [cache_add_non_array] is whatever [cache.add] does to the store when it is
    handed a value that is not an array. *)
Variable DependencyMap_get :
  list Dependency -> string -> string -> option Dependency.
Variable pipeline_run :
  AggregatorKind -> string -> PipeState -> option Dependency -> VulnRecord ->
  list Diagnostic -> PipelineRun.
Variable cache_lookup : Cache -> Dependency -> option VulnRecord.
Variable cache_add : Cache -> list VulnRecord -> Cache.
Variable cache_add_non_array : Cache -> FetchResult -> Cache.

(** Modelled from the spec: the [get] of the cache of [./cache], which is not
    among the sources.  It returns a list of the same length and order as
    the keys, each key paired with its record or with [undefined]. *)
Definition cache_get (cache : Cache) (keys : list Dependency)
    : list (Dependency * option VulnRecord) :=
  map (fun k => (k, cache_lookup cache k)) keys.

(** The state of one cycle: the [diagnostics] array and [totalCount] of the
    call, the engines' shared state, the cache, the batch promises, the
    events emitted so far, and whether the call has returned. *)
Record State := mkState {
  diagnostics : list Diagnostic;
  totalCount : TotalCount;
  pipe : PipeState;
  cache : Cache;
  allRequests : list Phase;
  trace : list Event;
  returned : bool
}.

(** What the closures of a cycle capture. *)
Record Env := mkEnv {
  ecosystem : string;
  diagnosticFilePath : string;
  collected_deps : list Dependency;
  requests : list (Request PackageVersion)
}.

Definition emit (evs : list Event) (c : State) : State :=
  mkState (diagnostics c) (totalCount c) (pipe c) (cache c) (allRequests c)
    (trace c ++ evs) (returned c).

Definition set_phase (i : nat) (ph : Phase) (c : State) : State :=
  mkState (diagnostics c) (totalCount c) (pipe c) (cache c)
    (<[i := ph]> (allRequests c)) (trace c) (returned c).

Definition set_cache (cache' : Cache) (c : State) : State :=
  mkState (diagnostics c) (totalCount c) (pipe c) cache' (allRequests c)
    (trace c) (returned c).

Definition packageAggregator (eco : string) : AggregatorKind :=
  if negb (String.eqb eco "golang") then NoopVulnerabilityAggregator
  else GolangVulnerabilityAggregator.

(** [totalCount.x += secEng.x] for the three counters. *)
Definition add_counts (total secEng : TotalCount) : TotalCount :=
  mkTotalCount (vulnerabilityCount total + vulnerabilityCount secEng)
    (advisoryCount total + advisoryCount secEng)
    (exploitCount total + exploitCount secEng).

(** The body of [response.forEach] in [runPipeline]. *)
Definition runPipeline_item (env : Env)
    (st : list Diagnostic * PipeState * TotalCount) (r : VulnRecord)
    : list Diagnostic * PipeState * TotalCount :=
  let '(diags, ps, total) := st in
  let dependency :=
    DependencyMap_get (Versions.validPackages (ecosystem env) (collected_deps env))
      (r_package r) (r_version r) in
  let pipeline :=
    pipeline_run (packageAggregator (ecosystem env)) (diagnosticFilePath env)
      ps dependency r diags in
  (run_diagnostics pipeline, run_state pipeline,
   fold_left add_counts (items pipeline) total).

(** The arrays fed to the pipeline, folded from a given state. *)
Definition feed (env : Env) (responses : list (list VulnRecord))
    (st : list Diagnostic * PipeState * TotalCount)
    : list Diagnostic * PipeState * TotalCount :=
  fold_left (fun st response => fold_left (runPipeline_item env) response st)
    responses st.

Definition runPipeline (env : Env) (response : list VulnRecord) (c : State)
    : State :=
  let '(diags, ps, total) :=
    fold_left (runPipeline_item env) response
      (diagnostics c, pipe c, totalCount c) in
  mkState diags total ps (cache c) (allRequests c)
    (trace c ++ [SendDiagnostics (diagnosticFilePath env) diags;
                 ConsoleLog (SendDiagnosticsCount (length diags))])
    (returned c).

(** [cacheAndRunPipeline]; the boolean tells whether the callback returned.
    On a value that is not an array it throws, in [cache.add] or at the
    latest at [response.forEach] in [runPipeline]. *)
Definition cacheAndRunPipeline (env : Env) (response : FetchResult) (c : State)
    : State * bool :=
  match response with
  | RespData respData =>
      (runPipeline env respData (set_cache (cache_add (cache c) respData) c), true)
  | Status _ | Undefined =>
      (set_cache (cache_add_non_array (cache c) response) c, false)
  end.

(** [fetchVulnerabilities] resumed after [await fetch(...)]. *)
Definition fetchVulnerabilities_fetched (reqData : Request PackageVersion) (o : Outcome)
    : list Event * Phase :=
  let n := length (Slice.package_versions reqData) in
  match o with
  | NetworkError => ([ConsoleWarn ExceptionWhileFetch], Returned Undefined)
  | HttpError status =>
      ([ConsoleLog (FetchingVulnFor n); ConsoleWarn (FetchErrorStatus status)],
       Returned (Status status))
  | HttpOk _ => ([ConsoleLog (FetchingVulnFor n)], ReadingBody)
  end.

(** [fetchVulnerabilities] resumed after [await response.json()]. *)
Definition fetchVulnerabilities_parsed (o : Outcome) : list Event * Phase :=
  match o with
  | HttpOk (Some respData) => ([], Returned (RespData respData))
  | HttpOk None | NetworkError | HttpError _ =>
      ([ConsoleWarn ExceptionWhileFetch], Returned Undefined)
  end.

Definition is_settled (ph : Phase) : bool :=
  match ph with Settled _ => true | _ => false end.

(** The last two lines of [sendDiagnostics]: the log line and the summary
    notification. *)
Definition closing (env : Env) (c : State) : State :=
  mkState (diagnostics c) (totalCount c) (pipe c) (cache c) (allRequests c)
    (trace c ++
       [ConsoleLog FetchVulnsTook;
        SendCaNotification
          {| data := getCAmsg (collected_deps env) (diagnostics c) (totalCount c);
             diagCount := Some (length (diagnostics c));
             vulnCount := Some (totalCount c);
             depCount := Some (length (collected_deps env));
             done := true;
             uri := diagnosticFilePath env |}])
    true.

(** The code after [await Promise.allSettled(allRequests)], run once, when
    every batch promise is settled. *)
Definition finish (env : Env) (c : State) : State :=
  if returned c then c
  else if forallb is_settled (allRequests c) then closing env c
  else c.

(** One resumption of batch [i]. *)
Definition advance (env : Env) (net : nat -> Outcome) (i : nat) (c : State)
    : State :=
  match allRequests c !! i, requests env !! i with
  | Some InFlight, Some reqData =>
      let '(evs, ph) := fetchVulnerabilities_fetched reqData (net i) in
      set_phase i ph (emit evs c)
  | Some ReadingBody, Some _ =>
      let '(evs, ph) := fetchVulnerabilities_parsed (net i) in
      set_phase i ph (emit evs c)
  | Some (Returned v), Some _ =>
      let '(c', fulfilled) := cacheAndRunPipeline env v c in
      set_phase i (Settled fulfilled) c'
  | _, _ => c
  end.

Definition step (env : Env) (net : nat -> Outcome) (c : State) (i : nat)
    : State :=
  finish env (advance env net i c).

Definition run (env : Env) (net : nat -> Outcome) (sched : list nat)
    (c : State) : State :=
  fold_left (step env net) sched c.

(** The two sends that open every cycle. *)
Definition opening (file : string) : list Event :=
  [SendDiagnostics file [];
   SendCaNotification
     {| data := caDefaultMsg; diagCount := None; vulnCount := None;
        depCount := None; done := false; uri := file |}].

Definition cachedValues (cache0 : Cache) (valid : list Dependency)
    : list VulnRecord :=
  omap snd (cache_get cache0 valid).

(** [c.V === undefined]. *)
Definition is_miss (c : Dependency * option VulnRecord) : bool :=
  match snd c with None => true | Some _ => false end.

Definition missedItems (cache0 : Cache) (valid : list Dependency)
    : list Dependency :=
  map fst (List.filter is_miss (cache_get cache0 valid)).

Definition requestPayload (missed : list Dependency) : list PackageVersion :=
  map (fun d => mkPackageVersion (Versions.value (Versions.name d))
                  (Versions.value (Versions.version d))) missed.

(** The batches of a cycle; [slicePayload] returns for batch size 10. *)
Definition cycle_requests (eco : string) (cache0 : Cache)
    (deps : list Dependency) : list (Request PackageVersion) :=
  default []
    (Slice.slicePayload
       (requestPayload (missedItems cache0 (Versions.validPackages eco deps)))
       Slice.batchSize eco).

Definition cycle_env (eco file : string) (cache0 : Cache)
    (deps : list Dependency) : Env :=
  mkEnv eco file deps (cycle_requests eco cache0 deps).

(** The cycle up to the pipeline run on the cache hits. *)
Definition hits_reported (eco file : string) (cache0 : Cache) (pipe0 : PipeState)
    (deps : list Dependency) : State :=
  let valid := Versions.validPackages eco deps in
  runPipeline (cycle_env eco file cache0 deps) (cachedValues cache0 valid)
    (mkState [] TotalCount_new pipe0 cache0 []
       (opening file ++
          [ConsoleLog (ManifestParseTook (length deps));
           ConsoleLog (CacheHitMiss (length (cachedValues cache0 valid))
                         (length (missedItems cache0 valid)))])
       false).

(** The cycle at its [await Promise.allSettled(allRequests)]: every request
    has been sent. *)
Definition requests_sent (eco file : string) (cache0 : Cache) (pipe0 : PipeState)
    (deps : list Dependency) : State :=
  let c := hits_reported eco file cache0 pipe0 deps in
  let reqs := cycle_requests eco cache0 deps in
  mkState (diagnostics c) (totalCount c) (pipe c) (cache c)
    (map (fun _ => InFlight) reqs)
    (trace c ++ map Fetch reqs)
    false.

(** The cycle whose collector rejected: it has returned at the [catch]. *)
Definition aborted (file : string) (cache0 : Cache) (pipe0 : PipeState)
    (error : Err) : State :=
  mkState [] TotalCount_new pipe0 cache0 []
    (opening file ++ [ConsoleWarn (ErrorWarn error); SendCaError error file])
    true.

(** [sendDiagnostics(ecosystem, diagnosticFilePath, contents, collector)],
    given what the collector settled with, the cache and engine state at
    the start, the outcome of each request, and a schedule. *)
Definition sendDiagnostics (eco file : string) (collected : Collected)
    (cache0 : Cache) (pipe0 : PipeState) (net : nat -> Outcome)
    (sched : list nat) : State :=
  match collected with
  | Rejected error => aborted file cache0 pipe0 error
  | Deps deps =>
      let env := cycle_env eco file cache0 deps in
      run env net sched (finish env (requests_sent eco file cache0 pipe0 deps))
  end.

(** The diagnostics the editor shows for [file] after a trace, given those
    it showed before: every publish replaces the whole set. *)
Fixpoint published (file : string) (shown : list Diagnostic) (t : list Event)
    : list Diagnostic :=
  match t with
  | [] => shown
  | SendDiagnostics f ds :: t' =>
      published file (if String.eqb f file then ds else shown) t'
  | _ :: t' => published file shown t'
  end.

Definition is_fetch (e : Event) : bool :=
  match e with Fetch _ => true | _ => false end.

Definition is_publish (e : Event) : bool :=
  match e with SendDiagnostics _ _ => true | _ => false end.

Definition is_summary (e : Event) : bool :=
  match e with SendCaNotification n => done n | _ => false end.

(** A request fails when [fetch] rejects or the response is not [ok]. *)
Definition failed (o : Outcome) : bool :=
  match o with NetworkError | HttpError _ => true | HttpOk _ => false end.

(** The response array of a request that succeeded. *)
Definition response_of (o : Outcome) : option (list VulnRecord) :=
  match o with HttpOk (Some respData) => Some respData | _ => None end.

(** What the pipeline has accumulated. *)
Definition core (c : State) : list Diagnostic * PipeState * TotalCount :=
  (diagnostics c, pipe c, totalCount c).

(** The response arrays of the batches of [order], in that order. *)
Definition responses (net : nat -> Outcome) (order : list nat)
    : list (list VulnRecord) :=
  omap (fun i => response_of (net i)) order.

(** Resumptions a batch promise may still need. *)
Definition rank (ph : Phase) : nat :=
  match ph with
  | InFlight => 3
  | ReadingBody => 2
  | Returned _ => 1
  | Settled _ => 0
  end.

Definition occurrences (i : nat) (sched : list nat) : nat :=
  length (List.filter (Nat.eqb i) sched).

(** A schedule that resumes each of [n] batches as often as it can need. *)
Definition fair (n : nat) (sched : list nat) : Prop :=
  forall i, (i < n)%nat -> (3 <= occurrences i sched)%nat.

(** A phase a batch can be in, given what the network does with it. *)
Definition phase_ok (o : Outcome) (ph : Phase) : Prop :=
  match ph with
  | InFlight => True
  | ReadingBody => exists body, o = HttpOk body
  | Returned (RespData respData) => o = HttpOk (Some respData)
  | Returned (Status status) => o = HttpError status
  | Returned Undefined => o = NetworkError \/ o = HttpOk None
  | Settled true => exists respData, o = HttpOk (Some respData)
  | Settled false => response_of o = None
  end.

(** An event of a batch resumption: neither a request nor the summary. *)
Definition quiet (e : Event) : Prop := is_fetch e = false /\ is_summary e = false.

Local Open Scope nat_scope.

(** An event with the number of collected dependencies forgotten: the parse
    log line without its count, a closing notification without its message
    and [depCount]. *)
Definition forget_count (e : Event) : Event :=
  match e with
  | ConsoleLog (ManifestParseTook _) => ConsoleLog (ManifestParseTook 0)
  | SendCaNotification n =>
      if done n
      then SendCaNotification
             (mkCaNotification "" (diagCount n) (vulnCount n) None true (uri n))
      else e
  | _ => e
  end.

(** The invariant of a cycle that has not returned: [order] lists the
    batches whose response went through the pipeline, oldest first. *)
Record Pre (env : Env) (net : nat -> Outcome) (sent c : State)
    (order : list nat) : Prop := mkPre {
  pre_nodup : List.NoDup order;
  pre_order : forall i, In i order <-> allRequests c !! i = Some (Settled true);
  pre_phase : forall i ph, allRequests c !! i = Some ph -> phase_ok (net i) ph;
  pre_len : length (allRequests c) = length (requests env);
  pre_core : core c = feed env (responses net order) (core sent);
  pre_trace :
    exists later,
      trace c = trace sent ++ later
      /\ Forall quiet later
      /\ length (List.filter is_publish later) = length order;
  pre_returned : returned c = false
}.

(** A cycle is running, or it has sent its summary. *)
Inductive Inv (env : Env) (net : nat -> Outcome) (sent : State)
    : State -> list nat -> Prop :=
| Running c order :
    Pre env net sent c order ->
    forallb is_settled (allRequests c) = false ->
    Inv env net sent c order
| Finished c order :
    Pre env net sent c order ->
    forallb is_settled (allRequests c) = true ->
    Inv env net sent (closing env c) order.

(** Two cycles that differ only in the collected dependencies that the
    filter drops. *)

Record Sim (c c' : State) : Prop := mkSim {
  sim_diagnostics : diagnostics c = diagnostics c';
  sim_totalCount : totalCount c = totalCount c';
  sim_pipe : pipe c = pipe c';
  sim_cache : cache c = cache c';
  sim_batches : allRequests c = allRequests c';
  sim_returned : returned c = returned c';
  sim_trace : map forget_count (trace c) = map forget_count (trace c')
}.

Record EnvAgree (env env' : Env) : Prop := mkEnvAgree {
  agree_ecosystem : ecosystem env = ecosystem env';
  agree_file : diagnosticFilePath env = diagnosticFilePath env';
  agree_requests : requests env = requests env';
  agree_valid :
    Versions.validPackages (ecosystem env) (collected_deps env) =
    Versions.validPackages (ecosystem env') (collected_deps env')
}.

(** ** Properties of the cycle *)

Lemma forallb_lookup {A} (p : A -> bool) (l : list A) (i : nat) (x : A) :
  forallb p l = true -> l !! i = Some x -> p x = true.
Proof.
  revert i. induction l as [|y l IH]; intros [|i] H E; simpl in *; try discriminate.
  - injection E as ->. now apply andb_true_iff in H.
  - apply andb_true_iff in H as [_ H]. now apply (IH i).
Qed.

Lemma forallb_of_lookup {A} (p : A -> bool) (l : list A) :
  (forall i x, l !! i = Some x -> p x = true) -> forallb p l = true.
Proof.
  induction l as [|y l IH]; intros H; simpl; [reflexivity|].
  rewrite (H 0 y eq_refl), IH; [reflexivity|].
  intros i x E. exact (H (S i) x E).
Qed.

Lemma forallb_insert_false {A} (p : A -> bool) (l : list A) (i : nat) (x : A) :
  i < length l -> p x = false -> forallb p (<[i := x]> l) = false.
Proof.
  intros Hi Hx. destruct (forallb p (<[i := x]> l)) eqn:E; [|reflexivity].
  rewrite <- Hx. symmetry. apply (forallb_lookup p _ i x E).
  now apply list_lookup_insert_eq.
Qed.

Lemma lookup_insert_cases (l : list Phase) (i j : nat) (ph x : Phase) :
  l !! i = Some ph ->
  <[i := x]> l !! j = (if Nat.eqb i j then Some x else l !! j).
Proof.
  intros Hi. destruct (Nat.eqb_spec i j) as [<-|Hne].
  - apply list_lookup_insert_eq. now apply lookup_lt_Some in Hi.
  - now apply list_lookup_insert_ne.
Qed.

Lemma finish_running env c :
  returned c = false -> forallb is_settled (allRequests c) = false -> finish env c = c.
Proof. unfold finish. now intros -> ->. Qed.

Lemma finish_closing env c :
  returned c = false -> forallb is_settled (allRequests c) = true ->
  finish env c = closing env c.
Proof. unfold finish. now intros -> ->. Qed.

Lemma finish_returned env c : returned c = true -> finish env c = c.
Proof. unfold finish. now intros ->. Qed.

Lemma feed_app env rs1 rs2 st :
  feed env (rs1 ++ rs2) st = feed env rs2 (feed env rs1 st).
Proof. unfold feed. apply fold_left_app. Qed.

Lemma responses_snoc net order i respData :
  net i = HttpOk (Some respData) ->
  responses net (order ++ [i]) = responses net order ++ [respData].
Proof.
  intros E. unfold responses. rewrite omap_app. simpl. now rewrite E.
Qed.

Lemma runPipeline_core env respData c :
  core (runPipeline env respData c) = feed env [respData] (core c).
Proof.
  unfold runPipeline, core, feed. simpl.
  destruct (fold_left _ respData _) as [[d p] t]. reflexivity.
Qed.

Lemma pre_quiet_step env net sent c order i ph0 ph evs :
  Pre env net sent c order ->
  allRequests c !! i = Some ph0 ->
  ph0 <> Settled true -> ph <> Settled true ->
  phase_ok (net i) ph ->
  Forall quiet evs -> List.filter is_publish evs = [] ->
  Pre env net sent (set_phase i ph (emit evs c)) order.
Proof.
  intros [Hnd Hord Hph Hlen Hcore (later & Htr & Hq & Hpub) Hret] Hi Hne0 Hne Hok Hevs Hnp.
  split; simpl; auto.
  - intros j. rewrite (lookup_insert_cases _ i j ph0 ph Hi), Hord.
    destruct (Nat.eqb_spec i j) as [<-|_]; [|reflexivity].
    rewrite Hi. split; intros E; injection E; congruence.
  - intros j ph'. rewrite (lookup_insert_cases _ i j ph0 ph Hi).
    destruct (Nat.eqb_spec i j) as [<-|_]; [|apply Hph].
    now intros [= <-].
  - now rewrite length_insert.
  - exists (later ++ evs). rewrite Htr, <- app_assoc. split; [reflexivity|].
    split; [now apply Forall_app|].
    now rewrite List.filter_app, Hnp, app_nil_r.
Qed.

Lemma pre_advance env net sent c order i :
  Pre env net sent c order ->
  exists order', Pre env net sent (advance env net i c) order'.
Proof.
  intros HP. pose proof HP as [Hnd Hord Hph Hlen Hcore (later & Htr & Hq & Hpub) Hret].
  unfold advance.
  destruct (allRequests c !! i) as [ph0|] eqn:Hi; [|eauto].
  destruct (requests env !! i) as [reqData|] eqn:Hr;
    [|destruct ph0; eauto].
  pose proof (Hph i ph0 Hi) as Hok0.
  destruct ph0 as [| |v|b]; [| | |eauto].
  - (* awaiting fetch *)
    exists order. unfold fetchVulnerabilities_fetched.
    destruct (net i) as [|status|body] eqn:En;
      apply (pre_quiet_step env net sent c order i InFlight); auto;
      try discriminate; simpl; rewrite ?En; eauto;
      repeat constructor.
  - (* awaiting the body *)
    exists order. destruct Hok0 as [body En]. unfold fetchVulnerabilities_parsed. rewrite En.
    destruct body as [respData|];
      apply (pre_quiet_step env net sent c order i ReadingBody); auto;
      try discriminate; simpl; rewrite ?En; eauto;
      repeat constructor.
  - (* the then callback *)
    destruct v as [respData|status|]; simpl in Hok0; simpl.
    + exists (order ++ [i]).
      assert (Hni : ~ In i order).
      { rewrite Hord, Hi. discriminate. }
      split; simpl.
      * apply List.NoDup_app; auto; [repeat constructor; simpl; tauto|].
        intros a Ha [<-|[]]. contradiction.
      * intros j. rewrite (lookup_insert_cases _ i j (Returned (RespData respData))); [|
          unfold runPipeline; simpl; destruct (fold_left _ _ _) as [[? ?] ?]; exact Hi].
        rewrite in_app_iff. simpl.
        destruct (Nat.eqb_spec i j) as [<-|Hne].
        -- split; auto.
        -- unfold runPipeline. simpl. destruct (fold_left _ _ _) as [[? ?] ?]. simpl.
           rewrite <- Hord. split; [intros [H|[H|[]]]; [auto|contradiction] | auto].
      * intros j ph'. rewrite (lookup_insert_cases _ i j (Returned (RespData respData))); [|
          unfold runPipeline; simpl; destruct (fold_left _ _ _) as [[? ?] ?]; exact Hi].
        destruct (Nat.eqb_spec i j) as [<-|Hne].
        -- intros [= <-]. simpl. eauto.
        -- unfold runPipeline. simpl. destruct (fold_left _ _ _) as [[? ?] ?]. simpl.
           apply Hph.
      * rewrite length_insert. unfold runPipeline. simpl.
        destruct (fold_left _ _ _) as [[? ?] ?]. exact Hlen.
      * rewrite (responses_snoc _ _ _ _ Hok0), feed_app, <- Hcore.
        exact (runPipeline_core env respData
                 (set_cache (cache_add (cache c) respData) c)).
      * unfold runPipeline. simpl. destruct (fold_left _ _ _) as [[ds ps] tc]. simpl.
        exists (later ++ [SendDiagnostics (diagnosticFilePath env) ds;
                          ConsoleLog (SendDiagnosticsCount (length ds))]).
        rewrite Htr, <- app_assoc. split; [reflexivity|].
        split; [apply Forall_app; split; auto; repeat constructor|].
        rewrite List.filter_app, !length_app, Hpub. reflexivity.
      * unfold runPipeline. simpl. destruct (fold_left _ _ _) as [[? ?] ?]. exact Hret.
    + exists order. subst.
      split; simpl; auto.
      * intros j. rewrite (lookup_insert_cases _ i j _ _ Hi), Hord.
        destruct (Nat.eqb_spec i j) as [<-|_]; [|reflexivity].
        rewrite Hi. split; discriminate.
      * intros j ph'. rewrite (lookup_insert_cases _ i j _ _ Hi).
        destruct (Nat.eqb_spec i j) as [<-|_]; [|apply Hph].
        intros [= <-]. simpl. now rewrite Hok0.
      * now rewrite length_insert.
      * exists later. auto.
    + exists order.
      split; simpl; auto.
      * intros j. rewrite (lookup_insert_cases _ i j _ _ Hi), Hord.
        destruct (Nat.eqb_spec i j) as [<-|_]; [|reflexivity].
        rewrite Hi. split; discriminate.
      * intros j ph'. rewrite (lookup_insert_cases _ i j _ _ Hi).
        destruct (Nat.eqb_spec i j) as [<-|_]; [|apply Hph].
        intros [= <-]. simpl. now destruct Hok0 as [-> | ->].
      * now rewrite length_insert.
      * exists later. auto.
Qed.

Lemma pre_finish env net sent c order :
  Pre env net sent c order -> Inv env net sent (finish env c) order.
Proof.
  intros HP. pose proof (pre_returned _ _ _ _ _ HP) as Hret.
  destruct (forallb is_settled (allRequests c)) eqn:E.
  - rewrite (finish_closing env c Hret E). now constructor.
  - rewrite (finish_running env c Hret E). now constructor.
Qed.

Lemma advance_settled env net i c :
  forallb is_settled (allRequests c) = true -> advance env net i c = c.
Proof.
  intros H. unfold advance.
  destruct (allRequests c !! i) as [ph|] eqn:Hi; [|reflexivity].
  pose proof (forallb_lookup _ _ _ _ H Hi) as Hs.
  destruct ph; try discriminate. now destruct (requests env !! i).
Qed.

Lemma inv_step env net sent c order i :
  Inv env net sent c order ->
  exists order', Inv env net sent (step env net c i) order'.
Proof.
  intros [c0 o HP Hrun | c0 o HP Hall]; unfold step.
  - destruct (pre_advance env net sent c0 o i HP) as (order' & HP').
    exists order'. now apply pre_finish.
  - exists o. rewrite advance_settled by exact Hall.
    rewrite finish_returned by reflexivity. now constructor.
Qed.

Lemma inv_run env net sent sched :
  forall c order,
    Inv env net sent c order ->
    exists order', Inv env net sent (run env net sched c) order'.
Proof.
  induction sched as [|i sched IH]; intros c order HI; simpl; [eauto|].
  destruct (inv_step env net sent c order i HI) as (order1 & H1).
  exact (IH _ _ H1).
Qed.

(** Progress: a resumption lowers the rank of its batch and leaves the
    other batches alone. *)

Lemma finish_batches env c : allRequests (finish env c) = allRequests c.
Proof.
  unfold finish. destruct (returned c), (forallb is_settled (allRequests c)); reflexivity.
Qed.

Lemma runPipeline_batches env respData c :
  allRequests (runPipeline env respData c) = allRequests c.
Proof. unfold runPipeline. now destruct (fold_left _ _ _) as [[? ?] ?]. Qed.

Lemma step_other env net c i j :
  i <> j -> allRequests (step env net c i) !! j = allRequests c !! j.
Proof.
  intros Hne. unfold step. rewrite finish_batches. unfold advance.
  destruct (allRequests c !! i) as [ph|]; [|reflexivity].
  destruct (requests env !! i) as [reqData|]; [|now destruct ph].
  destruct ph as [| |v|b]; try reflexivity.
  - destruct (fetchVulnerabilities_fetched reqData (net i)) as [evs ph]. simpl.
    now apply list_lookup_insert_ne.
  - destruct (fetchVulnerabilities_parsed (net i)) as [evs ph]. simpl.
    now apply list_lookup_insert_ne.
  - destruct v; simpl; rewrite ?runPipeline_batches;
      now rewrite list_lookup_insert_ne.
Qed.

Lemma step_length env net c i :
  length (allRequests (step env net c i)) = length (allRequests c).
Proof.
  unfold step. rewrite finish_batches. unfold advance.
  destruct (allRequests c !! i) as [ph|]; [|reflexivity].
  destruct (requests env !! i) as [reqData|]; [|now destruct ph].
  destruct ph as [| |v|b]; try reflexivity.
  - destruct (fetchVulnerabilities_fetched reqData (net i)) as [evs ph]. simpl.
    apply length_insert.
  - destruct (fetchVulnerabilities_parsed (net i)) as [evs ph]. simpl. apply length_insert.
  - destruct v; simpl; rewrite length_insert, ?runPipeline_batches; reflexivity.
Qed.

Lemma step_rank env net c i ph :
  length (allRequests c) = length (requests env) ->
  allRequests c !! i = Some ph ->
  exists ph', allRequests (step env net c i) !! i = Some ph'
              /\ rank ph' <= rank ph - 1.
Proof.
  intros Hlen Hi. unfold step. rewrite finish_batches. unfold advance. rewrite Hi.
  pose proof (lookup_lt_Some _ _ _ Hi) as Hlt.
  destruct (requests env !! i) as [reqData|] eqn:Hr;
    [|apply lookup_ge_None in Hr; lia].
  destruct ph as [| |v|b].
  - unfold fetchVulnerabilities_fetched. destruct (net i); simpl;
      rewrite list_lookup_insert_eq by exact Hlt; eexists; split; eauto; simpl; lia.
  - unfold fetchVulnerabilities_parsed. destruct (net i) as [| |[?|]]; simpl;
      rewrite list_lookup_insert_eq by exact Hlt; eexists; split; eauto; simpl; lia.
  - destruct v; simpl; rewrite ?runPipeline_batches;
      (rewrite list_lookup_insert_eq by (simpl; exact Hlt));
      eexists; split; eauto; simpl; lia.
  - exists (Settled b). split; [exact Hi | simpl; lia].
Qed.

Lemma occurrences_cons j i sched :
  occurrences j (i :: sched) =
  (if Nat.eqb j i then 1 else 0) + occurrences j sched.
Proof. unfold occurrences. simpl. now destruct (Nat.eqb j i). Qed.

Lemma run_rank env net sched j :
  forall c ph,
    length (allRequests c) = length (requests env) ->
    allRequests c !! j = Some ph ->
    exists ph', allRequests (run env net sched c) !! j = Some ph'
                /\ rank ph' <= rank ph - occurrences j sched.
Proof.
  induction sched as [|i sched IH]; intros c ph Hlen Hj.
  - exists ph. split; [exact Hj | unfold occurrences; simpl; lia].
  - rewrite occurrences_cons. simpl run.
    destruct (Nat.eqb_spec j i) as [<-|Hne].
    + destruct (step_rank env net c j ph Hlen Hj) as (ph1 & H1 & Hr1).
      destruct (IH (step env net c j) ph1) as (ph' & H' & Hr');
        [now rewrite step_length | exact H1 |].
      exists ph'. split; [exact H' | lia].
    + destruct (IH (step env net c i) ph) as (ph' & H' & Hr');
        [now rewrite step_length | rewrite step_other; auto |].
      exists ph'. split; [exact H' | exact Hr'].
Qed.

Lemma fair_all_settled env net sched c :
  length (allRequests c) = length (requests env) ->
  fair (length (requests env)) sched ->
  forallb is_settled (allRequests (run env net sched c)) = true.
Proof.
  intros Hlen Hfair. apply forallb_of_lookup. intros j ph' Hj.
  assert (Hlt : j < length (allRequests c)).
  { apply lookup_lt_Some in Hj. revert Hj. clear -Hlen.
    revert c Hlen. induction sched as [|i sched IH]; intros c Hlen; simpl; [auto|].
    intros H. apply IH in H; [now rewrite step_length in H | now rewrite step_length]. }
  destruct (lookup_lt_is_Some_2 _ _ Hlt) as [ph Hph].
  destruct (run_rank env net sched j c ph Hlen Hph) as (ph2 & H2 & Hr).
  rewrite Hj in H2. injection H2 as <-.
  specialize (Hfair j ltac:(lia)).
  assert (rank ph <= 3) by (destruct ph; simpl; lia).
  destruct ph'; simpl in Hr; try lia. reflexivity.
Qed.

(** The synchronous part. *)

Lemma hits_trace eco file cache0 pipe0 deps :
  let valid := Versions.validPackages eco deps in
  let hits := hits_reported eco file cache0 pipe0 deps in
  trace hits =
    opening file ++
    [ConsoleLog (ManifestParseTook (length deps));
     ConsoleLog (CacheHitMiss (length (cachedValues cache0 valid))
                   (length (missedItems cache0 valid)));
     SendDiagnostics file (diagnostics hits);
     ConsoleLog (SendDiagnosticsCount (length (diagnostics hits)))].
Proof.
  simpl. unfold hits_reported, runPipeline. simpl.
  destruct (fold_left _ _ _) as [[ds ps] tc]. reflexivity.
Qed.

Lemma hits_core eco file cache0 pipe0 deps :
  core (hits_reported eco file cache0 pipe0 deps) =
  feed (cycle_env eco file cache0 deps)
    [cachedValues cache0 (Versions.validPackages eco deps)]
    ([], pipe0, TotalCount_new).
Proof. unfold hits_reported. now rewrite runPipeline_core. Qed.

(** The cached values are the records the cache holds for the valid
    dependencies, in their order. *)
Lemma cachedValues_lookup cache0 (valid : list Dependency) :
  cachedValues cache0 valid = omap (cache_lookup cache0) valid.
Proof.
  unfold cachedValues, cache_get.
  induction valid as [|d valid IH]; [reflexivity|].
  simpl. destruct (cache_lookup cache0 d); [f_equal|]; exact IH.
Qed.

Lemma filter_fetch_map (reqs : list (Request PackageVersion)) :
  List.filter is_fetch (map Fetch reqs) = map Fetch reqs.
Proof. induction reqs as [|r reqs IH]; simpl; [reflexivity | now rewrite IH]. Qed.

Lemma filter_publish_map (reqs : list (Request PackageVersion)) :
  List.filter is_publish (map Fetch reqs) = [].
Proof. induction reqs as [|r reqs IH]; simpl; auto. Qed.

Lemma filter_quiet_fetch (later : list Event) :
  Forall quiet later -> List.filter is_fetch later = [].
Proof.
  induction 1 as [|e l [He _] _ IH]; simpl; [reflexivity | now rewrite He].
Qed.

Lemma quiet_not_summary (later : list Event) :
  Forall quiet later -> Forall (fun e => is_summary e = false) later.
Proof. apply List.Forall_impl. now intros e [_ H]. Qed.

Lemma pre_sent eco file cache0 pipe0 deps net :
  let sent := requests_sent eco file cache0 pipe0 deps in
  Pre (cycle_env eco file cache0 deps) net sent sent [].
Proof.
  split; simpl.
  - constructor.
  - intros i. rewrite list_lookup_fmap.
    destruct (cycle_requests eco cache0 deps !! i); simpl;
      split; try contradiction; discriminate.
  - intros i ph. rewrite list_lookup_fmap.
    destruct (cycle_requests eco cache0 deps !! i); simpl; [|discriminate].
    now intros [= <-].
  - apply length_map.
  - reflexivity.
  - exists []. rewrite app_nil_r. auto.
  - reflexivity.
Qed.

Lemma cycle_inv eco file cache0 pipe0 deps net sched :
  let env := cycle_env eco file cache0 deps in
  exists order,
    Inv env net (requests_sent eco file cache0 pipe0 deps)
      (sendDiagnostics eco file (Deps deps) cache0 pipe0 net sched) order.
Proof.
  simpl. apply (inv_run _ _ _ sched _ []). apply pre_finish, pre_sent.
Qed.

(** What a finished cycle looks like. *)
Lemma finished_cycle eco file cache0 pipe0 deps net sched :
  let env := cycle_env eco file cache0 deps in
  let sent := requests_sent eco file cache0 pipe0 deps in
  let final := sendDiagnostics eco file (Deps deps) cache0 pipe0 net sched in
  fair (length (requests env)) sched ->
  exists c order,
    final = closing env c
    /\ Pre env net sent c order
    /\ forallb is_settled (allRequests c) = true.
Proof.
  intros env sent final Hfair.
  assert (Hall : forallb is_settled (allRequests final) = true).
  { apply fair_all_settled; [|exact Hfair].
    rewrite finish_batches. apply length_map. }
  destruct (cycle_inv eco file cache0 pipe0 deps net sched) as (order & HI).
  fold final in HI. inversion HI as [c o HP Hrun E1 E2 | c o HP Hs E1 E2]; subst.
  - congruence.
  - eauto.
Qed.

Lemma settled_order env net sent c order :
  Pre env net sent c order ->
  forallb is_settled (allRequests c) = true ->
  forall i,
    In i order <->
    i < length (requests env) /\ exists respData, net i = HttpOk (Some respData).
Proof.
  intros HP Hall i. rewrite (pre_order _ _ _ _ _ HP). split.
  - intros Hi. split.
    + rewrite <- (pre_len _ _ _ _ _ HP). now apply lookup_lt_Some in Hi.
    + exact (pre_phase _ _ _ _ _ HP i _ Hi).
  - intros [Hlt [respData En]].
    rewrite <- (pre_len _ _ _ _ _ HP) in Hlt.
    destruct (lookup_lt_is_Some_2 _ _ Hlt) as [ph Hph].
    pose proof (forallb_lookup _ _ _ _ Hall Hph) as Hs.
    pose proof (pre_phase _ _ _ _ _ HP i _ Hph) as Hok.
    destruct ph as [| | |[|]]; try discriminate; [exact Hph|].
    simpl in Hok. rewrite En in Hok. discriminate.
Qed.

(** C1. Under any schedule that lets every batch promise settle, the cycle
    returns and its last event is the summary notification.  The batches
    whose response went through the pipeline are the ones whose request
    succeeded, each once, in the order [order] they settled in; a batch
    whose request failed (transport error or a status that is not ok) is not
    among them.  The diagnostics and counts of the cycle, which the summary
    carries, are those of the cache hits followed by these responses; there
    is one publish per such batch besides the clearing one and the one of
    the hits, and one request per batch, failed or not. *)
Theorem failed_batch_contributes_nothing eco file deps cache0 pipe0 net sched :
  let env := cycle_env eco file cache0 deps in
  let hits := hits_reported eco file cache0 pipe0 deps in
  let final := sendDiagnostics eco file (Deps deps) cache0 pipe0 net sched in
  fair (length (requests env)) sched ->
  exists order before,
    List.NoDup order
    /\ (forall i, In i order <->
                  i < length (requests env)
                  /\ exists respData, net i = HttpOk (Some respData))
    /\ (forall i, failed (net i) = true -> ~ In i order)
    /\ core final = feed env (responses net order) (core hits)
    /\ List.filter is_fetch (trace final) = map Fetch (requests env)
    /\ length (List.filter is_publish (trace final)) = 2 + length order
    /\ returned final = true
    /\ forallb is_settled (allRequests final) = true
    /\ trace final =
         before ++
         [ConsoleLog FetchVulnsTook;
          SendCaNotification
            {| data := getCAmsg deps (diagnostics final) (totalCount final);
               diagCount := Some (length (diagnostics final));
               vulnCount := Some (totalCount final);
               depCount := Some (length deps);
               done := true;
               uri := file |}]
    /\ Forall (fun e => is_summary e = false) before.
Proof.
  intros env hits final Hfair.
  destruct (finished_cycle eco file cache0 pipe0 deps net sched Hfair)
    as (c & order & Hfinal & HP & Hall).
  fold final env in Hfinal.
  pose proof (settled_order _ _ _ _ _ HP Hall) as Hord.
  destruct (pre_trace _ _ _ _ _ HP) as (later & Htr & Hq & Hpub).
  exists order, (trace c).
  rewrite Hfinal. simpl.
  split; [exact (pre_nodup _ _ _ _ _ HP)|].
  split; [exact Hord|].
  split.
  { intros i Hf Hi. apply Hord in Hi as [_ [respData En]].
    rewrite En in Hf. discriminate. }
  split; [exact (pre_core _ _ _ _ _ HP)|].
  split.
  { rewrite Htr. simpl. rewrite !List.filter_app, filter_fetch_map.
    rewrite (filter_quiet_fetch later Hq).
    pose proof (hits_trace eco file cache0 pipe0 deps) as Ht. simpl in Ht.
    rewrite Ht. simpl. now rewrite !app_nil_r. }
  split.
  { rewrite Htr. simpl. rewrite !List.filter_app, filter_publish_map, !length_app.
    pose proof (hits_trace eco file cache0 pipe0 deps) as Ht. simpl in Ht.
    rewrite Ht, Hpub. simpl. lia. }
  split; [reflexivity|].
  split; [exact Hall|].
  split; [reflexivity|].
  rewrite Htr. apply Forall_app. split; [|now apply quiet_not_summary].
  simpl. apply Forall_app. split.
  - pose proof (hits_trace eco file cache0 pipe0 deps) as Ht. simpl in Ht.
    rewrite Ht. repeat constructor.
  - clear. induction (cycle_requests eco cache0 deps); simpl; constructor; auto.
Qed.

(** C2. Whatever the network does and whatever the order of resumptions,
    the trace of a cycle starts with the trace of the synchronous run, which
    ends with the publish of the diagnostics of the cache hits: the pipeline
    has been fed, in one call, the record the cache holds for each valid
    dependency that has one, in the dependencies' order.  That run holds no
    request, and every request and every event of a batch comes after
    it. *)
Theorem hits_published_before_requests eco file deps cache0 pipe0 net sched :
  let env := cycle_env eco file cache0 deps in
  let valid := Versions.validPackages eco deps in
  let hits := hits_reported eco file cache0 pipe0 deps in
  let final := sendDiagnostics eco file (Deps deps) cache0 pipe0 net sched in
  exists before later,
    trace final = trace hits ++ map Fetch (requests env) ++ later
    /\ trace hits =
         before ++ [SendDiagnostics file (diagnostics hits);
                    ConsoleLog (SendDiagnosticsCount (length (diagnostics hits)))]
    /\ core hits =
         feed env [omap (cache_lookup cache0) valid] ([], pipe0, TotalCount_new)
    /\ Forall (fun e => is_fetch e = false) (trace hits)
    /\ Forall (fun e => is_fetch e = false) later.
Proof.
  intros env valid hits final.
  pose proof (hits_trace eco file cache0 pipe0 deps) as Ht. simpl in Ht.
  fold hits valid in Ht.
  assert (Hlater : exists later,
             trace final = trace hits ++ map Fetch (requests env) ++ later
             /\ Forall (fun e => is_fetch e = false) later).
  { destruct (cycle_inv eco file cache0 pipe0 deps net sched) as (order & HI).
    fold final in HI.
    inversion HI as [c o HP Hrun E1 E2 | c o HP Hs E1 E2]; subst;
      destruct (pre_trace _ _ _ _ _ HP) as (later & Htr & Hq & _).
    - exists later. rewrite Htr. simpl. rewrite <- app_assoc. split; [reflexivity|].
      revert Hq. apply List.Forall_impl. now intros e [H _].
    - eexists. simpl. rewrite Htr. simpl. rewrite <- !app_assoc.
      split; [reflexivity|]. apply Forall_app. split; [|repeat constructor].
      revert Hq. apply List.Forall_impl. now intros e [H _]. }
  destruct Hlater as (later & Hfinal & Hq).
  exists (opening file ++
          [ConsoleLog (ManifestParseTook (length deps));
           ConsoleLog (CacheHitMiss (length (cachedValues cache0 valid))
                         (length (missedItems cache0 valid)))]), later.
  split; [exact Hfinal|].
  split; [rewrite Ht; reflexivity|].
  split; [rewrite <- cachedValues_lookup; apply hits_core|].
  split; [rewrite Ht; repeat constructor | exact Hq].
Qed.

(** C3, as the code has it.  When the collector rejects, the cycle returns
    at once: after the two opening sends (the publish that clears the
    diagnostics of the file and the opening notification) it logs the error
    and sends the error notification with the error and the file.  The
    clearing publish is the only one, so the file is left with no
    diagnostics and none is made from the error; no request is sent and no
    summary follows. *)
Theorem parse_error_aborts eco file error cache0 pipe0 net sched :
  let final := sendDiagnostics eco file (Rejected error) cache0 pipe0 net sched in
  trace final =
    opening file ++ [ConsoleWarn (ErrorWarn error); SendCaError error file]
  /\ List.filter is_publish (trace final) = [SendDiagnostics file []]
  /\ (forall shown, published file shown (trace final) = [])
  /\ List.filter is_summary (trace final) = []
  /\ List.filter is_fetch (trace final) = []
  /\ returned final = true.
Proof.
  simpl. repeat split.
  intros shown. now rewrite String.eqb_refl.
Qed.

Lemma validPackages_idem eco deps :
  Versions.validPackages eco (Versions.validPackages eco deps) =
  Versions.validPackages eco deps.
Proof.
  unfold Versions.validPackages. destruct (negb _); [|reflexivity].
  induction deps as [|d deps IH]; simpl; [reflexivity|].
  destruct (Versions.version_matches d) eqn:E; simpl; rewrite ?E, IH; reflexivity.
Qed.

Lemma cycle_env_agree eco file cache0 deps :
  EnvAgree (cycle_env eco file cache0 deps)
    (cycle_env eco file cache0 (Versions.validPackages eco deps)).
Proof.
  split; simpl; try reflexivity.
  - unfold cycle_requests. now rewrite validPackages_idem.
  - now rewrite validPackages_idem.
Qed.

Lemma runPipeline_item_agree env env' :
  EnvAgree env env' ->
  forall st r, runPipeline_item env st r = runPipeline_item env' st r.
Proof.
  intros [He Hf _ Hv] [[ds ps] tc] r. unfold runPipeline_item.
  now rewrite Hv, He, Hf.
Qed.

Lemma fold_runPipeline_agree env env' :
  EnvAgree env env' ->
  forall respData st,
    fold_left (runPipeline_item env) respData st =
    fold_left (runPipeline_item env') respData st.
Proof.
  intros HA. induction respData as [|r l IH]; intros st; simpl; [reflexivity|].
  now rewrite IH, (runPipeline_item_agree env env' HA).
Qed.

Lemma sim_emit evs evs' c c' :
  map forget_count evs = map forget_count evs' ->
  Sim c c' -> Sim (emit evs c) (emit evs' c').
Proof.
  intros He [? ? ? ? ? ? Ht]. split; simpl; auto.
  now rewrite !map_app, Ht, He.
Qed.

Lemma sim_set_phase i ph c c' :
  Sim c c' -> Sim (set_phase i ph c) (set_phase i ph c').
Proof. intros [? ? ? ? Hb ? ?]. split; simpl; auto. now rewrite Hb. Qed.

Lemma sim_runPipeline env env' respData c c' :
  EnvAgree env env' -> Sim c c' ->
  Sim (runPipeline env respData c) (runPipeline env' respData c').
Proof.
  intros HA [Hd Ht Hp Hc Hb Hr Htr]. unfold runPipeline.
  rewrite (fold_runPipeline_agree env env' HA), Hd, Ht, Hp.
  destruct (fold_left _ _ _) as [[ds ps] tc].
  split; simpl; auto.
  now rewrite !map_app, Htr, (agree_file _ _ HA).
Qed.

Lemma sim_advance env env' net i c c' :
  EnvAgree env env' -> Sim c c' ->
  Sim (advance env net i c) (advance env' net i c').
Proof.
  intros HA HS. unfold advance.
  rewrite <- (sim_batches _ _ HS), <- (agree_requests _ _ HA).
  destruct (allRequests c !! i) as [ph|]; [|exact HS].
  destruct (requests env !! i) as [reqData|]; [|now destruct ph].
  destruct ph as [| |v|b]; [| | |exact HS].
  - destruct (fetchVulnerabilities_fetched reqData (net i)) as [evs ph].
    now apply sim_set_phase, sim_emit.
  - destruct (fetchVulnerabilities_parsed (net i)) as [evs ph].
    now apply sim_set_phase, sim_emit.
  - destruct v as [respData|status|]; simpl; apply sim_set_phase.
    + apply sim_runPipeline; [exact HA|].
      destruct HS as [? ? ? Hc ? ? ?]. split; simpl; auto. now rewrite Hc.
    + destruct HS as [? ? ? Hc ? ? ?]. split; simpl; auto. now rewrite Hc.
    + destruct HS as [? ? ? Hc ? ? ?]. split; simpl; auto. now rewrite Hc.
Qed.

Lemma sim_finish env env' c c' :
  EnvAgree env env' -> Sim c c' -> Sim (finish env c) (finish env' c').
Proof.
  intros HA HS. pose proof HS as [Hd Ht Hp Hc Hb Hr Htr]. unfold finish.
  rewrite <- Hr, <- Hb.
  destruct (returned c); [exact HS|].
  destruct (forallb is_settled (allRequests c)); [|exact HS].
  split; simpl; auto.
  now rewrite !map_app, Htr, Hd, Ht, (agree_file _ _ HA).
Qed.

Lemma sim_run env env' net sched :
  EnvAgree env env' ->
  forall c c', Sim c c' -> Sim (run env net sched c) (run env' net sched c').
Proof.
  intros HA. induction sched as [|i sched IH]; intros c c' HS; simpl; [exact HS|].
  apply IH. unfold step. now apply sim_finish, sim_advance.
Qed.

Lemma sim_sent eco file cache0 pipe0 deps :
  Sim (requests_sent eco file cache0 pipe0 deps)
      (requests_sent eco file cache0 pipe0 (Versions.validPackages eco deps)).
Proof.
  pose proof (cycle_env_agree eco file cache0 deps) as HA.
  assert (HS : Sim (hits_reported eco file cache0 pipe0 deps)
                 (hits_reported eco file cache0 pipe0 (Versions.validPackages eco deps))).
  { unfold hits_reported. rewrite validPackages_idem.
    apply sim_runPipeline; [exact HA|]. split; reflexivity. }
  destruct HS as [Hd Ht Hp Hc Hb Hr Htr].
  unfold requests_sent, cycle_requests. rewrite validPackages_idem.
  split; simpl; auto.
  now rewrite !map_app, Htr.
Qed.

(** C5. Outside golang the valid packages are the collected dependencies
    whose trimmed version is made of one to four dot-separated, non-empty
    alphanumeric segments, in their order; in golang they are all the
    collected dependencies.  The requests carry the valid packages that
    missed the cache and nothing else.  The dropped dependencies leave no
    mark: the cycle on the collected dependencies and the cycle on the valid
    ones alone end with the same diagnostics and counts and emit the same
    events, up to the number of collected dependencies that the parse log
    line and the summary mention. *)
Theorem valid_packages_kept eco file deps cache0 pipe0 net sched :
  let valid := Versions.validPackages eco deps in
  let final := sendDiagnostics eco file (Deps deps) cache0 pipe0 net sched in
  let final' := sendDiagnostics eco file (Deps valid) cache0 pipe0 net sched in
  (eco <> "golang"%string ->
   valid =
   List.filter
     (fun d => Versions.well_formed_version
                 (Versions.trim (Versions.value (Versions.version d)))) deps)
  /\ (eco = "golang"%string -> valid = deps)
  /\ concat (map Slice.package_versions (cycle_requests eco cache0 deps)) =
       requestPayload (missedItems cache0 valid)
  /\ incl (missedItems cache0 valid) valid
  /\ diagnostics final = diagnostics final'
  /\ totalCount final = totalCount final'
  /\ map forget_count (trace final) = map forget_count (trace final').
Proof.
  intros valid final final'.
  split; [apply Versions.validPackages_other|].
  split; [intros ->; reflexivity|].
  split.
  { unfold cycle_requests.
    destruct (Slice.slicePayload_spec (requestPayload (missedItems cache0 valid))
                Slice.batchSize eco)
      as (reqData & Hrun & Hcat & _); [unfold Slice.batchSize; lia|].
    fold valid. now rewrite Hrun. }
  split.
  { unfold missedItems, cache_get. intros d Hd.
    apply in_map_iff in Hd as ([k v] & <- & Hk). apply filter_In in Hk as [Hk _].
    apply in_map_iff in Hk as (k' & [= <- _] & Hk'). exact Hk'. }
  assert (HS : Sim final final').
  { unfold final, final', sendDiagnostics.
    apply sim_run; [apply cycle_env_agree|].
    apply sim_finish; [apply cycle_env_agree|]. apply sim_sent. }
  destruct HS as [Hd Ht _ _ _ _ Htr]. auto.
Qed.

(** ** More on the cycle *)

(** What settling batch [i] hands to [cache.add]: the response array, or the
    status number or [undefined] of a failed request. *)
Definition cache_write (net : nat -> Outcome) (store : Cache) (i : nat) : Cache :=
  match net i with
  | HttpOk (Some respData) => cache_add store respData
  | HttpError status => cache_add_non_array store (Status status)
  | NetworkError | HttpOk None => cache_add_non_array store Undefined
  end.

(** The batches that have settled, in the order [written] they did, and the
    store they left. *)
Record Written (net : nat -> Outcome) (store0 : Cache) (c : State)
    (written : list nat) : Prop := mkWritten {
  written_nodup : List.NoDup written;
  written_settled :
    forall i, In i written <-> exists b, allRequests c !! i = Some (Settled b);
  written_cache : cache c = fold_left (cache_write net) written store0
}.

Lemma run_returned env net sched c :
  returned c = true -> forallb is_settled (allRequests c) = true ->
  run env net sched c = c.
Proof.
  intros Hr Hs. induction sched as [|i sched IH]; simpl; [reflexivity|].
  unfold step. rewrite advance_settled by exact Hs.
  now rewrite finish_returned by exact Hr.
Qed.

Lemma hits_no_summary eco file cache0 pipe0 deps :
  List.filter is_summary (trace (requests_sent eco file cache0 pipe0 deps)) = [].
Proof.
  simpl. rewrite List.filter_app.
  pose proof (hits_trace eco file cache0 pipe0 deps) as Ht. simpl in Ht. rewrite Ht.
  simpl. clear. induction (cycle_requests eco cache0 deps); simpl; auto.
Qed.

Lemma filter_quiet_summary (later : list Event) :
  Forall quiet later -> List.filter is_summary later = [].
Proof.
  induction 1 as [|e l [_ He] _ IH]; simpl; [reflexivity | now rewrite He].
Qed.

(** X15. Under every schedule, fair or not, and whatever the network does,
    a cycle has returned exactly when all its batch promises are settled;
    its trace holds the summary notification once if it has returned and
    not at all if it has not, and the summary is then its last event. *)
Theorem summary_only_when_settled eco file deps cache0 pipe0 net sched :
  let final := sendDiagnostics eco file (Deps deps) cache0 pipe0 net sched in
  returned final = forallb is_settled (allRequests final)
  /\ length (List.filter is_summary (trace final)) = (if returned final then 1 else 0)
  /\ (returned final = true ->
      exists before n,
        trace final = before ++ [ConsoleLog FetchVulnsTook; SendCaNotification n]
        /\ done n = true
        /\ diagCount n = Some (length (diagnostics final))
        /\ vulnCount n = Some (totalCount final)).
Proof.
  intros final.
  destruct (cycle_inv eco file cache0 pipe0 deps net sched) as (order & HI).
  fold final in HI.
  inversion HI as [c o HP Hrun E1 E2 | c o HP Hs E1 E2]; subst;
    destruct (pre_trace _ _ _ _ _ HP) as (later & Htr & Hq & _).
  - rewrite (pre_returned _ _ _ _ _ HP), Hrun. split; [reflexivity|].
    split; [|discriminate].
    rewrite Htr, List.filter_app, hits_no_summary, (filter_quiet_summary _ Hq).
    reflexivity.
  - simpl. rewrite Hs. split; [reflexivity|]. split.
    + rewrite Htr, !List.filter_app, hits_no_summary, (filter_quiet_summary _ Hq).
      reflexivity.
    + intros _. eexists. eexists. split; [reflexivity|]. auto.
Qed.

(** The last publish of a state's trace is for [file] and carries the
    state's [diagnostics] array. *)
Definition last_publish_current (file : string) (c : State) : Prop :=
  exists before after,
    trace c = before ++ SendDiagnostics file (diagnostics c) :: after
    /\ List.filter is_publish after = [].

Lemma last_publish_emit file evs c c' :
  last_publish_current file c ->
  List.filter is_publish evs = [] ->
  trace c' = trace c ++ evs ->
  diagnostics c' = diagnostics c ->
  last_publish_current file c'.
Proof.
  intros (before & after & Ht & Hq) Hevs Htr Hd.
  exists before, (after ++ evs). rewrite Htr, Ht, Hd, <- app_assoc.
  split; [reflexivity|]. now rewrite List.filter_app, Hq, Hevs.
Qed.

Lemma runPipeline_last_publish env respData c :
  last_publish_current (diagnosticFilePath env) (runPipeline env respData c).
Proof.
  unfold runPipeline. destruct (fold_left _ respData _) as [[ds ps] tc].
  exists (trace c), [ConsoleLog (SendDiagnosticsCount (length ds))].
  split; reflexivity.
Qed.

Lemma advance_last_publish env net i c :
  last_publish_current (diagnosticFilePath env) c ->
  last_publish_current (diagnosticFilePath env) (advance env net i c).
Proof.
  intros H. unfold advance.
  destruct (allRequests c !! i) as [ph|]; [|exact H].
  destruct (requests env !! i) as [reqData|]; [|now destruct ph].
  destruct ph as [| |v|b]; [| | |exact H].
  - unfold fetchVulnerabilities_fetched.
    destruct (net i); eapply (last_publish_emit _ _ c); eauto; reflexivity.
  - unfold fetchVulnerabilities_parsed.
    destruct (net i) as [| |[?|]]; eapply (last_publish_emit _ _ c); eauto;
      reflexivity.
  - destruct v as [respData|status|]; simpl.
    + apply runPipeline_last_publish.
    + apply (last_publish_emit _ [] c); auto. simpl. now rewrite app_nil_r.
    + apply (last_publish_emit _ [] c); auto. simpl. now rewrite app_nil_r.
Qed.

Lemma finish_last_publish env c :
  last_publish_current (diagnosticFilePath env) c ->
  last_publish_current (diagnosticFilePath env) (finish env c).
Proof.
  intros H. unfold finish. destruct (returned c); [exact H|].
  destruct (forallb is_settled (allRequests c)); [|exact H].
  eapply (last_publish_emit _ _ c); eauto; reflexivity.
Qed.

Lemma run_last_publish env net sched :
  forall c,
    last_publish_current (diagnosticFilePath env) c ->
    last_publish_current (diagnosticFilePath env) (run env net sched c).
Proof.
  induction sched as [|i sched IH]; intros c H; simpl; [exact H|].
  apply IH. unfold step. now apply finish_last_publish, advance_last_publish.
Qed.

(** X16. Among the events of one cycle whose collector succeeded, at every
    moment and under every schedule, the last publish is for the file of the
    cycle and carries its [diagnostics] array as it stands: every change of
    the array is followed by a publish of it, and no publish of the cycle
    comes after.  What another cycle publishes for the same file is not part
    of this trace. *)
Theorem editor_shows_diagnostics eco file deps cache0 pipe0 net sched :
  let final := sendDiagnostics eco file (Deps deps) cache0 pipe0 net sched in
  exists before after,
    trace final = before ++ SendDiagnostics file (diagnostics final) :: after
    /\ List.filter is_publish after = [].
Proof.
  simpl. unfold sendDiagnostics.
  apply (run_last_publish (cycle_env eco file cache0 deps) net sched).
  apply (finish_last_publish (cycle_env eco file cache0 deps)).
  eapply (last_publish_emit file (map Fetch (cycle_requests eco cache0 deps))
            (hits_reported eco file cache0 pipe0 deps)).
  - apply (runPipeline_last_publish (cycle_env eco file cache0 deps)).
  - apply filter_publish_map.
  - reflexivity.
  - reflexivity.
Qed.

(** X17. When no valid package misses the cache (in particular when nothing
    was collected), the cycle sends no request and returns at once with the
    summary: its final state is the same for every behaviour of the network
    and every schedule, and its diagnostics and counts are those of the
    cache hits. *)
Theorem no_miss_no_request eco file deps cache0 pipe0 net sched :
  missedItems cache0 (Versions.validPackages eco deps) = [] ->
  let final := sendDiagnostics eco file (Deps deps) cache0 pipe0 net sched in
  (forall net' sched',
     sendDiagnostics eco file (Deps deps) cache0 pipe0 net' sched' = final)
  /\ List.filter is_fetch (trace final) = []
  /\ returned final = true
  /\ core final = core (hits_reported eco file cache0 pipe0 deps)
  /\ cache final = cache0.
Proof.
  intros Hmiss final.
  assert (Hreq : cycle_requests eco cache0 deps = []).
  { unfold cycle_requests. now rewrite Hmiss. }
  assert (Hfin : forall net' sched',
            sendDiagnostics eco file (Deps deps) cache0 pipe0 net' sched' =
            closing (cycle_env eco file cache0 deps)
              (requests_sent eco file cache0 pipe0 deps)).
  { intros net' sched'. unfold sendDiagnostics.
    rewrite finish_closing; [|reflexivity | simpl; now rewrite Hreq].
    apply run_returned; [reflexivity | simpl; now rewrite Hreq]. }
  unfold final. rewrite (Hfin net sched).
  split; [intros net' sched'; apply Hfin|].
  split.
  { simpl. rewrite Hreq. simpl. rewrite app_nil_r, List.filter_app.
    pose proof (hits_trace eco file cache0 pipe0 deps) as Ht. simpl in Ht.
    rewrite Ht. reflexivity. }
  split; [reflexivity|]. split; [reflexivity|].
  simpl. unfold hits_reported, runPipeline.
  destruct (fold_left _ _ _) as [[ds ps] tc]. reflexivity.
Qed.

(** X18. Every valid package that misses the cache is sent to the network:
    some request of the cycle, present in its trace, lists it, with the
    package name and the version text exactly as collected; the version is
    sent as it stands in the manifest, not as trimmed for the filter. *)
Theorem missed_package_requested eco file deps cache0 pipe0 net sched d :
  In d (Versions.validPackages eco deps) ->
  cache_lookup cache0 d = None ->
  let final := sendDiagnostics eco file (Deps deps) cache0 pipe0 net sched in
  exists reqData,
    In (Fetch reqData) (trace final)
    /\ Slice.ecosystem reqData = eco
    /\ In (mkPackageVersion (Versions.value (Versions.name d))
             (Versions.value (Versions.version d)))
          (Slice.package_versions reqData).
Proof.
  intros Hd Hmiss final.
  set (valid := Versions.validPackages eco deps) in *.
  assert (Hitem : In (mkPackageVersion (Versions.value (Versions.name d))
                        (Versions.value (Versions.version d)))
                    (requestPayload (missedItems cache0 valid))).
  { unfold requestPayload. apply in_map_iff. exists d. split; [reflexivity|].
    unfold missedItems, cache_get. apply in_map_iff. exists (d, cache_lookup cache0 d).
    split; [reflexivity|]. apply filter_In. split.
    - apply in_map_iff. eauto.
    - unfold is_miss. simpl. now rewrite Hmiss. }
  destruct (Slice.slicePayload_spec (requestPayload (missedItems cache0 valid))
              Slice.batchSize eco)
    as (reqs & Hrun & Hcat & Hok); [unfold Slice.batchSize; lia|].
  assert (Hreqs : cycle_requests eco cache0 deps = reqs).
  { unfold cycle_requests. fold valid. now rewrite Hrun. }
  rewrite <- Hcat in Hitem. apply in_concat in Hitem as (l & Hl & Hin).
  apply in_map_iff in Hl as (reqData & <- & Hreq).
  exists reqData. split; [|split].
  - destruct (cycle_inv eco file cache0 pipe0 deps net sched) as (order & HI).
    fold final in HI.
    assert (Hsent : In (Fetch reqData)
                      (trace (requests_sent eco file cache0 pipe0 deps))).
    { simpl. apply in_or_app. right. rewrite Hreqs. now apply in_map. }
    inversion HI as [c o HP _ E1 E2 | c o HP _ E1 E2]; subst;
      destruct (pre_trace _ _ _ _ _ HP) as (later & Htr & _).
    + rewrite Htr. apply in_or_app. now left.
    + simpl. rewrite Htr. apply in_or_app. left. apply in_or_app. now left.
  - rewrite List.Forall_forall in Hok. now destruct (Hok reqData Hreq).
  - exact Hin.
Qed.

Lemma runPipeline_cache env respData c :
  cache (runPipeline env respData c) = cache c.
Proof. unfold runPipeline. now destruct (fold_left _ _ _) as [[? ?] ?]. Qed.

Lemma written_keep net store0 c c' written :
  allRequests c' = allRequests c -> cache c' = cache c ->
  Written net store0 c written -> Written net store0 c' written.
Proof.
  intros Hb Hc [Hnd Hset Hca]. split; [exact Hnd| |congruence].
  intros i. now rewrite Hb.
Qed.

Lemma written_unsettled net store0 c written i ph0 ph evs :
  Written net store0 c written ->
  allRequests c !! i = Some ph0 ->
  is_settled ph0 = false -> is_settled ph = false ->
  Written net store0 (set_phase i ph (emit evs c)) written.
Proof.
  intros [Hnd Hset Hca] Hi H0 H1. split; [exact Hnd| |exact Hca].
  intros j. simpl. rewrite (lookup_insert_cases _ i j ph0 ph Hi), Hset.
  destruct (Nat.eqb_spec i j) as [<-|_]; [|reflexivity].
  rewrite Hi. split; intros [b E]; injection E as ->; discriminate.
Qed.

Lemma written_settle net store0 c c1 written i v b :
  Written net store0 c written ->
  allRequests c !! i = Some (Returned v) ->
  allRequests c1 = allRequests c ->
  cache c1 = cache_write net (cache c) i ->
  Written net store0 (set_phase i (Settled b) c1) (written ++ [i]).
Proof.
  intros [Hnd Hset Hca] Hi Hb Hc.
  assert (Hni : ~ In i written).
  { rewrite Hset, Hi. intros [b' E]. discriminate. }
  split.
  - apply List.NoDup_app; auto; [repeat constructor; simpl; tauto|].
    intros a Ha [<-|[]]. contradiction.
  - intros j. simpl. rewrite Hb, (lookup_insert_cases _ i j _ (Settled b) Hi).
    rewrite in_app_iff, Hset. simpl.
    destruct (Nat.eqb_spec i j) as [<-|Hne].
    + split; eauto.
    + split; [intros [H|[H|[]]]; [exact H | contradiction] | auto].
  - simpl. rewrite fold_left_app. simpl. now rewrite <- Hca.
Qed.

(** The resumptions a batch promise takes to settle: one after [fetch], one
    after [response.json()] when the response is [ok], and the callback of
    [then]. *)
Definition resumptions (o : Outcome) : nat :=
  match o with
  | HttpOk _ => 3
  | NetworkError | HttpError _ => 2
  end.

(** Batch [i] of [n], resumed after the resumptions [earlier], settles now. *)
Definition settles (net : nat -> Outcome) (n : nat) (earlier : list nat) (i : nat)
    : list nat :=
  if Nat.ltb i n && Nat.eqb (S (occurrences i earlier)) (resumptions (net i))
  then [i] else [].

(** The batches in the order a schedule settles them, after the resumptions
    [earlier]: a batch settles at the resumption that completes its count. *)
Fixpoint settle_order (net : nat -> Outcome) (n : nat) (earlier sched : list nat)
    : list nat :=
  match sched with
  | [] => []
  | i :: rest => settles net n earlier i ++ settle_order net n (i :: earlier) rest
  end.

(** The resumptions a batch in phase [ph] has taken. *)
Definition taken (o : Outcome) (ph : Phase) : nat :=
  match ph with
  | InFlight => 0
  | ReadingBody => 1
  | Returned _ => resumptions o - 1
  | Settled _ => resumptions o
  end.

(** Every batch is where its resumptions so far have brought it. *)
Definition Paced (net : nat -> Outcome) (earlier : list nat) (c : State) : Prop :=
  forall i ph,
    allRequests c !! i = Some ph ->
    taken (net i) ph = Nat.min (occurrences i earlier) (resumptions (net i)).

Lemma resumptions_bounds o : 2 <= resumptions o <= 3.
Proof. destruct o; simpl; lia. Qed.

Lemma paced_other net earlier c c' i :
  Paced net earlier c ->
  (forall j, j <> i -> allRequests c' !! j = allRequests c !! j) ->
  (forall ph, allRequests c' !! i = Some ph ->
              taken (net i) ph
              = Nat.min (S (occurrences i earlier)) (resumptions (net i))) ->
  Paced net (i :: earlier) c'.
Proof.
  intros HP Hother Hi j ph Hj. rewrite occurrences_cons.
  destruct (Nat.eqb_spec j i) as [->|Hne].
  - now apply Hi.
  - rewrite Hother in Hj by exact Hne. now apply HP.
Qed.

Lemma paced_set net earlier c c' i ph0 ph :
  Paced net earlier c ->
  allRequests c !! i = Some ph0 ->
  allRequests c' = <[i := ph]> (allRequests c) ->
  taken (net i) ph = Nat.min (S (occurrences i earlier)) (resumptions (net i)) ->
  Paced net (i :: earlier) c'.
Proof.
  intros HP Hi Hb Ht. apply (paced_other net earlier c c' i HP).
  - intros j Hne. rewrite Hb. apply list_lookup_insert_ne. congruence.
  - intros ph' Hph. rewrite Hb, list_lookup_insert_eq in Hph
      by (now apply lookup_lt_Some in Hi).
    now injection Hph as <-.
Qed.

Lemma settles_not net n earlier i :
  S (occurrences i earlier) <> resumptions (net i) -> settles net n earlier i = [].
Proof.
  intros H. unfold settles. apply Nat.eqb_neq in H. rewrite H.
  now rewrite andb_false_r.
Qed.

Lemma settles_outside net n earlier i : n <= i -> settles net n earlier i = [].
Proof.
  intros H. unfold settles. apply Nat.ltb_ge in H. now rewrite H.
Qed.

(** A resumption of a batch that is settled, or of no batch at all. *)
Lemma paced_idle net earlier c i :
  Paced net earlier c ->
  (forall ph, allRequests c !! i = Some ph -> is_settled ph = true) ->
  settles net (length (allRequests c)) earlier i = []
  /\ Paced net (i :: earlier) c.
Proof.
  intros HP Hs. pose proof (resumptions_bounds (net i)) as Hb.
  destruct (allRequests c !! i) as [ph|] eqn:Hi.
  - specialize (Hs ph eq_refl). destruct ph as [| | |b]; try discriminate.
    pose proof (HP i _ Hi) as Ht. cbn [taken] in Ht. split.
    + apply settles_not. lia.
    + apply (paced_other net earlier c c i HP); [reflexivity|].
      intros ph Hph. rewrite Hi in Hph. injection Hph as <-. cbn [taken]. lia.
  - split.
    + apply settles_outside. now apply lookup_ge_None.
    + apply (paced_other net earlier c c i HP); [reflexivity|].
      intros ph Hph. congruence.
Qed.

Lemma written_advance env net sent store0 c order written earlier i :
  Pre env net sent c order ->
  Written net store0 c written ->
  Paced net earlier c ->
  Written net store0 (advance env net i c)
    (written ++ settles net (length (requests env)) earlier i)
  /\ Paced net (i :: earlier) (advance env net i c).
Proof.
  intros HP HW HPa. rewrite <- (pre_len _ _ _ _ _ HP).
  pose proof (resumptions_bounds (net i)) as Hb.
  unfold advance.
  destruct (allRequests c !! i) as [ph0|] eqn:Hi.
  2:{ destruct (paced_idle net earlier c i HPa) as [-> HPa'];
        [intros ph Hph; congruence|].
      now rewrite app_nil_r. }
  pose proof (lookup_lt_Some _ _ _ Hi) as Hlt.
  destruct (requests env !! i) as [reqData|] eqn:Hr.
  2:{ apply lookup_ge_None in Hr. rewrite (pre_len _ _ _ _ _ HP) in Hlt. lia. }
  pose proof (pre_phase _ _ _ _ _ HP i ph0 Hi) as Hok.
  pose proof (HPa i ph0 Hi) as Ht.
  destruct ph0 as [| |v|b].
  - cbn [taken] in Ht. rewrite settles_not, app_nil_r by lia.
    unfold fetchVulnerabilities_fetched.
    destruct (net i) eqn:En; simpl in *;
      (split;
       [now apply (written_unsettled net store0 c written i InFlight)
       |eapply (paced_set net earlier c _ i InFlight); eauto;
          rewrite En; simpl; lia]).
  - cbn [taken phase_ok] in Ht, Hok. destruct Hok as [body Hbody].
    rewrite Hbody in Ht, Hb. cbn [taken] in Ht.
    rewrite settles_not, app_nil_r by (rewrite Hbody; simpl; lia).
    unfold fetchVulnerabilities_parsed. rewrite Hbody.
    destruct body as [respData|]; simpl;
      (split;
       [now apply (written_unsettled net store0 c written i ReadingBody)
       |eapply (paced_set net earlier c _ i ReadingBody); eauto;
          rewrite Hbody; simpl; lia]).
  - assert (Hset : settles net (length (allRequests c)) earlier i = [i]).
    { unfold settles. apply Nat.ltb_lt in Hlt. rewrite Hlt. cbn [taken] in Ht.
      replace (S (occurrences i earlier)) with (resumptions (net i)) by lia.
      now rewrite Nat.eqb_refl. }
    rewrite Hset. cbn [taken phase_ok] in Ht, Hok.
    destruct v as [respData|status|]; simpl.
    + split.
      * apply (written_settle net store0 c _ written i (RespData respData)); auto.
        -- now rewrite runPipeline_batches.
        -- rewrite runPipeline_cache. simpl. unfold cache_write. now rewrite Hok.
      * eapply (paced_set net earlier c _ i); eauto.
        -- simpl. now rewrite runPipeline_batches.
        -- cbn [taken]. lia.
    + split.
      * apply (written_settle net store0 c _ written i (Status status)); auto.
        simpl. unfold cache_write. now rewrite Hok.
      * eapply (paced_set net earlier c _ i); eauto. cbn [taken]. lia.
    + split.
      * apply (written_settle net store0 c _ written i Undefined); auto.
        simpl. unfold cache_write. now destruct Hok as [-> | ->].
      * eapply (paced_set net earlier c _ i); eauto. cbn [taken]. lia.
  - destruct (paced_idle net earlier c i HPa) as [-> HPa'].
    + intros ph Hph. rewrite Hi in Hph. now injection Hph as <-.
    + now rewrite app_nil_r.
Qed.

Lemma written_finish env net store0 c written :
  Written net store0 c written -> Written net store0 (finish env c) written.
Proof.
  apply written_keep; [apply finish_batches|].
  unfold finish. destruct (returned c), (forallb is_settled (allRequests c)); reflexivity.
Qed.

Lemma paced_finish env net earlier c :
  Paced net earlier c -> Paced net earlier (finish env c).
Proof. intros H i ph. rewrite finish_batches. apply H. Qed.

Lemma written_step env net sent store0 c order written earlier i :
  Inv env net sent c order ->
  Written net store0 c written ->
  Paced net earlier c ->
  Written net store0 (step env net c i)
    (written ++ settles net (length (requests env)) earlier i)
  /\ Paced net (i :: earlier) (step env net c i).
Proof.
  intros HI HW HPa. unfold step.
  inversion HI as [c0 o HP Hrun E1 E2 | c0 o HP Hall E1 E2]; subst.
  - destruct (written_advance env net sent store0 c order written earlier i
                HP HW HPa) as [HW' HPa'].
    split; [now apply written_finish | now apply paced_finish].
  - rewrite advance_settled by exact Hall.
    rewrite finish_returned by reflexivity.
    destruct (paced_idle net earlier (closing env c0) i HPa) as [Hno HPa'].
    { intros ph Hph. exact (forallb_lookup _ _ _ _ Hall Hph). }
    change (allRequests (closing env c0)) with (allRequests c0) in Hno.
    rewrite (pre_len _ _ _ _ _ HP) in Hno. rewrite Hno, app_nil_r. auto.
Qed.

Lemma run_length env net sched :
  forall c, length (allRequests (run env net sched c)) = length (allRequests c).
Proof.
  induction sched as [|i sched IH]; intros c; simpl; [reflexivity|].
  now rewrite IH, step_length.
Qed.

Lemma written_run env net sent store0 sched :
  forall c order written earlier,
    Inv env net sent c order ->
    Written net store0 c written ->
    Paced net earlier c ->
    Written net store0 (run env net sched c)
      (written ++ settle_order net (length (requests env)) earlier sched).
Proof.
  induction sched as [|i sched IH]; intros c order written earlier HI HW HPa; simpl.
  - now rewrite app_nil_r.
  - destruct (inv_step env net sent c order i HI) as (order1 & HI1).
    destruct (written_step env net sent store0 c order written earlier i HI HW HPa)
      as [HW1 HPa1].
    rewrite app_assoc. exact (IH _ _ _ _ HI1 HW1 HPa1).
Qed.

(** X19. Write-through, for a cycle taken alone.  Whatever the network does
    and under every schedule, the cache the cycle leaves is the cache of its
    start after one [cache.add] per settled batch, in the order in which the
    schedule settled them: a batch settles at its third resumption when its
    response was [ok] and at its second otherwise, and is then written once,
    with its response array if its request succeeded.  No batch is written
    twice, the cache hits are not written back, and under a schedule that
    lets every batch settle every batch is written. *)
Theorem cache_written_once_per_batch eco file deps cache0 pipe0 net sched :
  let env := cycle_env eco file cache0 deps in
  let final := sendDiagnostics eco file (Deps deps) cache0 pipe0 net sched in
  let written := settle_order net (length (requests env)) [] sched in
  cache final = fold_left (cache_write net) written cache0
  /\ List.NoDup written
  /\ (forall i, In i written -> i < length (requests env))
  /\ (fair (length (requests env)) sched ->
      forall i, i < length (requests env) -> In i written).
Proof.
  intros env final written.
  set (sent := requests_sent eco file cache0 pipe0 deps).
  assert (HW0 : Written net cache0 (finish env sent) []).
  { apply written_finish. split; [constructor| |].
    - intros i. simpl. rewrite list_lookup_fmap.
      destruct (cycle_requests eco cache0 deps !! i); simpl;
        split; try contradiction; intros [b E]; discriminate.
    - simpl. unfold hits_reported. now rewrite runPipeline_cache. }
  assert (HP0 : Paced net [] (finish env sent)).
  { apply paced_finish. intros i ph. simpl. rewrite list_lookup_fmap.
    destruct (cycle_requests eco cache0 deps !! i); simpl; [|discriminate].
    intros [= <-]. reflexivity. }
  assert (HI0 : Inv env net sent (finish env sent) []) by apply pre_finish, pre_sent.
  pose proof (written_run env net sent cache0 sched _ _ _ _ HI0 HW0 HP0) as HW.
  change (run env net sched (finish env sent)) with final in HW.
  change ([] ++ settle_order net (length (requests env)) [] sched)
    with written in HW.
  assert (Hlen : length (allRequests final) = length (requests env)).
  { unfold final, sendDiagnostics. rewrite run_length, finish_batches.
    apply length_map. }
  destruct HW as [Hnd Hset Hca].
  split; [exact Hca|]. split; [exact Hnd|]. split.
  - intros i Hi. apply Hset in Hi as [b E]. rewrite <- Hlen.
    now apply lookup_lt_Some in E.
  - intros Hfair i Hlt.
    assert (Hall : forallb is_settled (allRequests final) = true).
    { apply fair_all_settled; [|exact Hfair]. rewrite finish_batches.
      apply length_map. }
    rewrite <- Hlen in Hlt.
    destruct (lookup_lt_is_Some_2 _ _ Hlt) as [ph Hph].
    pose proof (forallb_lookup _ _ _ _ Hall Hph) as Hs.
    apply Hset. destruct ph; try discriminate. eauto.
Qed.

End Collaborators.

(** ** A small instance

    A store that is a list of records, a dependency map that looks a
    dependency up by name and version, and an engine that reports one
    diagnostic per record whose payload, a count of known vulnerabilities,
    is positive. *)

Local Open Scope nat_scope.

Definition sample_file : string := "file:///work/package.json".

Definition sample_dep (n v : string) (line : nat) : Dependency :=
  Versions.mkDependency (Versions.mkEntry n line 4) (Versions.mkEntry v line 20).

Definition sample_same (pkg ver : string) (d : Dependency) : bool :=
  String.eqb (Versions.value (Versions.name d)) pkg
  && String.eqb (Versions.value (Versions.version d)) ver.

Definition sample_map_get (valid : list Dependency) (pkg ver : string)
    : option Dependency :=
  List.find (sample_same pkg ver) valid.

Definition sample_diagnostic (line : nat) (pkg : string) : Diagnostic :=
  CodeActions.mkDiagnostic
    (CodeActions.mkRange (CodeActions.mkPosition line 20)
       (CodeActions.mkPosition line 26))
    (Some "analytics"%string) pkg.

Definition sample_pipeline (_ : AggregatorKind) (_ : string) (ps : unit)
    (dependency : option Dependency) (r : @VulnRecord Z)
    (diags : list Diagnostic) : @PipelineRun unit :=
  match dependency with
  | Some d =>
      if (0 <? r_data r)%Z
      then mkPipelineRun
             (diags ++ [sample_diagnostic (Versions.position_line (Versions.version d))
                          (r_package r)])
             ps [mkTotalCount (r_data r) 0 0]
      else mkPipelineRun diags ps [mkTotalCount 0 0 0]
  | None => mkPipelineRun diags ps [mkTotalCount 0 0 0]
  end.

Definition sample_lookup (store : list (@VulnRecord Z)) (d : Dependency)
    : option (@VulnRecord Z) :=
  List.find (fun r => sample_same (r_package r) (r_version r) d) store.

Definition sample_add (store : list (@VulnRecord Z)) (rs : list (@VulnRecord Z))
    : list (@VulnRecord Z) :=
  rs ++ store.

Definition sample_add_non_array (store : list (@VulnRecord Z))
    (_ : @FetchResult Z) : list (@VulnRecord Z) :=
  store.

(** The cycle of the instance. *)
Definition sample_cycle (eco : string) (collected : @Collected string)
    (store : list (@VulnRecord Z)) (net : nat -> @Outcome Z) (sched : list nat)
    : @State string Z unit (list (@VulnRecord Z)) :=
  sendDiagnostics sample_map_get sample_pipeline sample_lookup sample_add
    sample_add_non_array eco sample_file collected store tt net sched.

(** Twelve dependencies, one of them in the store: eleven misses, in two
    batches. *)
Definition sample_deps : list Dependency :=
  map (fun i => sample_dep ("pkg" +:+ Js.num (Z.of_nat i)) "1.0.0" i) (seq 0 12).

Definition sample_store : list (@VulnRecord Z) := [mkVulnRecord "pkg0" "1.0.0" 1%Z].

(** The first request gets a 503, the second an array with one record. *)
Definition sample_net (i : nat) : @Outcome Z :=
  match i with
  | O => HttpError 503
  | _ => HttpOk (Some [mkVulnRecord "pkg11" "1.0.0" 2%Z])
  end.

Definition sample_sched : list nat := [1; 0; 1; 0; 1; 0].

Example sample_partial_failure :
  let final := sample_cycle "npm" (Deps sample_deps) sample_store sample_net sample_sched in
  map (fun r => length (Slice.package_versions r))
    (cycle_requests sample_lookup "npm" sample_store sample_deps) = [10; 1]
  /\ diagnostics final = [sample_diagnostic 0 "pkg0"; sample_diagnostic 11 "pkg11"]
  /\ totalCount final = mkTotalCount 3 0 0
  /\ allRequests final = [Settled false; Settled true]
  /\ List.filter is_summary (trace final) =
       [SendCaNotification
          (mkCaNotification
             "Scanned 12 dependencies, flagged 3 Known Security Vulnerabilities along with quick fixes"
             (Some 2) (Some (mkTotalCount 3 0 0)) (Some 12) true sample_file)].
Proof. vm_compute. repeat split. Qed.

(** A caret range and a pre-release tag are dropped outside golang and kept
    in golang; the one request of the npm cycle names the two others. *)
Example sample_filtered_versions :
  let deps := [sample_dep "lodash" " 4.17.21 " 3; sample_dep "express" "^4.18.2" 4;
               sample_dep "left-pad" "1.3.0-rc1" 5; sample_dep "chalk" "5.x" 6] in
  map (fun d => Versions.value (Versions.name d)) (Versions.validPackages "npm" deps)
    = ["lodash"; "chalk"]%string
  /\ Versions.validPackages "golang" deps = deps
  /\ List.filter is_fetch
       (trace (sample_cycle "npm" (Deps deps) [] (fun _ => NetworkError) [0; 0; 0]))
     = [Fetch (Slice.mkRequest "npm"
                 [mkPackageVersion "lodash" " 4.17.21 "; mkPackageVersion "chalk" "5.x"])].
Proof. vm_compute. repeat split. Qed.

Lemma failed_batch_contributes_nothing_witness :
  fair 2 sample_sched
  /\ returned (sample_cycle "npm" (Deps sample_deps) sample_store sample_net sample_sched)
     = true.
Proof.
  assert (Hfair : fair 2 sample_sched).
  { intros i Hi. destruct i as [|[|i]]; [vm_compute; lia | vm_compute; lia | lia]. }
  split; [exact Hfair|].
  destruct (failed_batch_contributes_nothing (Err := string) sample_map_get sample_pipeline
              sample_lookup sample_add sample_add_non_array
              "npm" sample_file sample_deps sample_store tt sample_net sample_sched
              Hfair)
    as (order & before & _ & _ & _ & _ & _ & _ & Hret & _).
  exact Hret.
Defined.

(** The claim as the specification words it (a parse error changes no
    diagnostics) fails: a file that showed one diagnostic shows none after
    the aborted cycle. *)
Lemma parse_error_clears_diagnostics :
  published sample_file [sample_diagnostic 3 "lodash"]
    (trace (sample_cycle "npm" (Rejected "Unexpected token }"%string) sample_store
              sample_net []))
  <> [sample_diagnostic 3 "lodash"].
Proof. vm_compute. discriminate. Qed.

Lemma no_miss_no_request_witness :
  List.filter is_fetch
    (trace (sample_cycle "npm" (Deps [sample_dep "pkg0" "1.0.0" 0]) sample_store
              sample_net sample_sched)) = [].
Proof.
  refine (proj1 (proj2 (no_miss_no_request (Err := string) sample_map_get
                          sample_pipeline sample_lookup sample_add sample_add_non_array
                          "npm" sample_file [sample_dep "pkg0" "1.0.0" 0] sample_store tt
                          sample_net sample_sched _))).
  reflexivity.
Defined.

Lemma missed_package_requested_witness :
  exists reqData,
    In (Fetch reqData)
      (trace (sample_cycle "npm" (Deps [sample_dep "lodash" " 4.17.21 " 3]) []
                sample_net []))
    /\ Slice.ecosystem reqData = "npm"%string
    /\ In (mkPackageVersion "lodash" " 4.17.21 ") (Slice.package_versions reqData).
Proof.
  refine (missed_package_requested (Err := string) sample_map_get sample_pipeline
            sample_lookup sample_add sample_add_non_array
            "npm" sample_file [sample_dep "lodash" " 4.17.21 " 3] [] tt sample_net []
            (sample_dep "lodash" " 4.17.21 " 3) _ _).
  - vm_compute. left. reflexivity.
  - reflexivity.
Defined.

(** The sample schedule resumes batch 1 first, yet batch 0, whose request
    fails, settles first, at its second resumption; batch 1 settles at its
    third. *)
Example sample_settle_order :
  settle_order sample_net 2 [] sample_sched = [0; 1]
  /\ cache (sample_cycle "npm" (Deps sample_deps) sample_store sample_net sample_sched)
     = fold_left (cache_write sample_add sample_add_non_array sample_net) [0; 1]
         sample_store.
Proof. vm_compute. split; reflexivity. Qed.

End Cycle.

(** ** File handlers: [AnalysisFiles] and [AnalysisLSPServer]

    A handler pairs a stream, a pattern and a callback.  The patterns the
    server registers are anchored at both ends, so a handler's pattern is
    kept as the pattern between [^] and [$] and [matcher.test(file)] is a
    match of the whole file name.  The callbacks return nothing; what a
    handler does is what its callback calls, so [run] yields the effects of
    the callback it invoked, or [None] when it invoked none. *)

Module Files.

Import Versions.

(** [enum EventStream]. *)
Inductive EventStream :=
| Invalid
| Diagnostics
| CodeLens.

Definition stream_eqb (a b : EventStream) : bool :=
  match a, b with
  | Invalid, Invalid | Diagnostics, Diagnostics | CodeLens, CodeLens => true
  | _, _ => false
  end.

(** [class AnalysisFileHandler]; the callback takes [(uri, name, contents)],
    [contents] being a string or [undefined]. *)
Record AnalysisFileHandler (R : Type) := mkHandler {
  matcher : Regex;
  stream : EventStream;
  callback : string -> string -> option string -> R
}.
Arguments mkHandler {R} _ _ _.
Arguments matcher {R} _.
Arguments stream {R} _.
Arguments callback {R} _.

(** [AnalysisFiles.on]: push a handler at the end. *)
Definition on {R} (st : EventStream) (m : Regex)
    (cb : string -> string -> option string -> R)
    (handlers : list (AnalysisFileHandler R)) : list (AnalysisFileHandler R) :=
  handlers ++ [mkHandler m st cb].

(** [AnalysisFiles.run]: the first handler of the stream whose pattern
    accepts the file name is called; no such handler, nothing is called. *)
Fixpoint run {R} (st : EventStream) (uri file : string) (contents : option string)
    (handlers : list (AnalysisFileHandler R)) : option R :=
  match handlers with
  | [] => None
  | handler :: rest =>
      if stream_eqb (stream handler) st && matches (matcher handler) file
      then Some (callback handler uri file contents)
      else run st uri file contents rest
  end.

(** A pattern of literal characters, as in [package\.json]. *)
Fixpoint lit (s : string) : Regex :=
  match s with
  | EmptyString => Eps
  | String c s' => Seq (Chr c) (lit s')
  end.

(** The collector classes the callbacks instantiate; [GoMod] is built on the
    uri. *)
Inductive Collector :=
| PackageJson
| PomXml
| RequirementsTxt
| GoMod (uri : string).

(** What a registered callback does: the go.mod one logs the golang
    executable first; each calls [sendDiagnostics]. *)
Inductive Effect :=
| LogGolangExecutable
| CallSendDiagnostics (ecosystem diagnosticFilePath : string)
    (contents : option string) (collector : Collector).

(** The four [files.on(EventStream.Diagnostics, ...)] of the server, in
    their order. *)
Definition files : list (AnalysisFileHandler (list Effect)) :=
  on Diagnostics (lit "go.mod")
    (fun uri name contents =>
       [LogGolangExecutable; CallSendDiagnostics "golang" uri contents (GoMod uri)])
  (on Diagnostics (lit "requirements.txt")
    (fun uri name contents => [CallSendDiagnostics "pypi" uri contents RequirementsTxt])
  (on Diagnostics (lit "pom.xml")
    (fun uri name contents => [CallSendDiagnostics "maven" uri contents PomXml])
  (on Diagnostics (lit "package.json")
    (fun uri name contents => [CallSendDiagnostics "npm" uri contents PackageJson])
  []))).

(** How a call ends: it returns a value, or it throws. *)
Inductive Completion (A : Type) :=
| Normal (a : A)
| Throws.
Arguments Normal {A} _.
Arguments Throws {A}.

(** [this.files.file_data[uri] = contents], where [contents] may be
    [undefined]. *)
Definition set_file_data (uri : string) (contents : option string)
    (m : gmap string string) : gmap string string :=
  match contents with
  | Some text => <[uri := text]> m
  | None => delete uri m
  end.

Section Server.

(** [path.basename(url.parse(uri).pathname)], of Node's [url] and [path]:
    the file name of the uri, or [None] when the uri has no path.  Its
    [pathname] is then [null], and [path.basename] throws a [TypeError] on
    it. *)
Variable file_name_of : string -> option string.

(** [AnalysisLSPServer.handle_file_event]: take the file name of the uri,
    store the contents, then run the diagnostics handlers.  An exception of
    the first step leaves the method before anything is stored or run. *)
Definition handle_file_event (uri : string) (contents : option string)
    (file_data : gmap string string)
    : Completion (gmap string string * option (list Effect)) :=
  match file_name_of uri with
  | Some file_name =>
      let file_data := set_file_data uri contents file_data in
      Normal (file_data, run Diagnostics uri file_name contents files)
  | None => Throws
  end.

(** [AnalysisLSPServer.handle_code_lens_event]: take the file name of the
    uri, then run the code-lens handlers on the stored contents. *)
Definition handle_code_lens_event (uri : string) (file_data : gmap string string)
    : Completion (option (list Effect)) :=
  match file_name_of uri with
  | Some file_name =>
      let contents := file_data !! uri in
      Normal (run CodeLens uri file_name contents files)
  | None => Throws
  end.

End Server.

(** ** Properties of the handlers *)

Lemma stream_eqb_eq a b : stream_eqb a b = true <-> a = b.
Proof. destruct a, b; simpl; split; congruence. Qed.

Lemma Lang_lit s t : Lang (lit s) t <-> t = s.
Proof.
  revert t. induction s as [|c s IH]; intros t; simpl.
  - split; [apply Lang_eps_inv | intros ->; constructor].
  - split.
    + intros H. apply Lang_seq_inv in H as (s1 & s2 & -> & H1 & H2).
      apply Lang_class_inv in H1 as (c' & -> & Hc).
      apply Ascii.eqb_eq in Hc as <-. apply IH in H2 as ->. reflexivity.
    + intros ->. change (String c s) with (String c "" +:+ s).
      constructor; [constructor; apply Ascii.eqb_refl | now apply IH].
Qed.

Lemma matches_lit s t : matches (lit s) t = String.eqb t s.
Proof.
  apply eq_true_iff_eq. rewrite matches_Lang, Lang_lit. symmetry.
  apply String.eqb_eq.
Qed.

Lemma run_app {R} st uri file contents (hs1 hs2 : list (AnalysisFileHandler R)) :
  run st uri file contents (hs1 ++ hs2) =
  match run st uri file contents hs1 with
  | Some r => Some r
  | None => run st uri file contents hs2
  end.
Proof.
  induction hs1 as [|h hs1 IH]; simpl; [reflexivity|].
  now destruct (stream_eqb (stream h) st && matches (matcher h) file).
Qed.

(** X3. Handlers are tried in the order they were registered and the first
    one of the stream that accepts the file name is the one called: a
    handler registered with [on] is called only when no earlier handler is,
    the stream is its own and its pattern accepts the file name. *)
Theorem run_first_registered {R} (st st' : EventStream) (m : Regex)
    (cb : string -> string -> option string -> R)
    (handlers : list (AnalysisFileHandler R)) (uri file : string)
    (contents : option string) :
  run st uri file contents (on st' m cb handlers) =
  match run st uri file contents handlers with
  | Some r => Some r
  | None =>
      if stream_eqb st' st && matches m file
      then Some (cb uri file contents) else None
  end.
Proof. unfold on. rewrite run_app. reflexivity. Qed.

Lemma files_dispatch st uri file contents :
  run st uri file contents files =
  if negb (stream_eqb Diagnostics st) then None
  else if String.eqb file "package.json"
  then Some [CallSendDiagnostics "npm" uri contents PackageJson]
  else if String.eqb file "pom.xml"
  then Some [CallSendDiagnostics "maven" uri contents PomXml]
  else if String.eqb file "requirements.txt"
  then Some [CallSendDiagnostics "pypi" uri contents RequirementsTxt]
  else if String.eqb file "go.mod"
  then Some [LogGolangExecutable; CallSendDiagnostics "golang" uri contents (GoMod uri)]
  else None.
Proof.
  unfold files, on. rewrite !run_app. cbn [run app matcher stream callback].
  rewrite !matches_lit.
  destruct (stream_eqb Diagnostics st); simpl; [|reflexivity].
  destruct (String.eqb file "package.json"); [reflexivity|].
  destruct (String.eqb file "pom.xml"); [reflexivity|].
  destruct (String.eqb file "requirements.txt"); [reflexivity|].
  destruct (String.eqb file "go.mod"); reflexivity.
Qed.

Lemma files_other uri file contents :
  ~ In file ["package.json"; "pom.xml"; "requirements.txt"; "go.mod"]%string ->
  run Diagnostics uri file contents files = None.
Proof.
  intros Hnot. rewrite files_dispatch. cbn [stream_eqb negb]. simpl in Hnot.
  destruct (String.eqb_spec file "package.json") as [E|_];
    [exfalso; apply Hnot; symmetry in E; tauto|].
  destruct (String.eqb_spec file "pom.xml") as [E|_];
    [exfalso; apply Hnot; symmetry in E; tauto|].
  destruct (String.eqb_spec file "requirements.txt") as [E|_];
    [exfalso; apply Hnot; symmetry in E; tauto|].
  destruct (String.eqb_spec file "go.mod") as [E|_];
    [exfalso; apply Hnot; symmetry in E; tauto|].
  reflexivity.
Qed.

(** X4. A file event on a uri without a path throws before anything is
    stored or called.  On a uri with a path the contents are stored, and an
    analysis is started exactly for the four manifest names, matched against
    the whole file name and with the matching ecosystem and collector:
    package.json gives npm, pom.xml maven, requirements.txt pypi and go.mod
    golang; for any other name nothing is called. *)
Theorem handle_file_event_dispatch (file_name_of : string -> option string)
    (uri : string) (contents : option string) (file_data : gmap string string) :
  (file_name_of uri = None ->
   handle_file_event file_name_of uri contents file_data = Throws)
  /\ (forall file, file_name_of uri = Some file ->
      exists called,
        handle_file_event file_name_of uri contents file_data =
          Normal (match contents with
                  | Some text => <[uri := text]> file_data
                  | None => delete uri file_data
                  end, called)
        /\ (file = "package.json"%string ->
            called = Some [CallSendDiagnostics "npm" uri contents PackageJson])
        /\ (file = "pom.xml"%string ->
            called = Some [CallSendDiagnostics "maven" uri contents PomXml])
        /\ (file = "requirements.txt"%string ->
            called = Some [CallSendDiagnostics "pypi" uri contents RequirementsTxt])
        /\ (file = "go.mod"%string ->
            called = Some [LogGolangExecutable;
                           CallSendDiagnostics "golang" uri contents (GoMod uri)])
        /\ (~ In file ["package.json"; "pom.xml"; "requirements.txt"; "go.mod"]%string ->
            called = None)).
Proof.
  unfold handle_file_event. split; [now intros ->|].
  intros file ->. cbn zeta. eexists. split; [reflexivity|].
  repeat split; try (intros ->; reflexivity).
  apply files_other.
Qed.

(** X5. No handler is registered on the code-lens stream: a code-lens event
    on a uri with a path calls nothing and yields [undefined], whatever is
    stored for the document; on a uri without a path it throws. *)
Theorem handle_code_lens_event_nothing (file_name_of : string -> option string)
    (uri : string) (file_data : gmap string string) :
  handle_code_lens_event file_name_of uri file_data =
  match file_name_of uri with
  | Some _ => Normal None
  | None => Throws
  end.
Proof.
  unfold handle_code_lens_event. destruct (file_name_of uri); [|reflexivity].
  cbn zeta. now rewrite files_dispatch.
Qed.

Example dispatch_samples :
  map (fun f => option_map (@length Effect) (run Diagnostics "u" f None files))
    ["package.json"; "package.json.bak"; "Package.json"; "packageXjson"; "go.mod";
     "pom.xml"; "requirements.txt"; "requirements-dev.txt"; ""]%string
  = [Some 1; None; None; None; Some 2; Some 1; Some 1; None; None]%nat.
Proof. vm_compute. reflexivity. Qed.

End Files.

(** ** Document events and the debounce timer, [checkDelay]

    Time is a count of milliseconds.  [setTimeout(f, 500)] at time [t] adds
    to the pending timers of the runtime one that is due at [t + 500], and
    returns its handle; [clearTimeout(h)] removes the timer of handle [h] if
    it is still pending, and does nothing otherwise.  The variable
    [checkDelay] holds a handle, not a timer: a timer that is not cleared
    stays pending whatever [checkDelay] becomes.  The event loop runs the
    due timers before it delivers an event that arrives at or after their
    due time.

    An exception leaves the notification handler or the timer callback that
    raised it.  Whether the process lives on is decided outside of the
    server module, by the connection library and the runtime; [fatal] tells
    it for each of the two places, and every property below holds for both
    answers. *)

Module Debounce.

Import Files.

Local Open Scope nat_scope.

Inductive LspEvent :=
| DidOpen (uri text : string)
| DidChange (uri text : string)
| DidSave (uri : string)
| DidClose (uri : string).

(** A pending timer of the runtime: the handle [setTimeout] returned for it,
    when it is due, and the [uri] its callback captured. *)
Record Timer := mkTimer { timer_id : nat; due : nat; timer_uri : string }.

(** [server.files.file_data]; the global [checkDelay], [None] while it is
    [undefined]; the pending timers of the runtime, oldest first; the number
    of handles given out; whether the process is running. *)
Record Server := mkServer {
  file_data : gmap string string;
  checkDelay : option nat;
  timers : list Timer;
  next_timer : nat;
  running : bool
}.

(** The server when the module has been loaded. *)
Definition start : Server := mkServer ∅ None [] 0 true.

(** One call of [server.handle_file_event(uri, contents)]: when, with which
    arguments, and how it ended: [Normal called] with what [files.run]
    called, or [Throws]. *)
Record Analysis := mkAnalysis {
  at_time : nat;
  analysed_uri : string;
  contents : option string;
  called : Completion (option (list Effect))
}.

(** The quiescence window of [onDidChangeTextDocument]. *)
Definition window : nat := 500.

(** Where an exception can leave the code of the server. *)
Inductive ThrowSite :=
| InNotification
| InTimer.

(** [clearTimeout(h)]. *)
Definition clearTimeout (h : option nat) (s : Server) : Server :=
  match h with
  | Some id =>
      mkServer (file_data s) (checkDelay s)
        (List.filter (fun tm => negb (Nat.eqb (timer_id tm) id)) (timers s))
        (next_timer s) (running s)
  | None => s
  end.

(** [setTimeout(callback, delay)] at time [now], for a callback that
    captured [uri]; the handle is the second component. *)
Definition setTimeout (now delay : nat) (uri : string) (s : Server)
    : Server * nat :=
  (mkServer (file_data s) (checkDelay s)
     (timers s ++ [mkTimer (next_timer s) (now + delay) uri])
     (S (next_timer s)) (running s),
   next_timer s).

Definition stop (s : Server) : Server :=
  mkServer (file_data s) (checkDelay s) (timers s) (next_timer s) false.

Definition is_due (now : nat) (tm : Timer) : bool := due tm <=? now.

(** Edits that follow an edit at time [t], each within the window of the
    one before. *)
Fixpoint within_window (t : nat) (edits : list (nat * string)) : Prop :=
  match edits with
  | [] => True
  | (t', _) :: rest => t <= t' /\ t' < t + window /\ within_window t' rest
  end.

Definition edit_events (uri : string) (edits : list (nat * string))
    : list (nat * LspEvent) :=
  map (fun e => (fst e, DidChange uri (snd e))) edits.

(** No timer of the runtime is due by [t]. *)
Definition nothing_due (t : nat) (s : Server) : Prop :=
  forall tm, In tm (timers s) -> t < due tm.

(** At most one timer is pending, and [checkDelay] holds its handle. *)
Definition tidy (s : Server) : Prop :=
  timers s = [] \/ exists tm, timers s = [tm] /\ checkDelay s = Some (timer_id tm).

(** An edit of any document: when, which document, the new text. *)
Record Edit := mkEdit { edit_time : nat; edit_uri : string; edit_text : string }.

(** Edits that follow one at time [t], each within the window of the one
    before. *)
Fixpoint chained (t : nat) (edits : list Edit) : Prop :=
  match edits with
  | [] => True
  | e :: rest =>
      t <= edit_time e /\ edit_time e < t + window /\ chained (edit_time e) rest
  end.

Definition change_events (edits : list Edit) : list (nat * LspEvent) :=
  map (fun e => (edit_time e, DidChange (edit_uri e) (edit_text e))) edits.

(** Events that call [handle_file_event] at once or set a timer that may. *)
Definition is_trigger (ev : nat * LspEvent) : bool :=
  match snd ev with DidClose _ => false | _ => true end.

(** The number of pending timers. *)
Definition pending (s : Server) : nat := length (timers s).

(** The calls of [sendDiagnostics], and the log line of the go.mod handler,
    behind a list of analyses, in order. *)
Definition cycles_of (analyses : list Analysis) : list Effect :=
  concat
    (omap (fun a =>
             match called a with
             | Normal (Some effects) => Some effects
             | Normal None | Throws => None
             end)
       analyses).

Section Runtime.

(** The file name of a uri, as in [Files], and whether an exception that
    leaves the server's code at a site ends the process. *)
Variable file_name_of : string -> option string.
Variable fatal : ThrowSite -> bool.

(** [server.handle_file_event(uri, contents)] called at time [now]; the
    boolean tells whether it threw. *)
Definition handle_file_event_at (now : nat) (uri : string)
    (contents : option string) (s : Server) : Server * list Analysis * bool :=
  match Files.handle_file_event file_name_of uri contents (file_data s) with
  | Normal (file_data', called) =>
      (mkServer file_data' (checkDelay s) (timers s) (next_timer s) (running s),
       [mkAnalysis now uri contents (Normal called)], false)
  | Throws => (s, [mkAnalysis now uri contents Throws], true)
  end.

Definition onDidSaveTextDocument (now : nat) (uri : string) (s : Server)
    : Server * list Analysis * bool :=
  let s := clearTimeout (checkDelay s) s in
  handle_file_event_at now uri (file_data s !! uri) s.

Definition onDidChangeTextDocument (now : nat) (uri text : string) (s : Server)
    : Server * list Analysis * bool :=
  let s :=
    mkServer (<[uri := text]> (file_data s)) (checkDelay s) (timers s)
      (next_timer s) (running s) in
  let s := clearTimeout (checkDelay s) s in
  let '(s, h) := setTimeout now window uri s in
  (mkServer (file_data s) (Some h) (timers s) (next_timer s) (running s), [], false).

Definition onDidOpenTextDocument (now : nat) (uri text : string) (s : Server)
    : Server * list Analysis * bool :=
  handle_file_event_at now uri (Some text) s.

Definition onDidCloseTextDocument (s : Server) : Server * list Analysis * bool :=
  (clearTimeout (checkDelay s) s, [], false).

Definition handle (now : nat) (ev : LspEvent) (s : Server)
    : Server * list Analysis * bool :=
  match ev with
  | DidOpen uri text => onDidOpenTextDocument now uri text s
  | DidChange uri text => onDidChangeTextDocument now uri text s
  | DidSave uri => onDidSaveTextDocument now uri s
  | DidClose _ => onDidCloseTextDocument s
  end.

(** The server after an exception, if any, has left its code at [site]. *)
Definition leave (site : ThrowSite) (threw : bool) (s : Server) : Server :=
  if threw && fatal site then stop s else s.

(** A notification arrives. *)
Definition receive (now : nat) (ev : LspEvent) (s : Server)
    : Server * list Analysis :=
  if running s then
    let '(s', calls, threw) := handle now ev s in
    (leave InNotification threw s', calls)
  else (s, []).

(** The callbacks of the timers that have become due, oldest first. *)
Fixpoint run_timers (due_now : list Timer) (s : Server)
    : Server * list Analysis :=
  match due_now with
  | [] => (s, [])
  | tm :: rest =>
      if running s then
        let '(s1, a1, threw) :=
          handle_file_event_at (due tm) (timer_uri tm)
            (file_data s !! timer_uri tm) s in
        let '(s2, a2) := run_timers rest (leave InTimer threw s1) in
        (s2, a1 ++ a2)
      else (s, [])
  end.

(** The timers due by [now] leave the pending ones and run. *)
Definition fire_due (now : nat) (s : Server) : Server * list Analysis :=
  run_timers (List.filter (is_due now) (timers s))
    (mkServer (file_data s) (checkDelay s)
       (List.filter (fun tm => negb (is_due now tm)) (timers s))
       (next_timer s) (running s)).

(** The server over a list of events with their arrival times. *)
Fixpoint deliver (s : Server) (evs : list (nat * LspEvent))
    : Server * list Analysis :=
  match evs with
  | [] => (s, [])
  | (now, ev) :: rest =>
      let '(s1, a1) := fire_due now s in
      let '(s2, a2) := receive now ev s1 in
      let '(s3, a3) := deliver s2 rest in
      (s3, a1 ++ a2 ++ a3)
  end.

(** The analyses started up to time [horizon], no event arriving after the
    listed ones. *)
Definition analyses_until (horizon : nat) (s : Server)
    (evs : list (nat * LspEvent)) : list Analysis :=
  let '(s1, a1) := deliver s evs in
  a1 ++ snd (fire_due horizon s1).

(** How [handle_file_event(uri, contents)] ends. *)
Definition outcome (uri : string) (contents : option string)
    : Completion (option (list Effect)) :=
  match file_name_of uri with
  | Some file => Normal (run Diagnostics uri file contents files)
  | None => Throws
  end.

Definition has_path (uri : string) : bool :=
  match file_name_of uri with Some _ => true | None => false end.

(** The text of the last edit of [uri], or of its last open that got to
    store it, among the events; or what was stored before them. *)
Fixpoint last_text (uri : string) (before : option string)
    (evs : list (nat * LspEvent)) : option string :=
  match evs with
  | [] => before
  | (_, DidOpen u text) :: rest =>
      last_text uri
        (if String.eqb u uri && has_path u then Some text else before) rest
  | (_, DidChange u text) :: rest =>
      last_text uri (if String.eqb u uri then Some text else before) rest
  | _ :: rest => last_text uri before rest
  end.

(** ** Properties of the debounce *)

Lemma set_file_data_id (u : string) (m : gmap string string) :
  set_file_data u (m !! u) m = m.
Proof.
  unfold set_file_data. destruct (m !! u) as [text|] eqn:E.
  - now apply insert_id.
  - now apply delete_id.
Qed.

Lemma handle_file_event_at_eq now uri contents s :
  handle_file_event_at now uri contents s =
  (if has_path uri
   then mkServer (set_file_data uri contents (file_data s)) (checkDelay s)
          (timers s) (next_timer s) (running s)
   else s,
   [mkAnalysis now uri contents (outcome uri contents)],
   negb (has_path uri)).
Proof.
  unfold handle_file_event_at, Files.handle_file_event, has_path, outcome.
  now destruct (file_name_of uri).
Qed.

Lemma server_eta s :
  mkServer (file_data s) (checkDelay s) (timers s) (next_timer s) (running s) = s.
Proof. now destruct s. Qed.

(** The callback of a timer, or a save, hands back the stored text: the
    store is left as it is. *)
Lemma handle_file_event_at_stored now uri s :
  handle_file_event_at now uri (file_data s !! uri) s =
  (s, [mkAnalysis now uri (file_data s !! uri) (outcome uri (file_data s !! uri))],
   negb (has_path uri)).
Proof.
  rewrite handle_file_event_at_eq, set_file_data_id, server_eta.
  now destruct (has_path uri).
Qed.

Lemma filter_none {A} (p : A -> bool) (l : list A) :
  (forall x, In x l -> p x = false) ->
  List.filter p l = [] /\ List.filter (fun x => negb (p x)) l = l.
Proof.
  induction l as [|x l IH]; intros H; simpl; [auto|].
  rewrite (H x) by (now left). simpl.
  destruct IH as [-> ->]; [intros y Hy; apply H; now right | auto].
Qed.

Lemma filter_split_length {A} (p : A -> bool) (l : list A) :
  length (List.filter p l) + length (List.filter (fun x => negb (p x)) l)
  = length l.
Proof.
  induction l as [|x l IH]; simpl; [reflexivity|].
  destruct (p x); simpl; lia.
Qed.

Lemma fire_due_idle now s : nothing_due now s -> fire_due now s = (s, []).
Proof.
  unfold nothing_due, fire_due. intros H.
  destruct (filter_none (is_due now) (timers s)) as [-> ->].
  - intros tm Htm. specialize (H tm Htm). unfold is_due.
    destruct (Nat.leb_spec (due tm) now); [lia | reflexivity].
  - simpl. now rewrite server_eta.
Qed.

Lemma leave_timers site threw s : timers (leave site threw s) = timers s.
Proof. unfold leave. now destruct (threw && fatal site). Qed.

Lemma leave_file_data site threw s : file_data (leave site threw s) = file_data s.
Proof. unfold leave. now destruct (threw && fatal site). Qed.

Lemma leave_checkDelay site threw s : checkDelay (leave site threw s) = checkDelay s.
Proof. unfold leave. now destruct (threw && fatal site). Qed.

Lemma leave_false site s : leave site false s = s.
Proof. reflexivity. Qed.

(** One pending timer that is due: its callback is the only thing that
    runs. *)
Lemma fire_due_one now fd cd id t uri nid :
  t <= now ->
  snd (fire_due now (mkServer fd cd [mkTimer id t uri] nid true)) =
  [mkAnalysis t uri (fd !! uri) (outcome uri (fd !! uri))].
Proof.
  intros Hle. unfold fire_due, is_due. cbn [timers List.filter due].
  destruct (Nat.leb_spec t now); [|lia].
  cbn [negb run_timers running file_data due timer_uri].
  change (fd !! uri) with
    (file_data (mkServer fd cd [] nid true) !! uri) at 1.
  rewrite handle_file_event_at_stored. reflexivity.
Qed.

(** An edit in a state with the one timer of [checkDelay] pending. *)
Lemma change_replaces_timer now u text fd id tm nid r :
  timer_id tm = id ->
  handle now (DidChange u text) (mkServer fd (Some id) [tm] nid r) =
  (mkServer (<[u := text]> fd) (Some nid) [mkTimer nid (now + window) u] (S nid) r,
   [], false).
Proof.
  intros <-. cbn [handle]. unfold onDidChangeTextDocument, clearTimeout, setTimeout.
  cbn [file_data checkDelay timers next_timer running List.filter].
  now rewrite Nat.eqb_refl.
Qed.

Lemma last_default {A} (l : list A) (b d d' : A) :
  List.last (b :: l) d = List.last (b :: l) d'.
Proof.
  revert b. induction l as [|c l IH]; intros b; [reflexivity|].
  change (List.last (c :: l) d = List.last (c :: l) d'). apply IH.
Qed.

Lemma last_cons {A} (l : list A) (a d : A) :
  List.last (a :: l) d = List.last l a.
Proof.
  destruct l as [|b l]; [reflexivity|].
  change (List.last (b :: l) d = List.last (b :: l) a). apply last_default.
Qed.

(** After an edit of any document, later edits within the window leave one
    timer, the one of the last edit; its callback is the only call. *)
Lemma chained_one_analysis horizon :
  forall edits e0 fd id nid,
    fd !! edit_uri e0 = Some (edit_text e0) ->
    chained (edit_time e0) edits ->
    edit_time (List.last edits e0) + window <= horizon ->
    analyses_until horizon
      (mkServer fd (Some id) [mkTimer id (edit_time e0 + window) (edit_uri e0)] nid true)
      (change_events edits) =
    [mkAnalysis (edit_time (List.last edits e0) + window)
       (edit_uri (List.last edits e0)) (Some (edit_text (List.last edits e0)))
       (outcome (edit_uri (List.last edits e0))
          (Some (edit_text (List.last edits e0))))].
Proof.
  induction edits as [|e rest IH]; intros e0 fd id nid Hx Hw Hh.
  - unfold analyses_until. cbn [change_events map deliver app List.last] in *.
    rewrite fire_due_one by exact Hh. now rewrite Hx.
  - destruct Hw as (Hle & Hlt & Hw).
    rewrite (last_cons rest e e0) in Hh |- *.
    unfold analyses_until. cbn [change_events map deliver].
    rewrite fire_due_idle
      by (intros tm [<-|[]]; cbn [due]; lia).
    unfold receive. cbn [running].
    rewrite change_replaces_timer by reflexivity. rewrite leave_false.
    specialize (IH e (<[edit_uri e := edit_text e]> fd) nid (S nid)
                  (lookup_insert_eq _ _ _) Hw Hh).
    unfold analyses_until in IH. fold (change_events rest).
    destruct (deliver _ (change_events rest)) as [s3 a3]. exact IH.
Qed.

Lemma edit_events_change uri edits :
  edit_events uri edits =
  change_events (map (fun e => mkEdit (fst e) uri (snd e)) edits).
Proof.
  unfold edit_events, change_events. rewrite map_map. reflexivity.
Qed.

Lemma within_window_chained uri edits :
  forall t, within_window t edits ->
            chained t (map (fun e => mkEdit (fst e) uri (snd e)) edits).
Proof.
  induction edits as [|[t' x'] rest IH]; intros t H; simpl; [exact I|].
  destruct H as (H1 & H2 & H3). auto.
Qed.

Lemma last_map {A B} (f : A -> B) (l : list A) (d : A) :
  List.last (map f l) (f d) = f (List.last l d).
Proof.
  induction l as [|a l IH]; [reflexivity|].
  destruct l as [|b l]; [reflexivity|]. exact IH.
Qed.

(** A first edit in a tidy state leaves its timer alone. *)
Lemma first_edit now u text s :
  tidy s ->
  handle now (DidChange u text) s =
  (mkServer (<[u := text]> (file_data s)) (Some (next_timer s))
     [mkTimer (next_timer s) (now + window) u] (S (next_timer s)) (running s),
   [], false).
Proof.
  intros [Hno | (tm & Htm & Hcd)]; destruct s as [fd cd tms nid r];
    cbn [timers checkDelay file_data next_timer running] in *; subst.
  - cbn [handle]. unfold onDidChangeTextDocument, clearTimeout, setTimeout.
    cbn [file_data checkDelay timers next_timer running].
    destruct cd; reflexivity.
  - now apply change_replaces_timer.
Qed.

Lemma edits_from_idle (e0 : Edit) (more : list Edit) (horizon : nat) (s : Server) :
  tidy s ->
  running s = true ->
  nothing_due (edit_time e0) s ->
  chained (edit_time e0) more ->
  edit_time (List.last more e0) + window <= horizon ->
  analyses_until horizon s (change_events (e0 :: more)) =
    [mkAnalysis (edit_time (List.last more e0) + window)
       (edit_uri (List.last more e0)) (Some (edit_text (List.last more e0)))
       (outcome (edit_uri (List.last more e0))
          (Some (edit_text (List.last more e0))))].
Proof.
  intros Htidy Hrun Hidle Hw Hh.
  unfold analyses_until. cbn [change_events map deliver].
  rewrite (fire_due_idle _ s Hidle).
  unfold receive. rewrite Hrun, (first_edit _ _ _ s Htidy), leave_false, Hrun.
  pose proof (chained_one_analysis horizon more e0
                (<[edit_uri e0 := edit_text e0]> (file_data s))
                (next_timer s) (S (next_timer s))
                (lookup_insert_eq _ _ _) Hw Hh) as H.
  unfold analyses_until in H. fold (change_events more).
  destruct (deliver _ (change_events more)) as [s3 a3]. exact H.
Qed.

Lemma edits_of_one_from_idle (uri : string) (t : nat) (x : string)
    (more : list (nat * string)) (horizon : nat) (s : Server) :
  tidy s ->
  running s = true ->
  nothing_due t s ->
  within_window t more ->
  fst (List.last more (t, x)) + window <= horizon ->
  analyses_until horizon s (edit_events uri ((t, x) :: more)) =
    [mkAnalysis (fst (List.last more (t, x)) + window) uri
       (Some (snd (List.last more (t, x))))
       (outcome uri (Some (snd (List.last more (t, x)))))].
Proof.
  intros Htidy Hrun Hidle Hw Hh.
  rewrite edit_events_change. cbn [map fst snd].
  pose proof (last_map (fun e => mkEdit (fst e) uri (snd e)) more (t, x)) as HL.
  cbn [fst snd] in HL.
  rewrite (edits_from_idle (mkEdit t uri x) _ horizon s Htidy Hrun Hidle
             (within_window_chained uri more t Hw));
    rewrite HL; [reflexivity | exact Hh].
Qed.

Lemma clear_tidy s :
  tidy s -> timers (clearTimeout (checkDelay s) s) = [].
Proof.
  intros [Hno | (tm & Htm & Hcd)]; destruct s as [fd cd tms nid r];
    cbn [timers checkDelay] in *; subst.
  - destruct cd; reflexivity.
  - cbn. now rewrite Nat.eqb_refl.
Qed.

Lemma clear_tidy_eq s :
  tidy s ->
  clearTimeout (checkDelay s) s =
  mkServer (file_data s) (checkDelay s) [] (next_timer s) (running s).
Proof.
  intros H. pose proof (clear_tidy s H) as Hc. destruct s as [fd cd tms nid r].
  unfold clearTimeout in *. cbn [file_data checkDelay timers next_timer running] in *.
  destruct cd as [id|]; cbn [timers] in Hc; now rewrite Hc.
Qed.

Lemma handle_file_event_at_tidy now uri contents s :
  tidy s -> tidy (fst (fst (handle_file_event_at now uri contents s))).
Proof.
  rewrite handle_file_event_at_eq. cbn [fst]. now destruct (has_path uri).
Qed.

Lemma leave_tidy site threw s : tidy s -> tidy (leave site threw s).
Proof. unfold leave. now destruct (threw && fatal site). Qed.

Lemma handle_tidy now ev s : tidy s -> tidy (fst (fst (handle now ev s))).
Proof.
  intros H. destruct ev as [u text|u text|u|u].
  - now apply handle_file_event_at_tidy.
  - rewrite (first_edit now u text s H). right. eexists. split; reflexivity.
  - cbn [handle]. unfold onDidSaveTextDocument. apply handle_file_event_at_tidy.
    rewrite (clear_tidy_eq s H). now left.
  - cbn [handle]. unfold onDidCloseTextDocument. rewrite (clear_tidy_eq s H).
    now left.
Qed.

Lemma receive_tidy now ev s : tidy s -> tidy (fst (receive now ev s)).
Proof.
  intros H. unfold receive. destruct (running s); [|exact H].
  pose proof (handle_tidy now ev s H) as H1.
  destruct (handle now ev s) as [[s1 a1] threw]. cbn [fst] in *.
  now apply leave_tidy.
Qed.

Lemma run_timers_tidy due_now :
  forall s, tidy s -> tidy (fst (run_timers due_now s)).
Proof.
  induction due_now as [|tm rest IH]; intros s H; cbn [run_timers]; [exact H|].
  destruct (running s); [|exact H].
  pose proof (handle_file_event_at_tidy (due tm) (timer_uri tm)
                (file_data s !! timer_uri tm) s H) as H1.
  destruct (handle_file_event_at _ _ _ s) as [[s1 a1] threw]. cbn [fst] in H1.
  specialize (IH (leave InTimer threw s1) (leave_tidy _ _ _ H1)).
  now destruct (run_timers rest _) as [s2 a2].
Qed.

Lemma fire_due_tidy now s : tidy s -> tidy (fst (fire_due now s)).
Proof.
  intros H. unfold fire_due. apply run_timers_tidy.
  destruct H as [Hno | (tm & Htm & Hcd)]; unfold tidy; cbn [timers checkDelay].
  - left. now rewrite Hno.
  - rewrite Htm. cbn [List.filter]. destruct (is_due now tm); cbn [negb].
    + now left.
    + right. eauto.
Qed.

Lemma deliver_tidy evs : forall s, tidy s -> tidy (fst (deliver s evs)).
Proof.
  induction evs as [|[now ev] rest IH]; intros s H; cbn [deliver]; [exact H|].
  pose proof (fire_due_tidy now s H) as H1.
  destruct (fire_due now s) as [s1 a1]. cbn [fst] in H1.
  pose proof (receive_tidy now ev s1 H1) as H2.
  destruct (receive now ev s1) as [s2 a2]. cbn [fst] in H2.
  specialize (IH s2 H2). now destruct (deliver s2 rest) as [s3 a3].
Qed.

(** C6. Edits to one document, each arriving within the 500 ms window of the
    one before, lead to exactly one call of [handle_file_event]: every edit
    cancels the timer that is pending and sets a new one, so only the timer
    of the last edit fires, 500 ms after it, on the last text.  A save
    cancels the pending timer and makes the call at once, on the stored
    text, which it leaves as it is.  A close cancels the pending timer and
    calls nothing, then or later.  The call starts the analysis of the
    document; on a uri without a path it throws instead.  The server is
    taken in a state with at most one timer pending, whose handle
    [checkDelay] holds: every state it reaches from its start is such. *)
Theorem debounce_one_analysis (uri : string) (t : nat) (x : string)
    (more : list (nat * string)) (horizon : nat) (s : Server) :
  tidy s ->
  running s = true ->
  nothing_due t s ->
  within_window t more ->
  fst (List.last more (t, x)) + window <= horizon ->
  let ends (u : string) (contents : option string) :=
    match file_name_of u with
    | Some file => Normal (run Diagnostics u file contents files)
    | None => Throws
    end in
  analyses_until horizon s (edit_events uri ((t, x) :: more)) =
    [mkAnalysis (fst (List.last more (t, x)) + window) uri
       (Some (snd (List.last more (t, x))))
       (ends uri (Some (snd (List.last more (t, x)))))]
  /\ (forall now u text s0,
        tidy s0 ->
        handle now (DidChange u text) s0 =
        (mkServer (<[u := text]> (file_data s0)) (Some (next_timer s0))
           [mkTimer (next_timer s0) (now + 500) u] (S (next_timer s0))
           (running s0),
         [], false))
  /\ (forall now u s0,
        tidy s0 ->
        handle now (DidSave u) s0 =
        (mkServer (file_data s0) (checkDelay s0) [] (next_timer s0) (running s0),
         [mkAnalysis now u (file_data s0 !! u) (ends u (file_data s0 !! u))],
         match file_name_of u with Some _ => false | None => true end))
  /\ (forall now u s0 later,
        tidy s0 ->
        handle now (DidClose u) s0 =
        (mkServer (file_data s0) (checkDelay s0) [] (next_timer s0) (running s0),
         [], false)
        /\ snd (fire_due later (fst (fst (handle now (DidClose u) s0)))) = [])
  /\ (forall evs, tidy (fst (deliver start evs))).
Proof.
  intros Htidy Hrun Hidle Hw Hh ends. split; [|split; [|split; [|split]]].
  - exact (edits_of_one_from_idle uri t x more horizon s Htidy Hrun Hidle Hw Hh).
  - intros now u text s0 H0. exact (first_edit now u text s0 H0).
  - intros now u s0 H0. cbn [handle]. unfold onDidSaveTextDocument.
    rewrite (clear_tidy_eq s0 H0). cbn [file_data].
    change (file_data s0 !! u) with
      (file_data (mkServer (file_data s0) (checkDelay s0) [] (next_timer s0)
                    (running s0)) !! u) at 1.
    rewrite handle_file_event_at_stored. cbn [file_data].
    unfold has_path. now destruct (file_name_of u).
  - intros now u s0 later H0. cbn [handle]. unfold onDidCloseTextDocument.
    rewrite (clear_tidy_eq s0 H0). split; [reflexivity|].
    cbn [fst]. rewrite fire_due_idle; [reflexivity|]. intros tm [].
  - intros evs. apply deliver_tidy. now left.
Qed.

(** ** More on the debounce *)

(** X6. Edits to one document, each within the window of the one before,
    end in one call of [sendDiagnostics] on the last text when the file is a
    manifest, with the ecosystem of its name, and in no call at all when it
    is not, or when the uri has no path. *)
Theorem edits_start_one_cycle (uri : string)
    (t : nat) (x : string) (more : list (nat * string)) (horizon : nat)
    (s : Server) :
  tidy s ->
  running s = true ->
  nothing_due t s ->
  within_window t more ->
  fst (List.last more (t, x)) + window <= horizon ->
  let last_text := Some (snd (List.last more (t, x))) in
  let calls :=
    cycles_of (analyses_until horizon s (edit_events uri ((t, x) :: more))) in
  (file_name_of uri = Some "package.json"%string ->
   calls = [CallSendDiagnostics "npm" uri last_text PackageJson])
  /\ (file_name_of uri = Some "pom.xml"%string ->
      calls = [CallSendDiagnostics "maven" uri last_text PomXml])
  /\ (file_name_of uri = Some "requirements.txt"%string ->
      calls = [CallSendDiagnostics "pypi" uri last_text RequirementsTxt])
  /\ (file_name_of uri = Some "go.mod"%string ->
      calls = [LogGolangExecutable;
               CallSendDiagnostics "golang" uri last_text (GoMod uri)])
  /\ (forall file,
        file_name_of uri = Some file ->
        ~ In file ["package.json"; "pom.xml"; "requirements.txt"; "go.mod"]%string ->
        calls = [])
  /\ (file_name_of uri = None -> calls = []).
Proof.
  intros Htidy Hrun Hidle Hw Hh last_text calls. subst calls last_text.
  rewrite (edits_of_one_from_idle uri t x more horizon s Htidy Hrun Hidle Hw Hh).
  unfold cycles_of, outcome. cbn [omap list_omap called].
  repeat split; try (intros ->; reflexivity).
  intros file -> Hnot. now rewrite (files_other _ _ _ Hnot).
Qed.

(** X7. The variable [checkDelay] is one for all documents.  Edits to any
    documents, each within the window of the one before, lead to one call
    only: for the document of the last edit, on its text, 500 ms after it.
    A document edited earlier in the chain is not analysed. *)
Theorem edits_across_documents (e0 : Edit) (more : list Edit) (horizon : nat)
    (s : Server) :
  tidy s ->
  running s = true ->
  nothing_due (edit_time e0) s ->
  chained (edit_time e0) more ->
  edit_time (List.last more e0) + window <= horizon ->
  let final := List.last more e0 in
  let ends :=
    match file_name_of (edit_uri final) with
    | Some file =>
        Normal (run Diagnostics (edit_uri final) file (Some (edit_text final)) files)
    | None => Throws
    end in
  analyses_until horizon s (change_events (e0 :: more)) =
    [mkAnalysis (edit_time final + window) (edit_uri final)
       (Some (edit_text final)) ends]
  /\ forall e, In e (e0 :: more) -> edit_uri e <> edit_uri final ->
       ~ In (edit_uri e)
           (map analysed_uri
              (analyses_until horizon s (change_events (e0 :: more)))).
Proof.
  intros Htidy Hrun Hidle Hw Hh final ends.
  pose proof (edits_from_idle e0 more horizon s Htidy Hrun Hidle Hw Hh) as H.
  fold final in H. split; [exact H|].
  intros e _ Hne. rewrite H. simpl. intros [E|[]]. congruence.
Qed.

(** X8. What follows an edit within its window decides the fate of its
    pending timer.  A save or a close of any document, the same or another,
    cancels it: the save makes its own call at once and the edited document
    is analysed only if it is the saved one; after a close nothing is
    called.  An open does not touch the timer: the call for the opened
    document is made at once and the one for the edited document when its
    timer fires, on the text stored for it then, which is the opened text if
    the open was of the same document and got to store it; the timer does
    not fire only if the open threw and that ended the process. *)
Theorem after_an_edit (a b x y : string) (t t' horizon : nat) (s : Server) :
  tidy s ->
  running s = true ->
  nothing_due t s ->
  t <= t' < t + window ->
  t + window <= horizon ->
  let ends (u : string) (contents : option string) :=
    match file_name_of u with
    | Some file => Normal (run Diagnostics u file contents files)
    | None => Throws
    end in
  analyses_until horizon s [(t, DidChange a x); (t', DidSave b)] =
    [mkAnalysis t' b (<[a := x]> (file_data s) !! b)
       (ends b (<[a := x]> (file_data s) !! b))]
  /\ analyses_until horizon s [(t, DidChange a x); (t', DidClose b)] = []
  /\ analyses_until horizon s [(t, DidChange a x); (t', DidOpen b y)] =
       mkAnalysis t' b (Some y) (ends b (Some y)) ::
       match file_name_of b with
       | Some _ =>
           [mkAnalysis (t + window) a (Some (if decide (b = a) then y else x))
              (ends a (Some (if decide (b = a) then y else x)))]
       | None =>
           if fatal InNotification then []
           else [mkAnalysis (t + window) a (Some x) (ends a (Some x))]
       end.
Proof.
  intros Htidy Hrun Hidle [Hle Hlt] Hh ends.
  set (s1 := mkServer (<[a := x]> (file_data s)) (Some (next_timer s))
               [mkTimer (next_timer s) (t + window) a] (S (next_timer s)) true).
  assert (Hs1 : tidy s1) by (right; eexists; split; reflexivity).
  assert (Hnot : fire_due t' s1 = (s1, [])).
  { apply fire_due_idle. intros tm [<-|[]]. cbn [due]. lia. }
  assert (Hfirst : forall rest,
            analyses_until horizon s ((t, DidChange a x) :: rest) =
            analyses_until horizon s1 rest).
  { intros rest. unfold analyses_until. cbn [deliver].
    rewrite (fire_due_idle t s Hidle). unfold receive.
    rewrite Hrun, (first_edit _ _ _ s Htidy), leave_false, Hrun. fold s1.
    destruct (deliver s1 rest) as [s3 a3]. reflexivity. }
  rewrite !Hfirst. unfold analyses_until. cbn [deliver]. rewrite Hnot.
  unfold receive. cbn [running s1 handle app].
  split; [|split].
  - unfold onDidSaveTextDocument. rewrite (clear_tidy_eq s1 Hs1).
    cbn [file_data s1 checkDelay next_timer running].
    set (s2 := mkServer _ _ [] _ true).
    change (<[a := x]> (file_data s) !! b) with (file_data s2 !! b).
    rewrite handle_file_event_at_stored. cbn [app].
    rewrite fire_due_idle; [|intros tm Htm; rewrite leave_timers in Htm; destruct Htm].
    cbn [snd]. reflexivity.
  - unfold onDidCloseTextDocument. rewrite (clear_tidy_eq s1 Hs1), leave_false.
    cbn [app]. rewrite fire_due_idle; [reflexivity | intros tm []].
  - unfold onDidOpenTextDocument. rewrite handle_file_event_at_eq.
    cbn [app]. unfold has_path. fold (ends b (Some y)).
    change (outcome b (Some y)) with (ends b (Some y)).
    f_equal. destruct (file_name_of b) as [file|] eqn:Eb.
    + rewrite leave_false. cbn [negb s1 file_data checkDelay timers next_timer running].
      rewrite fire_due_one by exact Hh. cbn [set_file_data].
      destruct (decide (b = a)) as [->|Hne].
      * now rewrite lookup_insert_eq.
      * rewrite lookup_insert_ne by exact Hne. now rewrite lookup_insert_eq.
    + unfold leave. cbn [negb andb].
      destruct (fatal InNotification).
      * unfold fire_due, stop, s1, is_due.
        cbn [timers List.filter due file_data checkDelay next_timer running].
        destruct (Nat.leb_spec (t + window) horizon); [|lia].
        reflexivity.
      * unfold s1. rewrite fire_due_one by exact Hh.
        now rewrite lookup_insert_eq.
Qed.

Lemma handle_file_event_at_timers now uri contents s :
  timers (fst (fst (handle_file_event_at now uri contents s))) = timers s.
Proof. rewrite handle_file_event_at_eq. cbn [fst]. now destruct (has_path uri). Qed.

Lemma handle_file_event_at_calls now uri contents s :
  length (snd (fst (handle_file_event_at now uri contents s))) = 1.
Proof. now rewrite handle_file_event_at_eq. Qed.

Lemma run_timers_budget due_now :
  forall s,
    timers (fst (run_timers due_now s)) = timers s
    /\ length (snd (run_timers due_now s)) <= length due_now.
Proof.
  induction due_now as [|tm rest IH]; intros s; cbn [run_timers]; [auto|].
  destruct (running s); [|cbn; split; [reflexivity | lia]].
  pose proof (handle_file_event_at_timers (due tm) (timer_uri tm)
                (file_data s !! timer_uri tm) s) as Ht.
  pose proof (handle_file_event_at_calls (due tm) (timer_uri tm)
                (file_data s !! timer_uri tm) s) as Hc.
  destruct (handle_file_event_at _ _ _ s) as [[s1 a1] threw]. cbn [fst snd] in Ht, Hc.
  destruct (IH (leave InTimer threw s1)) as [IH1 IH2].
  destruct (run_timers rest _) as [s2 a2]. cbn [fst snd length] in *.
  rewrite leave_timers in IH1. rewrite length_app. split; [congruence | lia].
Qed.

Lemma fire_due_budget now s :
  length (snd (fire_due now s)) + pending (fst (fire_due now s)) <= pending s.
Proof.
  unfold fire_due, pending.
  destruct (run_timers_budget (List.filter (is_due now) (timers s))
              (mkServer (file_data s) (checkDelay s)
                 (List.filter (fun tm => negb (is_due now tm)) (timers s))
                 (next_timer s) (running s))) as [H1 H2].
  rewrite H1. cbn [timers].
  pose proof (filter_split_length (is_due now) (timers s)). lia.
Qed.

Lemma clear_budget h s : pending (clearTimeout h s) <= pending s.
Proof.
  unfold pending, clearTimeout. destruct h; [|lia]. cbn [timers].
  apply List.filter_length_le.
Qed.

Lemma handle_budget now ev s :
  length (snd (fst (handle now ev s))) + pending (fst (fst (handle now ev s)))
  <= pending s + (if is_trigger (now, ev) then 1 else 0).
Proof.
  pose proof (clear_budget (checkDelay s) s) as Hc.
  destruct ev as [u text|u text|u|u];
    cbn [handle is_trigger snd].
  - unfold onDidOpenTextDocument. unfold pending.
    rewrite handle_file_event_at_timers, handle_file_event_at_calls. lia.
  - unfold onDidChangeTextDocument, setTimeout, pending in *.
    cbn [fst snd timers length checkDelay]. rewrite length_app. cbn [length].
    unfold clearTimeout in *. cbn [checkDelay timers] in *.
    destruct (checkDelay s); cbn [timers] in *; lia.
  - unfold onDidSaveTextDocument. unfold pending in *.
    rewrite handle_file_event_at_timers, handle_file_event_at_calls. lia.
  - unfold onDidCloseTextDocument. cbn [fst snd length]. lia.
Qed.

Lemma receive_budget now ev s :
  length (snd (receive now ev s)) + pending (fst (receive now ev s))
  <= pending s + (if is_trigger (now, ev) then 1 else 0).
Proof.
  unfold receive. destruct (running s); [|cbn; lia].
  pose proof (handle_budget now ev s) as H.
  destruct (handle now ev s) as [[s1 a1] threw]. cbn [fst snd] in *.
  unfold pending in *. now rewrite leave_timers.
Qed.

Lemma deliver_budget evs :
  forall s,
    length (snd (deliver s evs)) + pending (fst (deliver s evs))
    <= pending s + length (List.filter is_trigger evs).
Proof.
  induction evs as [|[now ev] rest IH]; intros s; cbn [deliver]; [cbn; lia|].
  pose proof (fire_due_budget now s) as H1.
  destruct (fire_due now s) as [s1 a1]. cbn [fst snd] in H1.
  pose proof (receive_budget now ev s1) as H2.
  destruct (receive now ev s1) as [s2 a2]. cbn [fst snd] in H2.
  specialize (IH s2). destruct (deliver s2 rest) as [s3 a3]. cbn [fst snd] in *.
  rewrite !length_app. cbn [List.filter].
  destruct (is_trigger (now, ev)); cbn [length]; lia.
Qed.

(** X9. Whatever the events and their times, the server never makes more
    calls of [handle_file_event] than it received opens, saves and edits,
    plus the timers that were pending at the start; closes lead to none. *)
Theorem analyses_bounded (horizon : nat) (s : Server) (evs : list (nat * LspEvent)) :
  length (analyses_until horizon s evs)
  <= pending s + length (List.filter is_trigger evs).
Proof.
  unfold analyses_until.
  pose proof (deliver_budget evs s) as H.
  destruct (deliver s evs) as [s1 a1]. cbn [fst snd] in H.
  pose proof (fire_due_budget horizon s1) as H1.
  rewrite length_app. lia.
Qed.

Lemma run_timers_running due_now :
  forall s, running (fst (run_timers due_now s)) = true -> running s = true.
Proof.
  induction due_now as [|tm rest IH]; intros s; cbn [run_timers]; [auto|].
  destruct (running s) eqn:E; [reflexivity|]. cbn [fst]. congruence.
Qed.

Lemma leave_running site threw s :
  running (leave site threw s) = true ->
  leave site threw s = s.
Proof.
  unfold leave. destruct (threw && fatal site); [discriminate | reflexivity].
Qed.

Lemma run_timers_file_data due_now :
  forall s, file_data (fst (run_timers due_now s)) = file_data s.
Proof.
  induction due_now as [|tm rest IH]; intros s; cbn [run_timers]; [reflexivity|].
  destruct (running s); [|reflexivity].
  rewrite handle_file_event_at_stored.
  specialize (IH (leave InTimer (negb (has_path (timer_uri tm))) s)).
  destruct (run_timers rest _) as [s2 a2]. cbn [fst] in *.
  now rewrite IH, leave_file_data.
Qed.

Lemma fire_due_file_data now s :
  file_data (fst (fire_due now s)) = file_data s.
Proof. unfold fire_due. now rewrite run_timers_file_data. Qed.

Lemma fire_due_running now s :
  running (fst (fire_due now s)) = true -> running s = true.
Proof. unfold fire_due. intros H. now apply run_timers_running in H. Qed.

Lemma receive_running now ev s :
  running (fst (receive now ev s)) = true -> running s = true.
Proof.
  unfold receive. destruct (running s) eqn:E; [reflexivity|]. cbn [fst]. congruence.
Qed.

Lemma deliver_running evs :
  forall s, running (fst (deliver s evs)) = true -> running s = true.
Proof.
  induction evs as [|[now ev] rest IH]; intros s; cbn [deliver]; [auto|].
  pose proof (fire_due_running now s) as H1.
  destruct (fire_due now s) as [s1 a1]. cbn [fst] in H1.
  pose proof (receive_running now ev s1) as H2.
  destruct (receive now ev s1) as [s2 a2]. cbn [fst] in H2.
  specialize (IH s2). destruct (deliver s2 rest) as [s3 a3]. cbn [fst] in *.
  auto.
Qed.

Lemma insert_lookup_eqb (u v text : string) (m : gmap string string) :
  <[u := text]> m !! v = if String.eqb u v then Some text else m !! v.
Proof.
  destruct (String.eqb_spec u v) as [->|Hne];
    [apply lookup_insert_eq | now apply lookup_insert_ne].
Qed.

Lemma receive_file_data now ev s uri rest :
  running (fst (receive now ev s)) = true ->
  last_text uri (file_data (fst (receive now ev s)) !! uri) rest =
  last_text uri (file_data s !! uri) ((now, ev) :: rest).
Proof.
  unfold receive. destruct (running s) eqn:Hr; [|cbn [fst]; congruence].
  destruct ev as [u text|u text|u|u]; cbn [handle last_text].
  - unfold onDidOpenTextDocument. rewrite handle_file_event_at_eq. cbn [fst].
    intros H. rewrite (leave_running _ _ _ H).
    destruct (has_path u); cbn [file_data set_file_data].
    + now rewrite insert_lookup_eqb, andb_true_r.
    + now rewrite andb_false_r.
  - unfold onDidChangeTextDocument, setTimeout. cbn [fst file_data].
    intros _. rewrite leave_false. cbn [file_data checkDelay].
    destruct (checkDelay s); cbn [clearTimeout file_data];
      now rewrite insert_lookup_eqb.
  - unfold onDidSaveTextDocument.
    assert (Hfd : file_data (clearTimeout (checkDelay s) s) = file_data s).
    { unfold clearTimeout. now destruct (checkDelay s). }
    rewrite <- Hfd. rewrite handle_file_event_at_stored. cbn [fst].
    now rewrite leave_file_data.
  - unfold onDidCloseTextDocument. cbn [fst]. rewrite leave_false.
    intros _. unfold clearTimeout. now destruct (checkDelay s).
Qed.

Lemma deliver_file_data (uri : string) (evs : list (nat * LspEvent)) :
  forall s,
    running (fst (deliver s evs)) = true ->
    file_data (fst (deliver s evs)) !! uri = last_text uri (file_data s !! uri) evs.
Proof.
  induction evs as [|[now ev] rest IH]; intros s; [reflexivity|].
  cbn [deliver].
  pose proof (fire_due_file_data now s) as H1.
  destruct (fire_due now s) as [s1 a1]. cbn [fst] in H1.
  pose proof (receive_file_data now ev s1 uri rest) as H2.
  specialize (IH (fst (receive now ev s1))).
  pose proof (deliver_running rest (fst (receive now ev s1))) as H3.
  destruct (receive now ev s1) as [s2 a2]. cbn [fst] in *.
  destruct (deliver s2 rest) as [s3 a3]. cbn [fst] in *.
  intros Hr. rewrite (IH Hr), (H2 (H3 Hr)), H1. reflexivity.
Qed.

(** X21. While the process runs, the text the server keeps for a document
    is the text of its last edit or of its last open that got to store it
    (an open of a uri without a path throws before it stores): saves, closes
    and timers leave the store as it is.  So a save that follows any events
    calls [handle_file_event] on that text, or on [undefined] if there was
    none and nothing was stored. *)
Theorem stored_text_is_last (uri : string) (evs : list (nat * LspEvent))
    (s : Server) (now : nat) :
  running (fst (deliver s evs)) = true ->
  let s' := fst (deliver s evs) in
  let text := last_text uri (file_data s !! uri) evs in
  let ends :=
    match file_name_of uri with
    | Some file => Normal (run Diagnostics uri file text files)
    | None => Throws
    end in
  file_data s' !! uri = text
  /\ snd (fst (handle now (DidSave uri) s')) = [mkAnalysis now uri text ends]
  /\ snd (fst (handle now (DidSave uri) (fst (fire_due now s')))) =
       [mkAnalysis now uri text ends].
Proof.
  intros Hrun s' text ends. subst s' text ends.
  pose proof (deliver_file_data uri evs s Hrun) as H.
  assert (Hsave : forall s0,
            file_data s0 !! uri = last_text uri (file_data s !! uri) evs ->
            snd (fst (handle now (DidSave uri) s0)) =
            [mkAnalysis now uri (last_text uri (file_data s !! uri) evs)
               (outcome uri (last_text uri (file_data s !! uri) evs))]).
  { intros s0 H0. cbn [handle]. unfold onDidSaveTextDocument.
    assert (Hfd : file_data (clearTimeout (checkDelay s0) s0) = file_data s0).
    { unfold clearTimeout. now destruct (checkDelay s0). }
    rewrite handle_file_event_at_eq. cbn [fst snd]. now rewrite Hfd, H0. }
  split; [exact H|]. split; apply Hsave; [exact H|].
  now rewrite fire_due_file_data.
Qed.

(** X22. Because every edit clears the timer of [checkDelay] before it sets
    a new one, at most one timer is ever pending, whatever the events and
    their times, and [checkDelay] holds its handle: the next edit, save or
    close cancels it. *)
Theorem one_timer_pending (evs : list (nat * LspEvent)) :
  let s := fst (deliver start evs) in
  length (timers s) <= 1
  /\ (forall tm, In tm (timers s) -> checkDelay s = Some (timer_id tm))
  /\ timers (clearTimeout (checkDelay s) s) = [].
Proof.
  intros s.
  assert (H : tidy s) by (apply deliver_tidy; now left).
  split; [|split].
  - destruct H as [-> | (tm & -> & _)]; cbn; lia.
  - intros tm Htm. destruct H as [E | (tm' & E & Hcd)]; rewrite E in Htm.
    + destruct Htm.
    + destruct Htm as [<-|[]]. exact Hcd.
  - now apply clear_tidy.
Qed.

End Runtime.

(** ** Examples *)

(** The text after the last slash of a uri. *)
Fixpoint after_last_slash (name uri : string) : string :=
  match uri with
  | EmptyString => name
  | String c rest =>
      if Ascii.eqb c "/" then after_last_slash rest rest
      else after_last_slash name rest
  end.

(** A file-name function for the examples: a [file:] uri has the file name
    after its last slash, and any other uri has no path. *)
Definition sample_file_name (uri : string) : option string :=
  if String.prefix "file:///" uri then Some (after_last_slash uri uri) else None.

Definition sample_fatal (site : ThrowSite) : bool :=
  match site with InNotification => false | InTimer => true end.

Definition sample_until : nat -> Server -> list (nat * LspEvent) -> list Analysis :=
  analyses_until sample_file_name sample_fatal.

Lemma start_tidy : tidy start.
Proof. now left. Qed.

Lemma start_idle t : nothing_due t start.
Proof. intros tm []. Qed.

Lemma debounce_one_analysis_witness :
  sample_until 2000 start
    (edit_events "file:///work/package.json"
       [(0, "a"); (100, "ab"); (350, "abc")]%string)
  = [mkAnalysis 850 "file:///work/package.json" (Some "abc"%string)
       (Normal (Some [CallSendDiagnostics "npm" "file:///work/package.json"
                        (Some "abc"%string) PackageJson]))].
Proof.
  refine (proj1 (debounce_one_analysis sample_file_name sample_fatal
                   "file:///work/package.json" 0 "a"
                   [(100, "ab"); (350, "abc")]%string 2000 start
                   start_tidy eq_refl (start_idle 0) _ _)).
  - simpl. unfold window. lia.
  - simpl. unfold window. lia.
Defined.

(** A save while a timer is pending: one call, at the save. *)
Example save_cancels_timer :
  sample_until 2000 start
    [(0, DidChange "file:///work/pom.xml" "x"); (100, DidSave "file:///work/pom.xml")]
  = [mkAnalysis 100 "file:///work/pom.xml" (Some "x"%string)
       (Normal (Some [CallSendDiagnostics "maven" "file:///work/pom.xml"
                        (Some "x"%string) PomXml]))].
Proof. vm_compute. reflexivity. Qed.

(** [checkDelay] is one for all documents: an edit to a second document
    within the window cancels the timer of the first. *)
Example one_timer_for_all_documents :
  map analysed_uri
    (sample_until 2000 start
       [(0, DidChange "file:///a/package.json" "x");
        (100, DidChange "file:///b/package.json" "y")])
  = ["file:///b/package.json"%string].
Proof. vm_compute. reflexivity. Qed.

(** A document without a path: its open throws and stores nothing, its edit
    is stored and its timer fires, and the call throws. *)
Example untitled_document :
  sample_until 2000 start
    [(0, DidOpen "untitled:Untitled-1" "a"); (100, DidChange "untitled:Untitled-1" "ab")]
  = [mkAnalysis 0 "untitled:Untitled-1" (Some "a"%string) Throws;
     mkAnalysis 600 "untitled:Untitled-1" (Some "ab"%string) Throws].
Proof. vm_compute. reflexivity. Qed.

Lemma edits_start_one_cycle_witness :
  cycles_of
    (sample_until 900 start
       (edit_events "file:///w/pom.xml" [(0, "<a/>"); (300, "<b/>")]%string))
  = [CallSendDiagnostics "maven" "file:///w/pom.xml" (Some "<b/>"%string) PomXml].
Proof.
  refine (proj1 (proj2 (edits_start_one_cycle sample_file_name sample_fatal
                          "file:///w/pom.xml" 0 "<a/>" [(300, "<b/>"%string)] 900
                          start start_tidy eq_refl (start_idle 0) _ _)) eq_refl).
  - simpl. unfold window. lia.
  - simpl. unfold window. lia.
Defined.

Lemma edits_across_documents_witness :
  sample_until 1000 start
    (change_events [mkEdit 0 "file:///a/package.json" "{}";
                    mkEdit 200 "file:///b/pom.xml" "<p/>"])
  = [mkAnalysis 700 "file:///b/pom.xml" (Some "<p/>"%string)
       (Normal (Some [CallSendDiagnostics "maven" "file:///b/pom.xml"
                        (Some "<p/>"%string) PomXml]))].
Proof.
  refine (proj1 (edits_across_documents sample_file_name sample_fatal
                   (mkEdit 0 "file:///a/package.json" "{}")
                   [mkEdit 200 "file:///b/pom.xml" "<p/>"] 1000 start
                   start_tidy eq_refl (start_idle 0) _ _)).
  - simpl. unfold window. lia.
  - simpl. unfold window. lia.
Defined.

Lemma after_an_edit_witness :
  sample_until 600 start
    [(0, DidChange "file:///a/package.json" "{}"); (100, DidSave "file:///b/pom.xml")]
  = [mkAnalysis 100 "file:///b/pom.xml" None
       (Normal (Some [CallSendDiagnostics "maven" "file:///b/pom.xml" None PomXml]))].
Proof.
  refine (proj1 (after_an_edit sample_file_name sample_fatal
                   "file:///a/package.json" "file:///b/pom.xml" "{}" "none"
                   0 100 600 start start_tidy eq_refl (start_idle 0) _ _)).
  - unfold window. lia.
  - unfold window. lia.
Defined.

Lemma stored_text_is_last_witness :
  file_data
    (fst (deliver sample_file_name sample_fatal start
            [(0, DidOpen "file:///a/go.mod" "module a");
             (50, DidChange "file:///a/go.mod" "module b");
             (80, DidSave "file:///a/go.mod")]))
    !! "file:///a/go.mod"
  = Some "module b"%string.
Proof.
  refine (proj1 (stored_text_is_last sample_file_name sample_fatal
                   "file:///a/go.mod"
                   [(0, DidOpen "file:///a/go.mod" "module a");
                    (50, DidChange "file:///a/go.mod" "module b");
                    (80, DidSave "file:///a/go.mod")] start 90 _)).
  vm_compute. reflexivity.
Defined.

End Debounce.


(** ** The request URL of [fetchVulnerabilities] *)

Module RequestUrl.

(** The fields of [config] (of [./config]) the URL is built from; each is a
    string or [undefined]. *)
Record Config := mkConfig {
  server_url : option string;
  three_scale_user_token : option string;
  source : option string
}.

(** A value in a template or a string concatenation: [undefined] prints as
    "undefined". *)
Definition str_of (v : option string) : string :=
  match v with Some s => s | None => "undefined" end.

(** Truthiness of a string or [undefined]. *)
Definition truthy_opt (v : option string) : bool :=
  match v with Some s => Js.truthy s | None => false end.

(** The [url] handed to [fetch]. *)
Definition fetch_url (config : Config) (manifestHash : string) : string :=
  let url := str_of (server_url config) in
  let url :=
    if truthy_opt (three_scale_user_token config)
    then url +:+ "/component-analyses/?user_key="
             +:+ str_of (three_scale_user_token config)
    else url +:+ "/component-analyses" in
  let url := url +:+ "&utm_content=" +:+ manifestHash in
  if truthy_opt (source config)
  then url +:+ "&utm_source=" +:+ str_of (source config)
  else url.

(** No question mark in [s]. *)
Definition no_query_mark (s : string) : bool :=
  Js.all_chars (fun c => negb (Ascii.eqb c "?")) s.

(** ** Properties of the URL *)

Lemma no_query_mark_app a b :
  no_query_mark a = true -> no_query_mark b = true -> no_query_mark (a +:+ b) = true.
Proof. apply Js.all_chars_app. Qed.

(** X20. Without a user token the URL gets no query part: the manifest hash
    and the source are appended with [&] straight after the path
    [/component-analyses], and when the server URL, the hash and the source
    hold no question mark the whole URL holds none. *)
Theorem fetch_url_without_token (config : Config) (manifestHash : string) :
  truthy_opt (three_scale_user_token config) = false ->
  no_query_mark (str_of (server_url config)) = true ->
  no_query_mark manifestHash = true ->
  no_query_mark (str_of (source config)) = true ->
  no_query_mark (fetch_url config manifestHash) = true
  /\ fetch_url config manifestHash =
     (str_of (server_url config) +:+ "/component-analyses")
     +:+ "&utm_content=" +:+ manifestHash
     +:+ (if truthy_opt (source config)
          then "&utm_source=" +:+ str_of (source config) else "").
Proof.
  intros Htok Hs Hh Hsrc. unfold fetch_url. rewrite Htok.
  assert (Hbase : no_query_mark
            ((str_of (server_url config) +:+ "/component-analyses")
             +:+ "&utm_content=" +:+ manifestHash) = true).
  { repeat apply no_query_mark_app; auto. }
  destruct (truthy_opt (source config)).
  - split.
    + repeat apply no_query_mark_app; auto.
    + now rewrite !Js.append_assoc.
  - split; [exact Hbase|]. now rewrite !Js.append_assoc, Js.append_empty_r.
Qed.

Lemma fetch_url_without_token_witness :
  fetch_url (mkConfig (Some "https://host/api/v2") (Some "") None) "ab12"
  = "https://host/api/v2/component-analyses&utm_content=ab12"%string.
Proof.
  refine (proj2 (fetch_url_without_token
                   (mkConfig (Some "https://host/api/v2") (Some "") None) "ab12"
                   _ _ _ _)); reflexivity.
Defined.

Example fetch_url_with_token :
  fetch_url (mkConfig (Some "https://host/api/v2") (Some "k3y") (Some "vscode")) "ab12"
  = "https://host/api/v2/component-analyses/?user_key=k3y&utm_content=ab12&utm_source=vscode"%string.
Proof. reflexivity. Qed.

End RequestUrl.
